(** * Hash-Map: open addressing (quadratic probing) and separate chaining

    A shallow embedding of [hash_map_oa.py] and [hash_map_sc.py].

    Python integers are [Z]; [%] is Python's floor modulo, which is
    [Z.modulo] for every sign of the operands (the result takes the sign
    of the divisor).  Keys are [str], hence [string]; values are any
    Python object, hence a type parameter.  The hash function is the
    callable stored at construction, a parameter of each development.

    A call either returns normally, propagates an exception, or does not
    return: see [result]. *)

From Stdlib Require Import ZArith Zdivisibility Znumtheory Lia QArith Factorial.
From stdpp Require Import base tactics option list strings.

Local Open Scope Z_scope.

(** ** Outcome of a call *)

Inductive result (A : Type) : Type :=
| Ok (a : A)      (* the call returns [a] *)
| Raise           (* an exception propagates to the caller *)
| Diverge.        (* the call never returns *)
Arguments Ok {A} a.
Arguments Raise {A}.
Arguments Diverge {A}.

#[global] Instance result_bind : MBind result := fun A B k r =>
  match r with
  | Ok a => k a
  | Raise => Raise
  | Diverge => Diverge
  end.

(** The body of a [for] loop run over the items of a list, threading the
    object state. *)
Fixpoint for_each {St A : Type} (body : St -> A -> result St) (s : St) (items : list A)
  : result St :=
  match items with
  | [] => Ok s
  | a :: rest => s' ← body s a; for_each body s' rest
  end.

(** ** The resizable array collaborator *)

(** Modelled from the spec: the container [DynamicArray] of
    [hash_map_include] is not part of the sources.  The spec gives it
    [append], indexed read and write and [length]; it is a list here, and an
    index outside [0, length) raises. *)
Definition da_get {A : Type} (arr : list A) (index : Z) : result A :=
  if (0 <=? index) && (index <? Z.of_nat (length arr)) then
    match arr !! Z.to_nat index with
    | Some a => Ok a
    | None => Raise
    end
  else Raise.

Definition da_set {A : Type} (arr : list A) (index : Z) (a : A) : list A :=
  <[Z.to_nat index := a]> arr.

(** ** Capacity manager: [_is_prime] and [_next_prime]

    Both classes carry the same two methods, character for character. *)

(** The loop [while factor ** 2 <= capacity] of [_is_prime].  The fuel
    bounds the number of iterations; [_is_prime_loop_fuel] shows that the
    bound chosen in [_is_prime] is never reached. *)
Fixpoint _is_prime_loop (fuel : nat) (factor capacity : Z) : bool :=
  if factor ^ 2 <=? capacity then
    if capacity mod factor =? 0 then false
    else
      match fuel with
      | O => true
      | S fuel' => _is_prime_loop fuel' (factor + 2) capacity
      end
  else true.

Definition _is_prime (capacity : Z) : bool :=
  if (capacity =? 2) || (capacity =? 3) then true
  else if (capacity =? 1) || (capacity mod 2 =? 0) then false
  else _is_prime_loop (Z.to_nat capacity) 3 capacity.

(** One test of the loop [while not self._is_prime(capacity)]: either the
    candidate is returned or the loop goes on with the next odd number. *)
Definition _next_prime_step (capacity : Z) : Z + Z :=
  if negb (_is_prime capacity) then inl (capacity + 2) else inr capacity.

(** Up to [2 ^ depth] iterations of that loop, stopping at the first
    candidate returned.  [inl c] means the iterations are used up with the
    loop standing at candidate [c]. *)
Fixpoint _next_prime_loop (depth : nat) (capacity : Z) : Z + Z :=
  match depth with
  | O => _next_prime_step capacity
  | S depth' =>
      match _next_prime_loop depth' capacity with
      | inl capacity' => _next_prime_loop depth' capacity'
      | inr p => inr p
      end
  end.

(** [_next_prime_total] shows that the bound [2 ^ ((capacity + 1) ^ 2)] on
    the iterations is never reached, so the [inl] branch is dead code. *)
Definition _next_prime (capacity : Z) : Z :=
  let capacity := if capacity mod 2 =? 0 then capacity + 1 else capacity in
  match _next_prime_loop (Z.to_nat ((capacity + 1) ^ 2)) capacity with
  | inr p => p
  | inl c => c
  end.

(** ** The calls of a client

    Both classes have the same public methods; [empty_buckets],
    [table_load], [get_size] and [get_capacity] only read. *)
Inductive call (V : Type) : Type :=
| Put (key : string) (value : V)
| Get (key : string)
| ContainsKey (key : string)
| Remove (key : string)
| Clear
| ResizeTable (new_capacity : Z).
Arguments Put {V} key value.
Arguments Get {V} key.
Arguments ContainsKey {V} key.
Arguments Remove {V} key.
Arguments Clear {V}.
Arguments ResizeTable {V} new_capacity.

(** ** Open addressing with quadratic probing: [hash_map_oa.py] *)

Module OA.
Section HashMap.
Context {V : Type}.
(** [self._hash_function], fixed at construction. *)
Variable _hash_function : string -> Z.

(** Modelled from the spec: the class [HashEntry] of [hash_map_include] is
    not part of the sources.  The spec gives it as a (key, value,
    tombstone-flag) triple; a new entry is not a tombstone.  An entry is
    an object without length or truth value of its own, so it is truthy,
    and [None] is the only falsy content of a slot. *)
Record HashEntry : Type := mkHashEntry {
  entry_key : string;
  entry_value : V;
  is_tombstone : bool
}.

Record HashMap : Type := mkHashMap {
  _buckets : list (option HashEntry);
  _capacity : Z;
  _size : Z
}.

(** [clear]: a new array with [None] appended [range(self._capacity)]
    times. *)
Definition clear (m : HashMap) : HashMap :=
  {| _buckets := replicate (Z.to_nat (_capacity m)) None;
     _capacity := _capacity m;
     _size := 0 |}.

Definition __init__ (capacity : Z) : HashMap :=
  let capacity := _next_prime capacity in
  {| _buckets := replicate (Z.to_nat capacity) None;
     _capacity := capacity;
     _size := 0 |}.

Definition get_size (m : HashMap) : Z := _size m.
Definition get_capacity (m : HashMap) : Z := _capacity m.

(** [self._size / self._capacity] is a true division of two integers.
    The quotient is kept exact here, as a rational: Python rounds it to the
    nearest float, and the only use made of it, the test [>= 0.5] of [put],
    has the same outcome on the exact and on the rounded quotient for every
    capacity below [2 ^ 53].  Dividing by zero raises
    [ZeroDivisionError]. *)
Definition table_load (m : HashMap) : result Q :=
  if _capacity m =? 0 then Raise
  else Ok (inject_Z (_size m) / inject_Z (_capacity m))%Q.

(** The loop of [get_bucket_index], entered with the probe counter [j]
    and the current [index].  [probe_fuel] shows that a loop which has
    not returned after [|capacity|] steps never does. *)
Fixpoint probe (fuel : nat) (buckets : list (option HashEntry)) (capacity : Z)
    (key : string) (initial j index : Z) : result Z :=
  bucket ← da_get buckets index;
  match bucket with
  | None => Ok index
  | Some e =>
      if decide (entry_key e = key) then Ok index
      else
        match fuel with
        | O => Diverge
        | S fuel' =>
            probe fuel' buckets capacity key initial (j + 1)
                  ((initial + j ^ 2) mod capacity)
        end
  end.

Definition get_bucket_index (m : HashMap) (key : string) : result Z :=
  if _capacity m =? 0 then Raise
  else
    let initial := _hash_function key mod _capacity m in
    probe (Z.abs_nat (_capacity m)) (_buckets m) (_capacity m) key initial 1 initial.

(** The loop [for num in range(self._capacity)] of [get_keys_and_values],
    standing at [num] with [n] rounds to go. *)
Fixpoint keys_and_values_loop (buckets : list (option HashEntry)) (num : Z) (n : nat)
    (arr : list (string * V)) : result (list (string * V)) :=
  match n with
  | O => Ok arr
  | S n' =>
      bucket ← da_get buckets num;
      keys_and_values_loop buckets (num + 1) n'
        match bucket with
        | Some e =>
            if negb (is_tombstone e) then arr ++ [(entry_key e, entry_value e)]
            else arr
        | None => arr
        end
  end.

Definition get_keys_and_values (m : HashMap) : result (list (string * V)) :=
  keys_and_values_loop (_buckets m) 0 (Z.to_nat (_capacity m)) [].

Fixpoint empty_buckets_loop (buckets : list (option HashEntry)) (num : Z) (n : nat)
    (empty_count : Z) : result Z :=
  match n with
  | O => Ok empty_count
  | S n' =>
      bucket ← da_get buckets num;
      empty_buckets_loop buckets (num + 1) n'
        (if bucket is None then empty_count + 1 else empty_count)
  end.

Definition empty_buckets (m : HashMap) : result Z :=
  empty_buckets_loop (_buckets m) 0 (Z.to_nat (_capacity m)) 0.

(** The body of [put]; the method it calls for [self.resize_table] is a
    parameter, since [put] and [resize_table] call each other. *)
Definition put_with (resize_table : HashMap -> Z -> result HashMap)
    (m : HashMap) (key : string) (value : V) : result HashMap :=
  load ← table_load m;
  m ← (if Qle_bool (1 # 2) load then resize_table m (_capacity m * 2) else Ok m);
  index ← get_bucket_index m key;
  bucket ← da_get (_buckets m) index;
  let insert :=
    {| _buckets := da_set (_buckets m) index (Some (mkHashEntry key value false));
       _capacity := _capacity m;
       _size := _size m + 1 |} in
  match bucket with
  | Some e =>
      if negb (is_tombstone e) then
        Ok {| _buckets :=
                da_set (_buckets m) index
                  (Some (mkHashEntry (entry_key e) value (is_tombstone e)));
              _capacity := _capacity m;
              _size := _size m |}
      else Ok insert
  | None => Ok insert
  end.

(** [resize_table]; [depth] bounds how deep [resize_table] may call itself
    through [put].  On the states a client can reach the bound chosen in
    [resize_table] is never reached: [resize_table_unfold] shows that
    [resize_table] then satisfies the equation of the source, with [put] in
    its loop. *)
Fixpoint resize_table_rec (depth : nat) (m : HashMap) (new_capacity : Z)
    : result HashMap :=
  match depth with
  | O => Diverge
  | S depth' =>
      if new_capacity <? _size m then Ok m
      else
        let new_capacity :=
          if negb (_is_prime new_capacity) then _next_prime new_capacity
          else new_capacity in
        key_val_arr ← get_keys_and_values m;
        let m := clear {| _buckets := _buckets m;
                          _capacity := new_capacity;
                          _size := _size m |} in
        for_each (fun m '(key, val) => put_with (resize_table_rec depth') m key val)
                 m key_val_arr
  end.

Definition resize_table (m : HashMap) (new_capacity : Z) : result HashMap :=
  resize_table_rec (S (length (_buckets m))) m new_capacity.

Definition put (m : HashMap) (key : string) (value : V) : result HashMap :=
  put_with resize_table m key value.

(** [get] returns [None] for a key that is not in the map. *)
Definition get (m : HashMap) (key : string) : result (option V) :=
  index ← get_bucket_index m key;
  bucket ← da_get (_buckets m) index;
  match bucket with
  | Some e => if negb (is_tombstone e) then Ok (Some (entry_value e)) else Ok None
  | None => Ok None
  end.

Definition contains_key (m : HashMap) (key : string) : result bool :=
  if _size m =? 0 then Ok false
  else
    index ← get_bucket_index m key;
    bucket ← da_get (_buckets m) index;
    match bucket with
    | Some e => if negb (is_tombstone e) then Ok true else Ok false
    | None => Ok false
    end.

Definition remove (m : HashMap) (key : string) : result HashMap :=
  index ← get_bucket_index m key;
  bucket ← da_get (_buckets m) index;
  match bucket with
  | Some e =>
      if negb (is_tombstone e) then
        Ok {| _buckets :=
                da_set (_buckets m) index
                  (Some (mkHashEntry (entry_key e) (entry_value e) true));
              _capacity := _capacity m;
              _size := _size m - 1 |}
      else Ok m
  | None => Ok m
  end.

(** The states a client can reach from a constructed map with the public
    methods. *)
Definition run (m : HashMap) (c : call V) : result HashMap :=
  match c with
  | Put key value => put m key value
  | Get key => _ ← get m key; Ok m
  | ContainsKey key => _ ← contains_key m key; Ok m
  | Remove key => remove m key
  | Clear => Ok (clear m)
  | ResizeTable new_capacity => resize_table m new_capacity
  end.

Inductive reachable : HashMap -> Prop :=
| reachable_init (capacity : Z) : reachable (__init__ capacity)
| reachable_run (m m' : HashMap) (c : call V) :
    reachable m -> run m c = Ok m' -> reachable m'.

End HashMap.
End OA.

(** ** Separate chaining: [hash_map_sc.py] *)

Module SC.
Section HashMap.
Context {V : Type}.
(** [self._hash_function], fixed at construction. *)
Variable _hash_function : string -> Z.

(** Modelled from the spec: the class [LinkedList] of [hash_map_include]
    is not part of the sources.  The spec gives it a membership test by
    key, insert, remove-by-key and forward iteration yielding (key, value)
    pairs, and has [put] append the new node to the chain.  A chain is the
    list of its nodes in iteration order; [contains] yields the first node
    with the key, [remove] unlinks that node and tells whether there was
    one. *)
Abbreviation LinkedList := (list (string * V)).

Fixpoint ll_contains (l : LinkedList) (key : string) : option (string * V) :=
  match l with
  | [] => None
  | node :: rest => if decide (node.1 = key) then Some node else ll_contains rest key
  end.

Definition ll_insert (l : LinkedList) (key : string) (value : V) : LinkedList :=
  l ++ [(key, value)].

Fixpoint ll_remove (l : LinkedList) (key : string) : option LinkedList :=
  match l with
  | [] => None
  | node :: rest =>
      if decide (node.1 = key) then Some rest
      else cons node <$> ll_remove rest key
  end.

(** [node.value = value] on the node that [contains] returned: the node is
    shared with the chain, so the chain changes. *)
Fixpoint ll_set_value (l : LinkedList) (key : string) (value : V) : LinkedList :=
  match l with
  | [] => []
  | node :: rest =>
      if decide (node.1 = key) then (node.1, value) :: rest
      else node :: ll_set_value rest key value
  end.

Record HashMap : Type := mkHashMap {
  _buckets : list LinkedList;
  _capacity : Z;
  _size : Z
}.

Definition clear (m : HashMap) : HashMap :=
  {| _buckets := replicate (Z.to_nat (_capacity m)) [];
     _capacity := _capacity m;
     _size := 0 |}.

Definition __init__ (capacity : Z) : HashMap :=
  let capacity := _next_prime capacity in
  {| _buckets := replicate (Z.to_nat capacity) [];
     _capacity := capacity;
     _size := 0 |}.

Definition get_size (m : HashMap) : Z := _size m.
Definition get_capacity (m : HashMap) : Z := _capacity m.

(** [index = self._hash_function(key) % self._capacity], which raises
    [ZeroDivisionError] on a zero capacity, then [self._buckets[index]]. *)
Definition bucket_of (m : HashMap) (key : string) : result (Z * LinkedList) :=
  if _capacity m =? 0 then Raise
  else
    let index := _hash_function key mod _capacity m in
    bucket ← da_get (_buckets m) index;
    Ok (index, bucket).

Definition put (m : HashMap) (key : string) (value : V) : result HashMap :=
  '(index, bucket) ← bucket_of m key;
  match ll_contains bucket key with
  | Some node =>
      Ok {| _buckets := da_set (_buckets m) index (ll_set_value bucket key value);
            _capacity := _capacity m;
            _size := _size m |}
  | None =>
      Ok {| _buckets := da_set (_buckets m) index (ll_insert bucket key value);
            _capacity := _capacity m;
            _size := _size m + 1 |}
  end.

Fixpoint empty_buckets_loop (buckets : list LinkedList) (num : Z) (n : nat)
    (empty_buckets : Z) : result Z :=
  match n with
  | O => Ok empty_buckets
  | S n' =>
      bucket ← da_get buckets num;
      empty_buckets_loop buckets (num + 1) n'
        (if decide (length bucket = 0%nat) then empty_buckets + 1 else empty_buckets)
  end.

Definition empty_buckets (m : HashMap) : result Z :=
  empty_buckets_loop (_buckets m) 0 (Z.to_nat (_capacity m)) 0.

Definition table_load (m : HashMap) : result Q :=
  if _capacity m =? 0 then Raise
  else Ok (inject_Z (_size m) / inject_Z (_capacity m))%Q.

(** The loop [for num in range(self._capacity)] of [get_keys_and_values],
    standing at [num] with [n] rounds to go; the inner loop appends the
    nodes of the bucket in chain order. *)
Fixpoint keys_and_values_loop (buckets : list LinkedList) (num : Z) (n : nat)
    (arr : list (string * V)) : result (list (string * V)) :=
  match n with
  | O => Ok arr
  | S n' =>
      bucket ← da_get buckets num;
      keys_and_values_loop buckets (num + 1) n' (arr ++ bucket)
  end.

Definition get_keys_and_values (m : HashMap) : result (list (string * V)) :=
  keys_and_values_loop (_buckets m) 0 (Z.to_nat (_capacity m)) [].

Definition resize_table (m : HashMap) (new_capacity : Z) : result HashMap :=
  if new_capacity <? 1 then Ok m
  else
    let new_capacity :=
      if negb (_is_prime new_capacity) then _next_prime new_capacity
      else new_capacity in
    key_val_arr ← get_keys_and_values m;
    let m := clear {| _buckets := _buckets m;
                      _capacity := new_capacity;
                      _size := _size m |} in
    for_each (fun m '(key, val) => put m key val) m key_val_arr.

Definition get (m : HashMap) (key : string) : result (option V) :=
  '(index, bucket) ← bucket_of m key;
  match ll_contains bucket key with
  | Some node => Ok (Some node.2)
  | None => Ok None
  end.

Definition contains_key (m : HashMap) (key : string) : result bool :=
  '(index, bucket) ← bucket_of m key;
  Ok (bool_decide (is_Some (ll_contains bucket key))).

Definition remove (m : HashMap) (key : string) : result HashMap :=
  '(index, bucket) ← bucket_of m key;
  match ll_remove bucket key with
  | Some bucket' =>
      Ok {| _buckets := da_set (_buckets m) index bucket';
            _capacity := _capacity m;
            _size := _size m - 1 |}
  | None => Ok m
  end.

Definition run (m : HashMap) (c : call V) : result HashMap :=
  match c with
  | Put key value => put m key value
  | Get key => _ ← get m key; Ok m
  | ContainsKey key => _ ← contains_key m key; Ok m
  | Remove key => remove m key
  | Clear => Ok (clear m)
  | ResizeTable new_capacity => resize_table m new_capacity
  end.

Inductive reachable : HashMap -> Prop :=
| reachable_init (capacity : Z) : reachable (__init__ capacity)
| reachable_run (m m' : HashMap) (c : call V) :
    reachable m -> run m c = Ok m' -> reachable m'.

End HashMap.
End SC.

(** * Notions used to state the properties *)

Section oa_notions.
Import OA.
Context {V : Type}.
Variable hash : string -> Z.
Implicit Types (m : HashMap (V:=V)) (buckets : list (option (HashEntry (V:=V)))).
Implicit Types (key : string) (e : HashEntry (V:=V)) (slot : option (HashEntry (V:=V))).

(** The [j]-th index of the quadratic probe sequence. *)
Definition visit (initial capacity j : Z) : Z := (initial + j ^ 2) mod capacity.

(** The loop goes past a slot when it holds an entry for another key. *)
Definition passes buckets key (index : Z) : bool :=
  match da_get buckets index with
  | Ok (Some e) => bool_decide (entry_key e <> key)
  | _ => false
  end.

(** What the loop does at a slot it does not go past: it returns the
    index, or the indexing raises. *)
Definition examine buckets (index : Z) : result Z :=
  _ ← da_get buckets index; Ok index.

(** The pair a slot contributes to the map: none for an empty slot or a
    tombstone. *)
Definition live slot : option (string * V) :=
  e ← slot; if is_tombstone e then None else Some (entry_key e, entry_value e).

(** The live pairs in bucket order. *)
Definition live_pairs buckets : list (string * V) := omap live buckets.

(** A table in which nothing was removed since it was last rebuilt. *)
Definition no_tombstone buckets : Prop :=
  forall i e, buckets !! i = Some (Some e) -> is_tombstone e = false.

(** The representation invariant of the open-addressing map. *)
Record wf m : Prop := mk_wf {
  wf_length : length (_buckets m) = Z.to_nat (_capacity m);
  wf_capacity : _capacity m <> 0;
  wf_prime : 0 < _capacity m -> Z.prime (_capacity m);
  (* every entry, tombstone or not, sits where the probe for its key ends *)
  wf_probe : forall i e, _buckets m !! i = Some (Some e) ->
               get_bucket_index hash m (entry_key e) = Ok (Z.of_nat i);
  wf_size : _size m = Z.of_nat (length (live_pairs (_buckets m)))
}.

(** [put] after its resize check. *)
Definition put_at m key (value : V) : result HashMap :=
  index ← get_bucket_index hash m key;
  bucket ← da_get (_buckets m) index;
  let insert :=
    {| _buckets := da_set (_buckets m) index (Some (mkHashEntry key value false));
       _capacity := _capacity m;
       _size := _size m + 1 |} in
  match bucket with
  | Some e =>
      if negb (is_tombstone e) then
        Ok {| _buckets :=
                da_set (_buckets m) index
                  (Some (mkHashEntry (entry_key e) value (is_tombstone e)));
              _capacity := _capacity m;
              _size := _size m |}
      else Ok insert
  | None => Ok insert
  end.

(** What [put] relies on when it calls [resize_table] to double the
    capacity. *)
Definition resize_ok (resize : HashMap -> Z -> result HashMap) : Prop :=
  forall m, wf m -> 0 < _capacity m -> _capacity m <= 2 * _size m ->
    exists m1, resize m (_capacity m * 2) = Ok m1 /\
      wf m1 /\ no_tombstone (_buckets m1) /\
      live_pairs (_buckets m1) ≡ₚ live_pairs (_buckets m) /\
      2 * _capacity m < _capacity m1 /\ 2 * _size m1 < _capacity m1.

(** The loop of [resize_table], for a given [resize_table] inside [put]. *)
Definition reinsert (resize : HashMap -> Z -> result HashMap) m
    (key_val_arr : list (string * V)) : result HashMap :=
  for_each (fun m '(key, val) => put_with hash resize m key val) m key_val_arr.

End oa_notions.

(** The capacity [resize_table] gives the new table. *)
Definition normalize (new_capacity : Z) : Z :=
  if negb (_is_prime new_capacity) then _next_prime new_capacity else new_capacity.

Section sc_notions.
Import SC.
Context {V : Type}.
Variable hash : string -> Z.
Implicit Types (m : HashMap (V:=V)) (buckets : list (list (string * V))).

(** The pairs of the map: bucket order outside, chain order inside. *)
Definition entries buckets : list (string * V) := concat buckets.

(** The representation invariant of the chaining map. *)
Record sc_wf m : Prop := mk_sc_wf {
  sc_wf_length : length (_buckets m) = Z.to_nat (_capacity m);
  sc_wf_capacity : _capacity m <> 0;
  (* a node lives in the bucket its key hashes to *)
  sc_wf_home : forall i bucket node, _buckets m !! i = Some bucket -> node ∈ bucket ->
                 hash node.1 mod _capacity m = Z.of_nat i;
  sc_wf_chain : forall i bucket, _buckets m !! i = Some bucket -> NoDup bucket.*1;
  sc_wf_size : _size m = Z.of_nat (length (entries (_buckets m)))
}.

End sc_notions.

(** The load of an open-addressing map is at most one pair above one
    half. *)
Definition load_bounded {V : Type} (m : OA.HashMap (V:=V)) : Prop :=
  0 < OA._capacity m -> 2 * (OA._size m - 1) < OA._capacity m.

(** The number of slots of an open-addressing table that hold nothing,
    neither an entry nor a tombstone. *)
Fixpoint empty_slots {V : Type} (buckets : list (option (OA.HashEntry (V:=V)))) : Z :=
  match buckets with
  | [] => 0
  | None :: rest => 1 + empty_slots rest
  | Some _ :: rest => empty_slots rest
  end.

(** The number of buckets of a chaining table whose chain has no node. *)
Fixpoint empty_chains {V : Type} (buckets : list (list (string * V))) : Z :=
  match buckets with
  | [] => 0
  | [] :: rest => 1 + empty_chains rest
  | (_ :: _) :: rest => empty_chains rest
  end.

(** A hash function for the concrete scenarios: the sum of the character
    codes of the key. *)
Fixpoint sample_hash (key : string) : Z :=
  match key with
  | EmptyString => 0
  | String c rest => Z.of_N (Ascii.N_of_ascii c) + sample_hash rest
  end.

(** The open-addressing map after [HashMap(5)], [put("a", 1)],
    [put("b", 2)] with [sample_hash]: load 2/5. *)
Definition oa_ab : OA.HashMap (V:=Z) :=
  {| OA._buckets := [None; None; Some (OA.mkHashEntry "a" 1 false);
                     Some (OA.mkHashEntry "b" 2 false); None];
     OA._capacity := 5; OA._size := 2 |}.

(** The same two calls after [HashMap(3)]: load 2/3, and the probe for
    ["d"] only meets the two occupied slots. *)
Definition oa_ab3 : OA.HashMap (V:=Z) :=
  {| OA._buckets := [None; Some (OA.mkHashEntry "a" 1 false);
                     Some (OA.mkHashEntry "b" 2 false)];
     OA._capacity := 3; OA._size := 2 |}.

(** The chaining map after [HashMap(5)], [put("a", 1)], [put("b", 2)]. *)
Definition sc_ab : SC.HashMap (V:=Z) :=
  {| SC._buckets := [[]; []; [("a", 1)]; [("b", 2)]; []];
     SC._capacity := 5; SC._size := 2 |}.

(** What a call does to the value written for [key]: a [put] of the key
    writes it, a [remove] of the key or a [clear] erases it. *)
Definition track {V : Type} (key : string) (written : option V) (c : call V) : option V :=
  match c with
  | Put k v => if decide (k = key) then Some v else written
  | Remove k => if decide (k = key) then None else written
  | Clear => None
  | Get _ | ContainsKey _ | ResizeTable _ => written
  end.

(** The value of the last [put] of [key] in a sequence of calls, when no
    [remove] of the key and no [clear] comes after it. *)
Definition last_put {V : Type} (cs : list (call V)) (key : string) : option V :=
  foldl (track key) None cs.

(** The calls of a client that only writes: [put] and [resize_table]. *)
Definition is_write {V : Type} (c : call V) : Prop :=
  match c with
  | Put _ _ | ResizeTable _ => True
  | _ => False
  end.

(** * Capacity manager: correctness *)

(** *** Trial division decides primality *)

Lemma _is_prime_loop_spec (fuel : nat) (factor capacity : Z) :
  1 <= factor ->
  capacity < factor + Z.of_nat fuel ->
  _is_prime_loop fuel factor capacity = true <->
  (forall k, 0 <= k -> (factor + 2 * k) ^ 2 <= capacity ->
             capacity mod (factor + 2 * k) <> 0).
Proof.
  revert factor. induction fuel as [|fuel IH]; intros factor Hf Hc; simpl.
  - destruct (Z.leb_spec (factor ^ 2) capacity) as [Hsq|Hsq]; [nia|].
    split; [|done]. intros _ k Hk Hle. nia.
  - destruct (Z.leb_spec (factor ^ 2) capacity) as [Hsq|Hsq].
    + destruct (Z.eqb_spec (capacity mod factor) 0) as [Hm|Hm].
      * split; [done|]. intros H. exfalso. apply (H 0); [lia| |].
        -- by replace (factor + 2 * 0) with factor by lia.
        -- by replace (factor + 2 * 0) with factor by lia.
      * rewrite IH by lia. split.
        -- intros H k Hk Hle. destruct (decide (k = 0)) as [->|Hk0].
           ++ by replace (factor + 2 * 0) with factor by lia.
           ++ replace (factor + 2 * k) with (factor + 2 + 2 * (k - 1)) in * by lia.
              apply H; [lia|done].
        -- intros H k Hk Hle.
           replace (factor + 2 + 2 * k) with (factor + 2 * (k + 1)) in * by lia.
           apply H; [lia|done].
    + split; [|done]. intros _ k Hk Hle. nia.
Qed.

(** The fuel given by [_is_prime] is never used up: a larger bound yields
    the same answer. *)
Lemma _is_prime_loop_fuel (fuel : nat) (capacity : Z) :
  (Z.to_nat capacity <= fuel)%nat ->
  _is_prime_loop fuel 3 capacity = _is_prime_loop (Z.to_nat capacity) 3 capacity.
Proof.
  intros Hfuel.
  pose proof (_is_prime_loop_spec fuel 3 capacity ltac:(lia) ltac:(lia)) as H1.
  pose proof (_is_prime_loop_spec (Z.to_nat capacity) 3 capacity
                ltac:(lia) ltac:(lia)) as H2.
  destruct (_is_prime_loop (Z.to_nat capacity) 3 capacity) eqn:E.
  - apply (proj2 H1), (proj1 H2). done.
  - apply not_true_is_false. intros E'.
    pose proof (proj2 H2 (proj1 H1 E')). done.
Qed.

Lemma odd_trial_prime (n : Z) :
  5 <= n -> n mod 2 <> 0 ->
  (forall k, 0 <= k -> (3 + 2 * k) ^ 2 <= n -> n mod (3 + 2 * k) <> 0) <->
  Z.prime n.
Proof.
  intros Hn Hodd. split.
  - intros Htrial. split; [lia|]. intros a Ha [b Hb].
    assert (1 < b < n) as Hbr by nia.
    (* the smaller of the two cofactors is at most the square root *)
    assert (exists d, 1 < d /\ d ^ 2 <= n /\ (d | n)) as (d & Hd1 & Hd2 & Hd3).
    { destruct (Z.le_gt_cases a b).
      - exists a. split; [lia|]. split; [nia|]. exists b. lia.
      - exists b. split; [lia|]. split; [nia|]. exists a. lia. }
    assert (d mod 2 <> 0) as Hdodd.
    { intros Hd. apply Hodd. apply Z.mod_divide; [lia|].
      apply Z.divide_trans with d; [|done]. by apply Z.mod_divide. }
    assert (exists q, d = 2 * q + 1) as [q ->].
    { exists (d / 2). pose proof (Z.div_mod d 2). pose proof (Z.mod_pos_bound d 2). lia. }
    apply (Htrial (q - 1)); [lia|..];
      replace (3 + 2 * (q - 1)) with (2 * q + 1) by lia; [done|].
    apply Z.mod_divide; [lia|done].
  - intros [_ Hp] k Hk Hle Hm.
    apply Z.mod_divide in Hm; [|lia]. apply (Hp (3 + 2 * k)); [nia|done].
Qed.

Lemma _is_prime_correct (n : Z) : 1 <= n -> _is_prime n = true <-> Z.prime n.
Proof.
  intros Hn. unfold _is_prime.
  destruct (Z.eqb_spec n 2) as [->|H2]; simpl.
  { split; [intros _; apply Z.prime_2|done]. }
  destruct (Z.eqb_spec n 3) as [->|H3]; simpl.
  { split; [intros _; apply Z.prime_3|done]. }
  destruct (Z.eqb_spec n 1) as [->|H1]; simpl.
  { split; [done|]. intros Hp. by apply Z.not_prime_1 in Hp. }
  destruct (Z.eqb_spec (n mod 2) 0) as [Hev|Hodd].
  { split; [done|]. intros [_ Hp]. apply Z.mod_divide in Hev; [|lia].
    destruct (Hp 2); [lia|done]. }
  assert (n <> 4).
  { intros ->. by apply Hodd. }
  rewrite _is_prime_loop_spec by lia.
  apply odd_trial_prime; [lia|done].
Qed.

(** The loop body of [_is_prime] never runs on a negative odd number. *)
Lemma _is_prime_negative_odd (n : Z) : n < 0 -> n mod 2 = 1 -> _is_prime n = true.
Proof.
  intros Hneg Hodd. unfold _is_prime.
  destruct (Z.eqb_spec n 2); [lia|]. destruct (Z.eqb_spec n 3); [lia|].
  destruct (Z.eqb_spec n 1); [lia|]. rewrite Hodd. simpl.
  assert ((3 ^ 2 <=? n) = false) as H by (apply Z.leb_gt; lia).
  destruct (Z.to_nat n); unfold _is_prime_loop; by rewrite H.
Qed.

(** *** The search of [_next_prime] *)

(** What [2 ^ depth] iterations do, in terms of the candidates
    [capacity + 2 * k] that the loop tests in turn. *)
Lemma _next_prime_loop_spec (depth : nat) (capacity : Z) :
  ((forall k, 0 <= k < 2 ^ Z.of_nat depth -> _is_prime (capacity + 2 * k) = false) ->
   _next_prime_loop depth capacity = inl (capacity + 2 * 2 ^ Z.of_nat depth)) /\
  (forall k, 0 <= k < 2 ^ Z.of_nat depth ->
     _is_prime (capacity + 2 * k) = true ->
     (forall i, 0 <= i < k -> _is_prime (capacity + 2 * i) = false) ->
     _next_prime_loop depth capacity = inr (capacity + 2 * k)).
Proof.
  revert capacity. induction depth as [|depth IH]; intros capacity.
  - change (2 ^ Z.of_nat 0) with 1. simpl. unfold _next_prime_step. split.
    + intros H. specialize (H 0 ltac:(lia)).
      replace (capacity + 2 * 0) with capacity in H by lia. rewrite H. simpl.
      f_equal; lia.
    + intros k Hk Hp _. assert (k = 0) as -> by lia.
      replace (capacity + 2 * 0) with capacity in * by lia. by rewrite Hp.
  - assert (2 ^ Z.of_nat (S depth) = 2 * 2 ^ Z.of_nat depth) as Hpow.
    { rewrite Nat2Z.inj_succ, Z.pow_succ_r by lia. done. }
    assert (0 < 2 ^ Z.of_nat depth) as Hpos by (apply Z.pow_pos_nonneg; lia).
    rewrite Hpow. set (h := 2 ^ Z.of_nat depth) in *. simpl. split.
    + intros H.
      rewrite (proj1 (IH capacity)) by (intros k Hk; apply H; lia).
      rewrite (proj1 (IH (capacity + 2 * h))).
      * f_equal; lia.
      * intros k Hk. replace (capacity + 2 * h + 2 * k) with (capacity + 2 * (h + k)) by lia.
        apply H. lia.
    + intros k Hk Hp Hlt. destruct (Z.lt_ge_cases k h) as [Hkh|Hkh].
      * by rewrite (proj2 (IH capacity) k) by (done || lia).
      * rewrite (proj1 (IH capacity)) by (intros i Hi; apply Hlt; lia).
        rewrite (proj2 (IH (capacity + 2 * h)) (k - h)).
        -- f_equal; lia.
        -- lia.
        -- by replace (capacity + 2 * h + 2 * (k - h)) with (capacity + 2 * k) by lia.
        -- intros i Hi.
           replace (capacity + 2 * h + 2 * i) with (capacity + 2 * (h + i)) by lia.
           apply Hlt. lia.
Qed.

(** The first index at which a boolean test succeeds, below a bound. *)
Lemma first_true (P : Z -> bool) (n : nat) :
  (forall i, 0 <= i < Z.of_nat n -> P i = false) \/
  (exists k, 0 <= k < Z.of_nat n /\ P k = true /\ forall i, 0 <= i < k -> P i = false).
Proof.
  induction n as [|n [IH|(k & Hk & Hp & Hlt)]].
  - left. lia.
  - destruct (P (Z.of_nat n)) eqn:E.
    + right. exists (Z.of_nat n). split; [lia|]. split; [done|]. intros i Hi. apply IH. lia.
    + left. intros i Hi. destruct (decide (i = Z.of_nat n)) as [->|]; [done|]. apply IH. lia.
  - right. exists k. split; [lia|done].
Qed.

(** Every number from 2 on has a prime divisor. *)
Lemma prime_divisor (n : Z) : 2 <= n -> exists p, Z.prime p /\ (p | n).
Proof.
  intros Hn. induction (Z.lt_wf 0 n) as [n _ IH]. destruct (prime_dec n) as [Hp|Hnp].
  - exists n. split; [by apply prime_alt|apply Z.divide_refl].
  - destruct (not_prime_divide n) as (d & Hd & Hdn); [lia|done|].
    destruct (IH d) as (p & Hp & Hpd); [lia|lia|].
    exists p. split; [done|]. by apply Z.divide_trans with d.
Qed.

Lemma fact_divide (n : nat) (p : Z) :
  1 <= p <= Z.of_nat n -> (p | Z.of_nat (fact n)).
Proof.
  induction n as [|n IH]; intros Hp; [lia|].
  change (fact (S n)) with (S n * fact n)%nat. rewrite Nat2Z.inj_mul.
  destruct (decide (p = Z.of_nat (S n))) as [->|].
  - apply Z.divide_mul_l, Z.divide_refl.
  - apply Z.divide_mul_r, IH. lia.
Qed.

Lemma fact_bound (n : nat) : Z.of_nat (fact n) <= 2 ^ (Z.of_nat n ^ 2).
Proof.
  induction n as [|n IH]; [done|].
  change (fact (S n)) with (S n * fact n)%nat. rewrite Nat2Z.inj_mul.
  replace (Z.of_nat (S n) ^ 2) with (Z.of_nat (S n) + (Z.of_nat n ^ 2 + Z.of_nat n)) by lia.
  rewrite !Z.pow_add_r by lia.
  pose proof (Z.pow_gt_lin_r 2 (Z.of_nat (S n)) ltac:(lia) ltac:(lia)).
  assert (1 <= 2 ^ Z.of_nat n) by (apply (Z.pow_le_mono_r 2 0); lia).
  assert (0 <= Z.of_nat (fact n)) by lia.
  assert (0 < 2 ^ Z.of_nat n ^ 2) by (apply Z.pow_pos_nonneg; lia).
  apply Z.le_trans with (2 ^ Z.of_nat (S n) * 2 ^ Z.of_nat n ^ 2).
  - apply Z.mul_le_mono_nonneg; lia.
  - apply Z.mul_le_mono_nonneg_l; [lia|]. nia.
Qed.

(** Euclid: a prime above any bound, and not too far above. *)
Lemma prime_above (n : nat) :
  exists p, Z.prime p /\ Z.of_nat n < p <= Z.of_nat (fact n) + 1.
Proof.
  pose proof (lt_O_fact n) as Hfact.
  destruct (prime_divisor (Z.of_nat (fact n) + 1)) as (p & Hp & Hd); [lia|].
  exists p. split; [done|].
  pose proof (Z.prime_ge_2 p Hp). split.
  - destruct (Z.lt_ge_cases (Z.of_nat n) p); [done|exfalso].
    assert (p | 1) as H1.
    { replace 1 with (Z.of_nat (fact n) + 1 - Z.of_nat (fact n)) by lia.
      apply Z.divide_sub_r; [done|]. apply fact_divide. lia. }
    apply Z.divide_1_r_nonneg in H1; lia.
  - apply Z.divide_pos_le; [lia|done].
Qed.

(** The whole of [_next_prime], for every integer: the loop returns the
    first candidate accepted by [_is_prime] among the odd numbers from the
    adjusted [capacity] on, and it always finds one. *)
Lemma _next_prime_total (capacity : Z) :
  let c := if capacity mod 2 =? 0 then capacity + 1 else capacity in
  exists k, 0 <= k /\ _next_prime capacity = c + 2 * k /\
    _is_prime (c + 2 * k) = true /\
    forall i, 0 <= i < k -> _is_prime (c + 2 * i) = false.
Proof.
  intros c. unfold _next_prime. fold c.
  assert (c mod 2 = 1) as Hodd.
  { unfold c. destruct (Z.eqb_spec (capacity mod 2) 0) as [H|H].
    - rewrite <- Z.add_mod_idemp_l, H by lia. done.
    - pose proof (Z.mod_pos_bound capacity 2). lia. }
  set (depth := Z.to_nat ((c + 1) ^ 2)).
  assert (0 < 2 ^ Z.of_nat depth) as Hpos by (apply Z.pow_pos_nonneg; lia).
  (* some candidate within the bound is accepted *)
  assert (exists k, 0 <= k < 2 ^ Z.of_nat depth /\ _is_prime (c + 2 * k) = true)
    as (k0 & Hk0 & Hp0).
  { destruct (Z.lt_ge_cases c 0) as [Hneg|Hnonneg].
    - exists 0. split; [lia|]. replace (c + 2 * 0) with c by lia.
      by apply _is_prime_negative_odd.
    - destruct (prime_above (Z.to_nat (c + 1))) as (p & Hp & Hpr).
      pose proof (fact_bound (Z.to_nat (c + 1))) as Hb.
      rewrite Z2Nat.id in Hpr, Hb by lia.
      replace (2 ^ (c + 1) ^ 2) with (2 ^ Z.of_nat depth) in Hb
        by (unfold depth; rewrite Z2Nat.id; [done|nia]).
      pose proof (Z.div_mod c 2).
      assert (p mod 2 = 1) as Hpodd.
      { pose proof (Z.mod_pos_bound p 2).
        destruct (decide (p mod 2 = 0)) as [Hev|]; [|lia].
        apply Z.mod_divide in Hev; [|lia]. destruct Hp as [_ Hp].
        destruct (Hp 2); [lia|done]. }
      pose proof (Z.div_mod p 2).
      exists (p / 2 - c / 2). split; [lia|].
      replace (c + 2 * (p / 2 - c / 2)) with p by lia.
      apply _is_prime_correct; [lia|done]. }
  destruct (first_true (fun k => _is_prime (c + 2 * k)) (Z.to_nat (k0 + 1)))
    as [Hnone|(k & Hk & Hp & Hlt)].
  { rewrite Hnone in Hp0; [done|lia]. }
  exists k. split; [lia|].
  rewrite (proj2 (_next_prime_loop_spec depth c) k); [done|lia|done|done].
Qed.

(** * Open addressing: the probe sequence *)

Section oa_probe.
Import OA.
Context {V : Type}.
Variable hash : string -> Z.
Implicit Types (m : HashMap (V:=V)) (buckets : list (option (HashEntry (V:=V)))).
Implicit Types (key : string) (e : HashEntry (V:=V)).

Lemma probe_step fuel buckets capacity key initial j index :
  probe fuel buckets capacity key initial j index =
  if passes buckets key index then
    match fuel with
    | O => Diverge
    | S fuel' =>
        probe fuel' buckets capacity key initial (j + 1) ((initial + j ^ 2) mod capacity)
    end
  else examine buckets index.
Proof.
  unfold passes, examine.
  destruct fuel; simpl; destruct (da_get buckets index) as [[e|]| |]; simpl; try done;
    destruct (decide (entry_key e = key)) as [Heq|Hne];
    by rewrite ?(bool_decide_eq_false_2 _ (fun H => H Heq)), ?(bool_decide_eq_true_2 _ Hne).
Qed.

Lemma probe_first fuel buckets capacity key initial (q : Z) (n : nat) :
  (n <= fuel)%nat ->
  (forall i, q <= i < q + Z.of_nat n ->
             passes buckets key (visit initial capacity i) = true) ->
  passes buckets key (visit initial capacity (q + Z.of_nat n)) = false ->
  probe fuel buckets capacity key initial (q + 1) (visit initial capacity q) =
  examine buckets (visit initial capacity (q + Z.of_nat n)).
Proof.
  revert q n. induction fuel as [|fuel IH]; intros q n Hn Hpass Hstop;
    rewrite probe_step.
  - assert (n = 0%nat) as -> by lia.
    replace (q + Z.of_nat 0) with q in * by lia. by rewrite Hstop.
  - destruct n as [|n].
    + replace (q + Z.of_nat 0) with q in * by lia. by rewrite Hstop.
    + rewrite Hpass by lia.
      replace (q + Z.of_nat (S n)) with (q + 1 + Z.of_nat n) in * by lia.
      apply (IH (q + 1) n); [lia| |done]. intros i Hi. apply Hpass. lia.
Qed.

Lemma probe_all_pass fuel buckets capacity key initial (q : Z) :
  (forall i, q <= i <= q + Z.of_nat fuel ->
             passes buckets key (visit initial capacity i) = true) ->
  probe fuel buckets capacity key initial (q + 1) (visit initial capacity q) = Diverge.
Proof.
  revert q. induction fuel as [|fuel IH]; intros q Hpass; rewrite probe_step.
  - by rewrite Hpass by lia.
  - rewrite Hpass by lia. apply (IH (q + 1)). intros i Hi. apply Hpass. lia.
Qed.

(** The probe sequence repeats with period [|capacity|]. *)
Lemma visit_mod initial capacity j :
  capacity <> 0 ->
  visit initial capacity j = visit initial capacity (j mod Z.abs capacity).
Proof.
  intros Hc. unfold visit.
  pose proof (Z.div_mod j (Z.abs capacity) ltac:(lia)) as Hj.
  set (r := j mod Z.abs capacity) in *. set (d := j / Z.abs capacity) in *.
  replace (initial + j ^ 2)
    with (initial + r ^ 2 + (Z.sgn capacity * d * (Z.abs capacity * d + 2 * r)) * capacity)
    by (rewrite Hj; nia).
  apply Z.mod_add. done.
Qed.

(** Whatever the fuel from [|capacity|] on, the loop started at [initial]
    either returns at the first slot it does not go past, or it goes past
    every slot of the sequence, forever. *)
Lemma probe_cases fuel buckets capacity key initial :
  capacity <> 0 ->
  visit initial capacity 0 = initial ->
  (Z.abs_nat capacity <= fuel)%nat ->
  (exists n, 0 <= n < Z.abs capacity /\
     (forall i, 0 <= i < n -> passes buckets key (visit initial capacity i) = true) /\
     passes buckets key (visit initial capacity n) = false /\
     probe fuel buckets capacity key initial 1 initial =
     examine buckets (visit initial capacity n)) \/
  ((forall i, 0 <= i -> passes buckets key (visit initial capacity i) = true) /\
   probe fuel buckets capacity key initial 1 initial = Diverge).
Proof.
  intros Hc H0 Hfuel.
  destruct (first_true (fun i => negb (passes buckets key (visit initial capacity i)))
              (Z.abs_nat capacity)) as [Hall|(n & Hn & Hstop & Hpass)].
  - right.
    assert (forall i, 0 <= i -> passes buckets key (visit initial capacity i) = true)
      as Hall'.
    { intros i Hi. rewrite visit_mod by done.
      pose proof (Z.mod_pos_bound i (Z.abs capacity) ltac:(lia)).
      apply negb_false_iff, Hall. lia. }
    split; [done|]. rewrite <- H0 at 2. apply (probe_all_pass _ _ _ _ _ 0).
    intros i Hi. apply Hall'. lia.
  - left. exists n. apply negb_true_iff in Hstop.
    split; [lia|]. split; [intros i Hi; by apply negb_false_iff, Hpass|].
    split; [done|]. rewrite <- H0 at 2.
    replace n with (0 + Z.of_nat (Z.to_nat n)) by lia.
    apply (probe_first _ _ _ _ _ 0); [lia| |].
    + intros i Hi. apply negb_false_iff, Hpass. lia.
    + by replace (0 + Z.of_nat (Z.to_nat n)) with n by lia.
Qed.

(** The fuel given by [get_bucket_index] decides the loop: more fuel
    changes nothing, and [Diverge] stands for a loop that never returns. *)
Lemma probe_fuel fuel buckets capacity key initial :
  capacity <> 0 ->
  visit initial capacity 0 = initial ->
  (Z.abs_nat capacity <= fuel)%nat ->
  probe fuel buckets capacity key initial 1 initial =
  probe (Z.abs_nat capacity) buckets capacity key initial 1 initial.
Proof.
  intros Hc H0 Hfuel.
  destruct (probe_cases fuel buckets capacity key initial Hc H0 Hfuel)
    as [(n & Hn & Hpass & Hstop & ->)|[Hall ->]];
  destruct (probe_cases (Z.abs_nat capacity) buckets capacity key initial Hc H0 ltac:(lia))
    as [(n' & Hn' & Hpass' & Hstop' & ->)|[Hall' ->]]; try done.
  - destruct (Z.lt_trichotomy n n') as [Hlt|[->|Hlt]]; [|done|].
    + rewrite Hpass' in Hstop; [done|lia].
    + rewrite Hpass in Hstop'; [done|lia].
  - rewrite Hall' in Hstop; [done|lia].
  - rewrite Hall in Hstop'; [done|lia].
Qed.
End oa_probe.

(** * Open addressing: representation invariant *)

Section oa_invariant.
Import OA.
Context {V : Type}.
Variable hash : string -> Z.
Implicit Types (m : HashMap (V:=V)) (buckets : list (option (HashEntry (V:=V)))).
Implicit Types (key : string) (e : HashEntry (V:=V)) (slot : option (HashEntry (V:=V))).

Lemma da_get_Ok {A} (arr : list A) (index : Z) (a : A) :
  da_get arr index = Ok a <-> 0 <= index /\ arr !! Z.to_nat index = Some a.
Proof.
  unfold da_get. split.
  - destruct (Z.leb_spec 0 index); simpl; [|done].
    destruct (index <? _); [|done].
    destruct (arr !! Z.to_nat index) eqn:E; [|done]. by intros [= ->].
  - intros [H0 Hl]. pose proof (lookup_lt_Some _ _ _ Hl).
    destruct (Z.leb_spec 0 index); [|lia]. destruct (Z.ltb_spec index (Z.of_nat (length arr))); [|lia].
    simpl. by rewrite Hl.
Qed.

Lemma da_get_in_range {A} (arr : list A) (index : Z) :
  0 <= index < Z.of_nat (length arr) -> exists a, da_get arr index = Ok a.
Proof.
  intros Hi. destruct (lookup_lt_is_Some_2 arr (Z.to_nat index)) as [a Ha]; [lia|].
  exists a. apply da_get_Ok. split; [lia|done].
Qed.

Lemma da_get_set_ne {A} (arr : list A) (i j : Z) (a : A) :
  0 <= i -> i <> j -> da_get (da_set arr i a) j = da_get arr j.
Proof.
  intros Hi Hne. unfold da_get, da_set. rewrite length_insert.
  destruct (Z.leb_spec 0 j); simpl; [|done].
  rewrite list_lookup_insert_ne by lia. done.
Qed.

Lemma da_get_set_eq {A} (arr : list A) (i : Z) (a : A) :
  0 <= i < Z.of_nat (length arr) -> da_get (da_set arr i a) i = Ok a.
Proof.
  intros Hi. apply da_get_Ok. split; [lia|]. unfold da_set.
  apply list_lookup_insert_eq. lia.
Qed.

Lemma visit_range initial capacity j :
  0 < capacity -> 0 <= visit initial capacity j < capacity.
Proof. intros. by apply Z.mod_pos_bound. Qed.

Lemma visit_0 key capacity :
  capacity <> 0 -> visit (hash key mod capacity) capacity 0 = hash key mod capacity.
Proof.
  intros. unfold visit. change (0 ^ 2) with 0. rewrite Z.add_0_r. by apply Z.mod_mod.
Qed.

(** [get_bucket_index] in terms of the probe sequence. *)
Lemma get_bucket_index_cases m key :
  _capacity m <> 0 ->
  let initial := hash key mod _capacity m in
  (exists n, 0 <= n < Z.abs (_capacity m) /\
     (forall i, 0 <= i < n ->
        passes (_buckets m) key (visit initial (_capacity m) i) = true) /\
     passes (_buckets m) key (visit initial (_capacity m) n) = false /\
     get_bucket_index hash m key = examine (_buckets m) (visit initial (_capacity m) n)) \/
  ((forall i, 0 <= i -> passes (_buckets m) key (visit initial (_capacity m) i) = true) /\
   get_bucket_index hash m key = Diverge).
Proof.
  intros Hc initial. unfold get_bucket_index.
  destruct (Z.eqb_spec (_capacity m) 0); [done|].
  apply probe_cases; [done|by apply visit_0|done].
Qed.

Lemma get_bucket_index_first m key (n : Z) :
  _capacity m <> 0 ->
  let initial := hash key mod _capacity m in
  0 <= n ->
  (forall i, 0 <= i < n ->
     passes (_buckets m) key (visit initial (_capacity m) i) = true) ->
  passes (_buckets m) key (visit initial (_capacity m) n) = false ->
  get_bucket_index hash m key = examine (_buckets m) (visit initial (_capacity m) n).
Proof.
  intros Hc initial Hn Hpass Hstop.
  destruct (get_bucket_index_cases m key Hc) as [(n' & Hn' & Hpass' & Hstop' & ->)|[Hall _]].
  - fold initial in Hpass', Hstop' |- *.
    destruct (Z.lt_trichotomy n n') as [Hlt|[->|Hlt]]; [|done|].
    + rewrite Hpass' in Hstop; [done|lia].
    + rewrite Hpass in Hstop'; [done|lia].
  - fold initial in Hall. rewrite Hall in Hstop; [done|lia].
Qed.

(** The loop of [get_keys_and_values] collects the live pairs. *)
Lemma keys_and_values_loop_spec buckets (i n : nat) arr :
  (i + n <= length buckets)%nat ->
  keys_and_values_loop buckets (Z.of_nat i) n arr =
  Ok (arr ++ live_pairs (take n (drop i buckets))).
Proof.
  revert i arr. induction n as [|n IH]; intros i arr Hlen; simpl.
  - by rewrite app_nil_r.
  - destruct (lookup_lt_is_Some_2 buckets i) as [slot Hslot]; [lia|].
    rewrite (proj2 (da_get_Ok buckets (Z.of_nat i) slot))
      by (rewrite Nat2Z.id; split; [lia|done]).
    simpl. replace (Z.of_nat i + 1) with (Z.of_nat (S i)) by lia.
    rewrite IH by lia. rewrite (drop_S _ _ _ Hslot). simpl.
    f_equal. destruct slot as [e|]; simpl; [|done].
    destruct (is_tombstone e); simpl; [done|]. by rewrite <- app_assoc.
Qed.

Lemma get_keys_and_values_spec m :
  length (_buckets m) = Z.to_nat (_capacity m) ->
  get_keys_and_values m = Ok (live_pairs (_buckets m)).
Proof.
  intros Hlen. unfold get_keys_and_values.
  rewrite (keys_and_values_loop_spec _ 0) by (simpl; lia).
  rewrite drop_0, <- Hlen, firstn_all. done.
Qed.

Lemma live_pairs_replicate (n : nat) :
  live_pairs (replicate n (@None (HashEntry (V:=V)))) = [].
Proof. induction n; [done|]. done. Qed.

(** The capacity chosen by [_next_prime] is never zero, and is a prime
    when it is positive. *)
Lemma _next_prime_capacity (capacity : Z) :
  _next_prime capacity <> 0 /\ (0 < _next_prime capacity -> Z.prime (_next_prime capacity)).
Proof.
  destruct (_next_prime_total capacity) as (k & _ & -> & Hp & _).
  split.
  - intros H0. rewrite H0 in Hp. done.
  - intros Hpos. apply _is_prime_correct; [lia|done].
Qed.

Lemma wf_empty (capacity size : Z) buckets :
  capacity <> 0 -> (0 < capacity -> Z.prime capacity) ->
  wf hash (clear {| _buckets := buckets; _capacity := capacity; _size := size |}).
Proof.
  intros Hc Hp. split; simpl; try done.
  - by rewrite length_replicate.
  - intros i e Hi. apply lookup_replicate in Hi as [? _]. done.
  - by rewrite live_pairs_replicate.
Qed.

Lemma wf_init (capacity : Z) : wf hash (__init__ (V:=V) capacity).
Proof.
  destruct (_next_prime_capacity capacity) as [Hc Hp].
  by apply (wf_empty (_next_prime capacity) 0 []).
Qed.

Lemma wf_clear m : wf hash m -> wf hash (clear m).
Proof. intros [? Hc Hp ? ?]. destruct m. by apply wf_empty. Qed.

(** ** Writing an entry at the slot the probe resolved *)

Lemma passes_set_ne buckets (r : Z) slot key (i : Z) :
  0 <= r -> i <> r -> passes (da_set buckets r slot) key i = passes buckets key i.
Proof. intros. unfold passes. by rewrite da_get_set_ne. Qed.

Lemma passes_set_eq buckets (r : Z) e key :
  0 <= r < Z.of_nat (length buckets) ->
  passes (da_set buckets r (Some e)) key r = bool_decide (entry_key e <> key).
Proof. intros. unfold passes. by rewrite da_get_set_eq. Qed.

Lemma get_bucket_index_Ok m key (r : Z) :
  _capacity m <> 0 ->
  get_bucket_index hash m key = Ok r ->
  let initial := hash key mod _capacity m in
  exists n slot, 0 <= n /\ r = visit initial (_capacity m) n /\
    (forall i, 0 <= i < n ->
       passes (_buckets m) key (visit initial (_capacity m) i) = true) /\
    passes (_buckets m) key r = false /\
    0 <= r /\ _buckets m !! Z.to_nat r = Some slot /\
    (slot = None \/ exists e, slot = Some e /\ entry_key e = key).
Proof.
  intros Hc Hget initial.
  destruct (get_bucket_index_cases m key Hc) as [(n & Hn & Hpass & Hstop & Hex)|[_ Hd]];
    [|congruence].
  fold initial in Hpass, Hstop, Hex. rewrite Hget in Hex. unfold examine in Hex.
  destruct (da_get (_buckets m) (visit initial (_capacity m) n)) as [slot| |] eqn:Hslot;
    simpl in Hex; [|done..].
  injection Hex as ->. exists n, slot.
  pose proof Hslot as [Hr Hl]%da_get_Ok.
  repeat split; [lia|done|done|done|done|].
  unfold passes in Hstop. rewrite Hslot in Hstop.
  destruct slot as [e|]; [right|by left]. exists e. split; [done|].
  apply bool_decide_eq_false in Hstop. by destruct (decide (entry_key e = key)).
Qed.

(** Two slots never hold the same key, tombstones included. *)
Lemma wf_key_unique m key (i : nat) (r : Z) e :
  wf hash m -> _buckets m !! i = Some (Some e) -> entry_key e = key ->
  get_bucket_index hash m key = Ok r -> r = Z.of_nat i.
Proof.
  intros Hwf Hi <- Hget. rewrite (wf_probe hash m Hwf i e Hi) in Hget. congruence.
Qed.

Lemma write_probe m key (r : Z) e' (size' : Z) :
  wf hash m -> get_bucket_index hash m key = Ok r -> entry_key e' = key ->
  let m' := {| _buckets := da_set (_buckets m) r (Some e');
               _capacity := _capacity m; _size := size' |} in
  forall i e, _buckets m' !! i = Some (Some e) ->
    get_bucket_index hash m' (entry_key e) = Ok (Z.of_nat i).
Proof.
  intros Hwf Hget He' m' i e Hi.
  pose proof (wf_capacity hash m Hwf) as Hc.
  destruct (get_bucket_index_Ok m key r Hc Hget)
    as (n & slot & Hn & Hrn & Hpass & Hstop & Hr & Hslot & Hkind).
  pose proof (lookup_lt_Some _ _ _ Hslot) as Hrlen.
  simpl in Hi. unfold da_set in Hi.
  destruct (decide (i = Z.to_nat r)) as [->|Hne].
  - (* the slot written: the probe for [key] ends there as before *)
    rewrite list_lookup_insert_eq in Hi by done. injection Hi as <-.
    rewrite He', Z2Nat.id by done.
    rewrite (get_bucket_index_first m' key n); simpl; [|done|done|..].
    + rewrite <- Hrn. unfold examine. rewrite da_get_set_eq by lia. done.
    + intros j Hj. rewrite passes_set_ne; [by apply Hpass|done|].
      intros Hjr. specialize (Hpass j Hj). rewrite Hjr in Hpass. congruence.
    + rewrite <- Hrn, passes_set_eq by lia.
      apply bool_decide_eq_false. by intros [].
  - (* another slot: its probe path may cross the slot written, which is
       occupied by another key before and after *)
    rewrite list_lookup_insert_ne in Hi by done.
    pose proof (wf_probe hash m Hwf i e Hi) as Hget0.
    assert (entry_key e <> key) as Hkey.
    { intros Heq. pose proof (wf_key_unique m key i r e Hwf Hi Heq Hget). lia. }
    destruct (get_bucket_index_Ok m _ _ Hc Hget0)
      as (n0 & slot0 & Hn0 & Hrn0 & Hpass0 & Hstop0 & Hr0 & Hslot0 & _).
    rewrite (get_bucket_index_first m' (entry_key e) n0); simpl; [|done|done|..].
    + rewrite <- Hrn0. unfold examine. rewrite da_get_set_ne by lia.
      rewrite (proj2 (da_get_Ok _ _ slot0)) by done. done.
    + intros j Hj.
      destruct (decide (visit (hash (entry_key e) mod _capacity m) (_capacity m) j = r))
        as [->|Hjr].
      * rewrite passes_set_eq by lia. apply bool_decide_eq_true. congruence.
      * rewrite passes_set_ne by done. by apply Hpass0.
    + rewrite <- Hrn0, passes_set_ne by lia. done.
Qed.

Lemma live_pairs_insert buckets (i : nat) slot slot' :
  buckets !! i = Some slot ->
  live_pairs buckets =
    live_pairs (take i buckets) ++ option_list (live slot)
      ++ live_pairs (drop (S i) buckets) /\
  live_pairs (<[i:=slot']> buckets) =
    live_pairs (take i buckets) ++ option_list (live slot')
      ++ live_pairs (drop (S i) buckets).
Proof.
  intros Hi. pose proof (lookup_lt_Some _ _ _ Hi) as Hlen.
  assert (forall slot0 buckets0,
            live_pairs (slot0 :: buckets0) = option_list (live slot0) ++ live_pairs buckets0)
    as Hcons.
  { intros s l. unfold live_pairs. simpl. by destruct (live s). }
  split.
  - rewrite <- (take_drop_middle buckets i slot Hi) at 1.
    unfold live_pairs at 1. rewrite omap_app. fold (live_pairs (take i buckets)).
    f_equal. apply Hcons.
  - rewrite insert_take_drop by done.
    unfold live_pairs at 1. rewrite omap_app. fold (live_pairs (take i buckets)).
    f_equal. apply Hcons.
Qed.

Lemma elem_of_live_pairs buckets (p : string * V) :
  p ∈ live_pairs buckets <->
  exists i e, buckets !! i = Some (Some e) /\ is_tombstone e = false /\
              p = (entry_key e, entry_value e).
Proof.
  unfold live_pairs. rewrite list_elem_of_omap. split.
  - intros ([e|] & Hin & Hlive); [|done]. apply list_elem_of_lookup in Hin as [i Hi].
    simpl in Hlive. exists i, e. destruct (is_tombstone e); [done|].
    split; [done|]. split; [done|]. congruence.
  - intros (i & e & Hi & Ht & ->). exists (Some e).
    split; [by eapply list_elem_of_lookup_2|]. simpl. by rewrite Ht.
Qed.

(** The live pairs away from the resolved slot are pairs of other keys. *)
Lemma live_pairs_other_keys m key (r : Z) (p : string * V) :
  wf hash m -> get_bucket_index hash m key = Ok r -> 0 <= r ->
  p ∈ live_pairs (take (Z.to_nat r) (_buckets m))
      ++ live_pairs (drop (S (Z.to_nat r)) (_buckets m)) ->
  p.1 <> key.
Proof.
  intros Hwf Hget Hr Hin Hkey.
  assert (exists i e, _buckets m !! i = Some (Some e) /\ i <> Z.to_nat r /\
                      entry_key e = key) as (i & e & Hi & Hne & He).
  { apply elem_of_app in Hin as [Hin|Hin];
      apply elem_of_live_pairs in Hin as (i & e & Hi & _ & ->).
    - apply lookup_take_Some in Hi as [Hi Hlt]. exists i, e. split; [done|]. split; [lia|done].
    - rewrite lookup_drop in Hi. exists (S (Z.to_nat r) + i)%nat, e.
      split; [done|]. split; [lia|done]. }
  pose proof (wf_key_unique m key i r e Hwf Hi He Hget). lia.
Qed.

Lemma filter_all {A} (P : A -> Prop) `{forall x, Decision (P x)} (l : list A) :
  (forall x, x ∈ l -> P x) -> filter P l = l.
Proof.
  induction l as [|x l IH]; intros Hall; [done|].
  rewrite filter_cons_True by (apply Hall; left).
  f_equal. apply IH. intros y Hy. apply Hall. by right.
Qed.

(** The effect on the live pairs of overwriting the resolved slot with an
    entry for the same key. *)
Lemma write_live m key (r : Z) e' :
  wf hash m -> get_bucket_index hash m key = Ok r -> entry_key e' = key ->
  live_pairs (da_set (_buckets m) r (Some e')) ≡ₚ
  option_list (live (Some e')) ++ filter (fun p => p.1 <> key) (live_pairs (_buckets m)).
Proof.
  intros Hwf Hget He'.
  destruct (get_bucket_index_Ok m key r (wf_capacity hash m Hwf) Hget)
    as (n & slot & _ & _ & _ & _ & Hr & Hslot & Hkind).
  destruct (live_pairs_insert (_buckets m) (Z.to_nat r) slot (Some e') Hslot) as [-> Hnew].
  unfold da_set. rewrite Hnew. clear Hnew.
  rewrite !filter_app.
  rewrite (filter_all _ (live_pairs (take _ _))), (filter_all _ (live_pairs (drop _ _))).
  2: { intros p Hp. apply (live_pairs_other_keys m key r p Hwf Hget Hr).
       apply elem_of_app. by right. }
  2: { intros p Hp. apply (live_pairs_other_keys m key r p Hwf Hget Hr).
       apply elem_of_app. by left. }
  assert (filter (fun p : string * V => p.1 <> key) (option_list (live slot)) = []) as ->.
  { destruct Hkind as [->|(e & -> & He)]; [done|]. simpl.
    destruct (is_tombstone e); [done|]. simpl. by rewrite filter_cons_False by (simpl; tauto). }
  simpl. apply Permutation_app_swap_app.
Qed.

Lemma wf_NoDup m : wf hash m -> NoDup (live_pairs (_buckets m)).*1.
Proof.
  intros Hwf.
  assert (forall i j e1 e2, _buckets m !! i = Some (Some e1) ->
            _buckets m !! j = Some (Some e2) -> entry_key e1 = entry_key e2 -> i = j)
    as Huniq.
  { intros i j e1 e2 Hi Hj Heq.
    pose proof (wf_key_unique m _ j _ e2 Hwf Hj eq_refl (wf_probe hash m Hwf j e2 Hj)).
    pose proof (wf_key_unique m _ i _ e1 Hwf Hi Heq (wf_probe hash m Hwf j e2 Hj)). lia. }
  clear Hwf. induction (_buckets m) as [|slot l IH]; [constructor|].
  assert (NoDup (live_pairs l).*1) as Hl.
  { apply IH. intros i j e1 e2 Hi Hj Heq. by pose proof (Huniq (S i) (S j) e1 e2 Hi Hj Heq) as [= ->]. }
  unfold live_pairs. simpl. destruct (live slot) as [p|] eqn:Hlive; [|done].
  simpl. apply NoDup_cons. split; [|done].
  intros (q & Hq1 & Hq2)%list_elem_of_fmap.
  apply elem_of_live_pairs in Hq2 as (j & e2 & Hj & _ & ->).
  destruct slot as [e1|]; [|done]. simpl in Hlive.
  destruct (is_tombstone e1); [done|]. injection Hlive as <-.
  by pose proof (Huniq 0%nat (S j) e1 e2 eq_refl Hj Hq1).
Qed.

(** ** The methods on a well-formed map *)

Lemma put_with_unfold resize m key value :
  put_with hash resize m key value =
  (load ← table_load m;
   m ← (if Qle_bool (1 # 2) load then resize m (_capacity m * 2) else Ok m);
   put_at hash m key value).
Proof. done. Qed.

Lemma no_tombstone_set buckets (i : nat) e :
  no_tombstone buckets -> is_tombstone e = false ->
  no_tombstone (<[i:=Some e]> buckets).
Proof.
  intros Hnt He j e' Hj. destruct (decide (i = j)) as [->|Hne].
  - pose proof (lookup_lt_Some _ _ _ Hj) as Hlt. rewrite length_insert in Hlt.
    rewrite list_lookup_insert_eq in Hj by done. congruence.
  - rewrite list_lookup_insert_ne in Hj by done. by eapply Hnt.
Qed.

(** What a returning [put_at] has done. *)
Lemma put_at_spec m key value m' :
  wf hash m -> put_at hash m key value = Ok m' ->
  wf hash m' /\ _capacity m' = _capacity m /\
  live_pairs (_buckets m') ≡ₚ
    (key, value) :: filter (fun p => p.1 <> key) (live_pairs (_buckets m)) /\
  (no_tombstone (_buckets m) -> no_tombstone (_buckets m')).
Proof.
  intros Hwf Hput. unfold put_at in Hput.
  destruct (get_bucket_index hash m key) as [r| |] eqn:Hget; simpl in Hput; [|done..].
  destruct (get_bucket_index_Ok m key r (wf_capacity hash m Hwf) Hget)
    as (n & slot & _ & _ & _ & _ & Hr & Hslot & Hkind).
  rewrite (proj2 (da_get_Ok _ _ slot)) in Hput by done. simpl in Hput.
  destruct (live_pairs_insert (_buckets m) (Z.to_nat r) slot
              (Some (mkHashEntry key value false)) Hslot) as [Hold Hnew].
  pose proof (write_live m key r (mkHashEntry key value false) Hwf Hget eq_refl) as Hperm.
  assert (exists sz,
            m' = {| _buckets := da_set (_buckets m) r (Some (mkHashEntry key value false));
                    _capacity := _capacity m;
                    _size := sz |} /\
            sz = Z.of_nat (length (live_pairs
                   (da_set (_buckets m) r (Some (mkHashEntry key value false))))))
    as (sz & -> & Hsize).
  { pose proof (wf_size hash m Hwf) as Hsz. rewrite Hold, !length_app in Hsz.
    unfold da_set. rewrite Hnew, !length_app.
    destruct Hkind as [->|(e & -> & <-)].
    - injection Hput as <-. eexists. split; [done|]. simpl in *. lia.
    - destruct (is_tombstone e) eqn:Ht; simpl in Hput; injection Hput as <-;
        (eexists; split; [done|]); simpl in *; rewrite Ht in Hsz; simpl in Hsz; lia. }
  simpl. split; [|split; [done|split; [done|]]].
  - destruct Hwf as [Hlen Hc Hp Hpr Hsz]. split; simpl; try done.
    + unfold da_set. by rewrite length_insert.
    + by apply (write_probe m key r (mkHashEntry key value false)).
  - intros Hnt. by apply no_tombstone_set.
Qed.

Lemma remove_spec m key m' :
  wf hash m -> remove hash m key = Ok m' ->
  wf hash m' /\ _capacity m' = _capacity m /\
  live_pairs (_buckets m') ≡ₚ filter (fun p => p.1 <> key) (live_pairs (_buckets m)) /\
  (key ∈ (live_pairs (_buckets m)).*1 -> _size m' = _size m - 1) /\
  (key ∉ (live_pairs (_buckets m)).*1 -> m' = m).
Proof.
  intros Hwf Hrem. unfold remove in Hrem.
  destruct (get_bucket_index hash m key) as [r| |] eqn:Hget; simpl in Hrem; [|done..].
  destruct (get_bucket_index_Ok m key r (wf_capacity hash m Hwf) Hget)
    as (n & slot & _ & _ & _ & _ & Hr & Hslot & Hkind).
  rewrite (proj2 (da_get_Ok _ _ slot)) in Hrem by done. simpl in Hrem.
  assert (live slot = None -> m' = m ->
          wf hash m' /\ _capacity m' = _capacity m /\
          live_pairs (_buckets m') ≡ₚ
            filter (fun p => p.1 <> key) (live_pairs (_buckets m)) /\
          (key ∈ (live_pairs (_buckets m)).*1 -> _size m' = _size m - 1) /\
          (key ∉ (live_pairs (_buckets m)).*1 -> m' = m)) as Hsame.
  { intros Hdead ->. split; [done|]. split; [done|].
    assert (forall p, p ∈ live_pairs (_buckets m) -> p.1 <> key) as Hother.
    { destruct (live_pairs_insert (_buckets m) (Z.to_nat r) slot slot Hslot) as [-> _].
      rewrite Hdead. simpl. intros p Hp.
      by apply (live_pairs_other_keys m key r p). }
    split; [by rewrite filter_all|]. split; [|done].
    intros (p & Hkey & Hp)%list_elem_of_fmap. by destruct (Hother p Hp). }
  destruct Hkind as [->|(e & -> & <-)]; [by apply Hsame; [|congruence]|].
  destruct (is_tombstone e) eqn:Ht; simpl in Hrem;
    [apply Hsame; [simpl; by rewrite Ht|congruence]|].
  injection Hrem as <-. simpl.
  pose proof (write_live m (entry_key e) r (mkHashEntry (entry_key e) (entry_value e) true)
                Hwf Hget eq_refl) as Hperm.
  destruct (live_pairs_insert (_buckets m) (Z.to_nat r) (Some e)
              (Some (mkHashEntry (entry_key e) (entry_value e) true)) Hslot) as [Hold Hnew].
  assert ((entry_key e, entry_value e) ∈ live_pairs (_buckets m)) as Hin.
  { apply elem_of_live_pairs. by exists (Z.to_nat r), e. }
  split; [|split; [done|split; [done|split; [done|]]]].
  - destruct Hwf as [Hlen Hc Hp Hpr Hsz]. split; simpl; try done.
    + unfold da_set. by rewrite length_insert.
    + by apply (write_probe m (entry_key e) r
                  (mkHashEntry (entry_key e) (entry_value e) true)).
    + unfold da_set. rewrite Hnew, Hsz, Hold, !length_app. simpl. rewrite Ht. simpl. lia.
  - intros Hnotin. destruct Hnotin. apply list_elem_of_fmap.
    by exists (entry_key e, entry_value e).
Qed.

(** [get] finds exactly the live pairs. *)
Lemma get_spec m key (v : V) :
  wf hash m -> (key, v) ∈ live_pairs (_buckets m) -> get hash m key = Ok (Some v).
Proof.
  intros Hwf (i & e & Hi & Ht & [= -> ->])%elem_of_live_pairs.
  unfold get. rewrite (wf_probe hash m Hwf i e Hi). simpl.
  rewrite (proj2 (da_get_Ok _ _ (Some e))) by (rewrite Nat2Z.id; split; [lia|done]).
  simpl. by rewrite Ht.
Qed.

Lemma get_Some_inv m key (v : V) :
  wf hash m -> get hash m key = Ok (Some v) -> (key, v) ∈ live_pairs (_buckets m).
Proof.
  intros Hwf Hget. unfold get in Hget.
  destruct (get_bucket_index hash m key) as [r| |] eqn:Hidx; simpl in Hget; [|done..].
  destruct (get_bucket_index_Ok m key r (wf_capacity hash m Hwf) Hidx)
    as (n & slot & _ & _ & _ & _ & Hr & Hslot & Hkind).
  rewrite (proj2 (da_get_Ok _ _ slot)) in Hget by done. simpl in Hget.
  destruct Hkind as [->|(e & -> & <-)]; [done|].
  destruct (is_tombstone e) eqn:Ht; simpl in Hget; [done|]. injection Hget as <-.
  apply elem_of_live_pairs. by exists (Z.to_nat r), e.
Qed.

Lemma contains_key_tombstone m (i : nat) e :
  wf hash m -> _buckets m !! i = Some (Some e) -> is_tombstone e = true ->
  contains_key hash m (entry_key e) = Ok false.
Proof.
  intros Hwf Hi Ht. unfold contains_key. destruct (_size m =? 0); [done|].
  rewrite (wf_probe hash m Hwf i e Hi). simpl.
  rewrite (proj2 (da_get_Ok _ _ (Some e))) by (rewrite Nat2Z.id; split; [lia|done]).
  simpl. by rewrite Ht.
Qed.

(** ** Termination of the probe on a sparse table without tombstones *)

(** Distinct slots that all hold an entry are at most as many as the
    entries. *)
Lemma pigeonhole buckets (slots : list nat) :
  no_tombstone buckets -> NoDup slots ->
  (forall i, i ∈ slots -> exists e, buckets !! i = Some (Some e)) ->
  (length slots <= length (live_pairs buckets))%nat.
Proof.
  revert buckets. induction slots as [|i slots IH]; intros buckets Hnt Hnd Hocc.
  { simpl. lia. }
  apply NoDup_cons in Hnd as [Hi Hnd].
  destruct (Hocc i) as [e He]; [by left|].
  destruct (live_pairs_insert buckets i (Some e) None He) as [Hold Hnew].
  assert (length slots <= length (live_pairs (<[i:=None]> buckets)))%nat as Hle.
  { apply IH; [|done|].
    - intros j e' Hj. destruct (decide (i = j)) as [->|Hne].
      + pose proof (lookup_lt_Some _ _ _ Hj) as Hlt. rewrite length_insert in Hlt.
        by rewrite list_lookup_insert_eq in Hj.
      + rewrite list_lookup_insert_ne in Hj by done. by eapply Hnt.
    - intros j Hj. rewrite list_lookup_insert_ne by (intros ->; done).
      apply Hocc. by right. }
  rewrite Hnew in Hle. rewrite Hold. rewrite !length_app in *. simpl in *.
  rewrite (Hnt i e He). simpl. lia.
Qed.

(** The first [(p + 1) / 2] indices of the probe sequence are distinct
    when the capacity [p] is prime. *)
Lemma visit_inj initial (p i j : Z) :
  Z.prime p -> 0 <= i < j -> 2 * j < p + 1 ->
  visit initial p i <> visit initial p j.
Proof.
  intros Hp Hij Hj Heq. unfold visit in Heq.
  pose proof (Z.prime_ge_2 p Hp) as Hp2.
  assert (p | (j - i) * (j + i)) as Hdiv.
  { exists ((initial + j ^ 2) / p - (initial + i ^ 2) / p).
    pose proof (Z.div_mod (initial + j ^ 2) p ltac:(lia)).
    pose proof (Z.div_mod (initial + i ^ 2) p ltac:(lia)). nia. }
  apply Z.divide_prime_mul in Hdiv as [Hd|Hd]; [| |done];
    apply Z.divide_pos_le in Hd; lia.
Qed.

Lemma get_bucket_index_total m key :
  wf hash m -> no_tombstone (_buckets m) -> 0 < _capacity m ->
  2 * _size m < _capacity m ->
  exists r, get_bucket_index hash m key = Ok r.
Proof.
  intros Hwf Hnt Hpos Hload.
  pose proof (wf_length hash m Hwf) as Hlen.
  destruct (get_bucket_index_cases m key (wf_capacity hash m Hwf))
    as [(n & Hn & _ & _ & ->)|[Hall _]].
  - unfold examine.
    destruct (da_get_in_range (_buckets m)
                (visit (hash key mod _capacity m) (_capacity m) n)) as [slot ->].
    + pose proof (visit_range (hash key mod _capacity m) (_capacity m) n Hpos). lia.
    + by eexists.
  - exfalso.
    set (initial := hash key mod _capacity m) in *.
    set (c := (_capacity m + 1) / 2).
    pose proof (Z.div_mod (_capacity m + 1) 2 ltac:(lia)) as Hc.
    pose proof (Z.mod_pos_bound (_capacity m + 1) 2 ltac:(lia)) as Hc'. fold c in Hc.
    set (slots := (fun j => Z.to_nat (visit initial (_capacity m) j)) <$> seqZ 0 c).
    assert (length slots <= length (live_pairs (_buckets m)))%nat as Hle.
    { apply pigeonhole; [done| |].
      - apply NoDup_fmap_2_strong; [|apply NoDup_seqZ].
        intros x y Hx%elem_of_seqZ Hy%elem_of_seqZ Hxy.
        pose proof (visit_range initial (_capacity m) x Hpos).
        pose proof (visit_range initial (_capacity m) y Hpos).
        assert (visit initial (_capacity m) x = visit initial (_capacity m) y) as Hv by lia.
        destruct (Z.lt_trichotomy x y) as [Hlt|[->|Hlt]]; [|done|].
        + destruct (visit_inj initial (_capacity m) x y); [by apply (wf_prime hash m)|lia|lia|done].
        + destruct (visit_inj initial (_capacity m) y x); [by apply (wf_prime hash m)|lia|lia|done].
      - intros i (j & -> & Hj%elem_of_seqZ)%list_elem_of_fmap.
        specialize (Hall j ltac:(lia)). unfold passes in Hall.
        destruct (da_get (_buckets m) (visit initial (_capacity m) j))
          as [[e|]| |] eqn:Hget; try done.
        apply da_get_Ok in Hget as [_ Hget]. by exists e. }
    unfold slots in Hle. rewrite length_fmap, length_seqZ in Hle.
    pose proof (wf_size hash m Hwf). lia.
Qed.

Lemma put_at_total m key value :
  wf hash m -> no_tombstone (_buckets m) -> 0 < _capacity m ->
  2 * _size m < _capacity m ->
  exists m', put_at hash m key value = Ok m'.
Proof.
  intros Hwf Hnt Hpos Hload.
  destruct (get_bucket_index_total m key Hwf Hnt Hpos Hload) as [r Hget].
  destruct (get_bucket_index_Ok m key r (wf_capacity hash m Hwf) Hget)
    as (n & slot & _ & _ & _ & _ & Hr & Hslot & _).
  unfold put_at. rewrite Hget. simpl.
  rewrite (proj2 (da_get_Ok _ _ slot)) by done. simpl.
  destruct slot as [e|]; [destruct (negb (is_tombstone e))|]; by eexists.
Qed.

(** ** The load check of [put] *)

Lemma table_load_check m :
  wf hash m ->
  exists load, table_load m = Ok load /\
    Qle_bool (1 # 2) load = (0 <? _capacity m) && (_capacity m <=? 2 * _size m).
Proof.
  intros Hwf. unfold table_load.
  destruct (Z.eqb_spec (_capacity m) 0) as [Hc|Hc]; [by destruct (wf_capacity hash m Hwf)|].
  eexists. split; [done|].
  pose proof (wf_size hash m Hwf) as Hsz.
  assert (0 <= _size m) as Hnn by lia. clear Hsz.
  destruct (_capacity m) as [|c|c]; [done|..]; unfold Qle_bool, Qdiv, Qmult, Qinv; simpl.
  - match goal with
    | |- (?a <=? ?b) = (?c <=? ?d) =>
        destruct (Z.leb_spec a b), (Z.leb_spec c d); done || lia
    end.
  - apply Z.leb_gt. lia.
Qed.

Lemma put_with_sparse resize m key value :
  wf hash m -> 0 < _capacity m -> 2 * _size m < _capacity m ->
  put_with hash resize m key value = put_at hash m key value.
Proof.
  intros Hwf Hpos Hload. rewrite put_with_unfold.
  destruct (table_load_check m Hwf) as (load & -> & Hle). simpl. rewrite Hle.
  destruct (Z.ltb_spec 0 (_capacity m)); [|lia].
  destruct (Z.leb_spec (_capacity m) (2 * _size m)); [lia|]. done.
Qed.

Lemma put_with_negative resize m key value :
  wf hash m -> _capacity m < 0 -> put_with hash resize m key value = Raise.
Proof.
  intros Hwf Hneg. rewrite put_with_unfold.
  destruct (table_load_check m Hwf) as (load & -> & Hle). simpl. rewrite Hle.
  destruct (Z.ltb_spec 0 (_capacity m)); [lia|]. simpl.
  unfold put_at, get_bucket_index.
  destruct (Z.eqb_spec (_capacity m) 0); [lia|].
  pose proof (wf_length hash m Hwf) as Hlen.
  destruct (_buckets m); [|simpl in Hlen; lia].
  rewrite probe_step. unfold passes, examine.
  assert (forall i : Z, da_get (@nil (option (HashEntry (V:=V)))) i = Raise) as ->; [|done].
  intros i. unfold da_get. rewrite lookup_nil. by case_match.
Qed.

(** [put] is its resize check followed by [put_at] on a sparse table. *)
Lemma put_with_cases resize m key value :
  resize_ok hash resize -> wf hash m -> 0 < _capacity m ->
  exists m1, put_with hash resize m key value = put_at hash m1 key value /\
    wf hash m1 /\ 2 * _size m1 < _capacity m1 /\ _capacity m <= _capacity m1 /\
    live_pairs (_buckets m1) ≡ₚ live_pairs (_buckets m) /\
    (no_tombstone (_buckets m) -> no_tombstone (_buckets m1)).
Proof.
  intros Hok Hwf Hpos.
  destruct (Z.le_gt_cases (_capacity m) (2 * _size m)) as [Hfull|Hsparse].
  - destruct (Hok m Hwf Hpos Hfull) as (m1 & Hres & Hwf1 & Hnt1 & Hperm & Hcap & Hload).
    exists m1. rewrite put_with_unfold.
    destruct (table_load_check m Hwf) as (load & -> & Hle). simpl. rewrite Hle.
    destruct (Z.ltb_spec 0 (_capacity m)); [|lia].
    destruct (Z.leb_spec (_capacity m) (2 * _size m)); [|lia]. simpl.
    rewrite Hres. simpl. split_and!; (done || lia).
  - exists m. rewrite put_with_sparse by (done || lia). split_and!; (done || lia).
Qed.

Lemma put_size m1 m' key value :
  wf hash m1 -> wf hash m' ->
  live_pairs (_buckets m') ≡ₚ
    (key, value) :: filter (fun p => p.1 <> key) (live_pairs (_buckets m1)) ->
  _size m' <= _size m1 + 1 /\
  (key ∈ (live_pairs (_buckets m1)).*1 -> _size m' <= _size m1) /\
  (key ∉ (live_pairs (_buckets m1)).*1 ->
     _size m' = _size m1 + 1 /\
     live_pairs (_buckets m') ≡ₚ (key, value) :: live_pairs (_buckets m1)).
Proof.
  intros Hwf1 Hwf' Hperm.
  pose proof (wf_size hash m1 Hwf1) as Hs1. pose proof (wf_size hash m' Hwf') as Hs'.
  rewrite Hperm in Hs'. simpl in Hs'.
  pose proof (length_filter (fun p : string * V => p.1 <> key) (live_pairs (_buckets m1))).
  split; [lia|]. split.
  - intros (p & Hkey & Hp)%list_elem_of_fmap.
    pose proof (length_filter_lt (fun p : string * V => p.1 <> key) _ p Hp) as Hlt.
    specialize (Hlt (fun H => H (eq_sym Hkey))). lia.
  - intros Hnotin.
    rewrite filter_all in Hperm, Hs'; [split; [lia|done]|..];
      intros p Hp Hkey; apply Hnotin, list_elem_of_fmap; by exists p.
Qed.

Lemma put_with_spec resize m key value m' :
  resize_ok hash resize -> wf hash m -> put_with hash resize m key value = Ok m' ->
  wf hash m' /\ 0 < _capacity m' /\ _capacity m <= _capacity m' /\
  live_pairs (_buckets m') ≡ₚ
    (key, value) :: filter (fun p => p.1 <> key) (live_pairs (_buckets m)) /\
  2 * (_size m' - 1) < _capacity m' /\
  (key ∈ (live_pairs (_buckets m)).*1 -> 2 * _size m' < _capacity m') /\
  (no_tombstone (_buckets m) -> no_tombstone (_buckets m')).
Proof.
  intros Hok Hwf Hput.
  destruct (Z.lt_trichotomy (_capacity m) 0) as [Hneg|[H0|Hpos]].
  { by rewrite put_with_negative in Hput. }
  { by destruct (wf_capacity hash m Hwf). }
  destruct (put_with_cases resize m key value Hok Hwf Hpos)
    as (m1 & Heq & Hwf1 & Hload & Hcap & Hperm1 & Hnt1).
  rewrite Heq in Hput.
  destruct (put_at_spec m1 key value m' Hwf1 Hput) as (Hwf' & Hcap' & Hperm & Hnt).
  destruct (put_size m1 m' key value Hwf1 Hwf' Hperm) as (Hsz & Hupd & _).
  rewrite Hperm1 in Hperm, Hupd.
  split_and!; try (done || lia); [|tauto]. intros Hin. specialize (Hupd Hin). lia.
Qed.

Lemma put_with_total resize m key value :
  resize_ok hash resize -> wf hash m -> no_tombstone (_buckets m) -> 0 < _capacity m ->
  exists m', put_with hash resize m key value = Ok m'.
Proof.
  intros Hok Hwf Hnt Hpos.
  destruct (put_with_cases resize m key value Hok Hwf Hpos)
    as (m1 & -> & Hwf1 & Hload & Hcap & _ & Hnt1).
  apply put_at_total; [done|tauto|lia|done].
Qed.

(** ** Reinsertion, the loop of [resize_table] *)

Lemma resize_table_rec_unfold (depth : nat) m (new_capacity : Z) :
  resize_table_rec hash (S depth) m new_capacity =
  if new_capacity <? _size m then Ok m
  else
    key_val_arr ← get_keys_and_values m;
    reinsert hash (resize_table_rec hash depth)
      (clear {| _buckets := _buckets m;
                _capacity := if negb (_is_prime new_capacity)
                             then _next_prime new_capacity else new_capacity;
                _size := _size m |})
      key_val_arr.
Proof. done. Qed.

(** Reinsertion into a table that stays less than half full: the load
    check of [put] never fires, whatever [resize_table] would do. *)
Lemma reinsert_sparse m (kvs : list (string * V)) :
  wf hash m -> no_tombstone (_buckets m) -> 0 < _capacity m ->
  NoDup kvs.*1 -> (forall k, k ∈ kvs.*1 -> k ∉ (live_pairs (_buckets m)).*1) ->
  2 * (_size m + Z.of_nat (length kvs)) < _capacity m + 2 ->
  exists m', (forall resize, reinsert hash resize m kvs = Ok m') /\
    wf hash m' /\ no_tombstone (_buckets m') /\ _capacity m' = _capacity m /\
    live_pairs (_buckets m') ≡ₚ live_pairs (_buckets m) ++ kvs.
Proof.
  revert m. induction kvs as [|[k v] kvs IH]; intros m Hwf Hnt Hpos Hnd Hfresh Hload.
  { exists m. by rewrite app_nil_r. }
  simpl in Hnd, Hload. apply NoDup_cons in Hnd as [Hk Hnd].
  destruct (put_at_total m k v) as [m1 Hput]; [done|done|done|lia|].
  destruct (put_at_spec m k v m1 Hwf Hput) as (Hwf1 & Hcap1 & Hperm1 & Hnt1).
  destruct (put_size m m1 k v Hwf Hwf1 Hperm1) as (_ & _ & Hnew).
  destruct Hnew as [Hsz1 Hperm1']; [apply Hfresh; by left|].
  destruct (IH m1) as (m' & Hre & Hwf' & Hnt' & Hcap' & Hperm'); try done; try lia.
  { by apply Hnt1. }
  { intros k' Hk'. rewrite Hperm1'. simpl. apply not_elem_of_cons. split.
    - intros ->. done.
    - apply Hfresh. by right. }
  exists m'. split.
  { intros resize. unfold reinsert. simpl.
    rewrite put_with_sparse by (done || lia). rewrite Hput. simpl. apply Hre. }
  split; [done|]. split; [done|]. split; [lia|].
  rewrite Hperm', Hperm1'. simpl. by rewrite <- Permutation_middle.
Qed.

(** Reinsertion in general: the load check may fire and double the
    capacity on the way. *)
Lemma reinsert_spec resize m (kvs : list (string * V)) :
  resize_ok hash resize ->
  wf hash m -> no_tombstone (_buckets m) -> 0 < _capacity m ->
  NoDup kvs.*1 -> (forall k, k ∈ kvs.*1 -> k ∉ (live_pairs (_buckets m)).*1) ->
  exists m', reinsert hash resize m kvs = Ok m' /\
    wf hash m' /\ no_tombstone (_buckets m') /\ _capacity m <= _capacity m' /\
    live_pairs (_buckets m') ≡ₚ live_pairs (_buckets m) ++ kvs.
Proof.
  intros Hok. revert m.
  induction kvs as [|[k v] kvs IH]; intros m Hwf Hnt Hpos Hnd Hfresh.
  { exists m. rewrite app_nil_r. split_and!; (done || lia). }
  simpl in Hnd. apply NoDup_cons in Hnd as [Hk Hnd].
  unfold reinsert. simpl.
  destruct (put_with_total resize m k v) as [m1 Hput]; [done..|].
  rewrite Hput. simpl.
  destruct (put_with_spec resize m k v m1 Hok Hwf Hput)
    as (Hwf1 & Hpos1 & Hcap1 & Hperm1 & _ & _ & Hnt1).
  rewrite filter_all in Hperm1.
  2: { intros p Hp Hkey. apply (Hfresh k); [by left|]. apply list_elem_of_fmap. by exists p. }
  destruct (IH m1) as (m' & Hre & Hwf' & Hnt' & Hcap' & Hperm'); try done.
  { by apply Hnt1. }
  { intros k' Hk'. rewrite Hperm1. simpl. apply not_elem_of_cons. split.
    - intros ->. done.
    - apply Hfresh. by right. }
  exists m'. split; [done|]. split; [done|]. split; [done|]. split; [lia|].
  rewrite Hperm', Hperm1. simpl. by rewrite <- Permutation_middle.
Qed.

(** ** [resize_table] *)

Lemma normalize_spec (n : Z) : 0 <= n -> Z.prime (normalize n) /\ n <= normalize n.
Proof.
  intros Hn. unfold normalize. destruct (_is_prime n) eqn:Hp; simpl.
  - split; [|lia]. apply _is_prime_correct; [|done].
    destruct (decide (n = 0)) as [->|]; [done|lia].
  - destruct (_next_prime_total n) as (k & Hk & -> & Hpk & _).
    assert (n <= (if n mod 2 =? 0 then n + 1 else n) /\
            1 <= (if n mod 2 =? 0 then n + 1 else n)) as [Hle H1].
    { destruct (Z.eqb_spec (n mod 2) 0) as [H0|H0]; [lia|].
      split; [lia|]. destruct (decide (n = 0)) as [->|]; [done|lia]. }
    split; [|lia]. apply _is_prime_correct; [lia|done].
Qed.

Lemma normalize_double (capacity : Z) :
  2 <= capacity -> 2 * capacity < normalize (capacity * 2).
Proof.
  intros Hc. unfold normalize.
  assert (_is_prime (capacity * 2) = false) as ->.
  { unfold _is_prime. destruct (Z.eqb_spec (capacity * 2) 2); [lia|].
    destruct (Z.eqb_spec (capacity * 2) 3); [lia|].
    destruct (Z.eqb_spec (capacity * 2) 1); [lia|].
    by rewrite Z.mod_mul. }
  simpl. destruct (_next_prime_total (capacity * 2)) as (k & Hk & -> & _).
  rewrite Z.mod_mul by done. simpl. lia.
Qed.

Lemma live_pairs_length buckets : (length (live_pairs buckets) <= length buckets)%nat.
Proof.
  induction buckets as [|slot l IH]; [done|].
  replace (live_pairs (slot :: l)) with (option_list (live slot) ++ live_pairs l)
    by (unfold live_pairs; simpl; by destruct (live slot)).
  rewrite length_app. destruct (live slot); simpl; lia.
Qed.

Lemma no_tombstone_replicate (n : nat) :
  no_tombstone (replicate n (@None (HashEntry (V:=V)))).
Proof. intros i e Hi. apply lookup_replicate in Hi as [? _]. done. Qed.

(** Doubling the capacity, at any depth of the recursion: the new table
    is sparse enough for the reinsertion never to resize again. *)
Lemma resize_table_rec_double m :
  wf hash m -> 0 < _capacity m -> _capacity m <= 2 * _size m ->
  exists m1, (forall depth, resize_table_rec hash (S depth) m (_capacity m * 2) = Ok m1) /\
    wf hash m1 /\ no_tombstone (_buckets m1) /\
    live_pairs (_buckets m1) ≡ₚ live_pairs (_buckets m) /\
    2 * _capacity m < _capacity m1 /\ 2 * _size m1 < _capacity m1.
Proof.
  intros Hwf Hpos Hfull.
  pose proof (wf_size hash m Hwf) as Hsz. pose proof (wf_length hash m Hwf) as Hlen.
  pose proof (live_pairs_length (_buckets m)) as Hle.
  pose proof (Z.prime_ge_2 _ (wf_prime hash m Hwf Hpos)) as Hge.
  destruct (normalize_spec (_capacity m * 2)) as [Hprime _]; [lia|].
  pose proof (normalize_double (_capacity m) Hge) as Hdouble.
  set (m0 := clear {| _buckets := _buckets m;
                      _capacity := normalize (_capacity m * 2);
                      _size := _size m |}).
  destruct (reinsert_sparse m0 (live_pairs (_buckets m)))
    as (m1 & Hre & Hwf1 & Hnt1 & Hcap1 & Hperm1).
  { apply wf_empty; [lia|done]. }
  { apply no_tombstone_replicate. }
  { simpl. lia. }
  { by apply wf_NoDup. }
  { intros k _. simpl. rewrite live_pairs_replicate. apply not_elem_of_nil. }
  { simpl. lia. }
  exists m1. split.
  { intros d. rewrite resize_table_rec_unfold.
    destruct (Z.ltb_spec (_capacity m * 2) (_size m)); [lia|].
    rewrite get_keys_and_values_spec by done. simpl. apply Hre. }
  simpl in Hperm1. rewrite live_pairs_replicate in Hperm1. simpl in Hperm1.
  simpl in Hcap1. pose proof (wf_size hash m1 Hwf1) as Hsz1. rewrite Hperm1 in Hsz1.
  split_and!; (done || lia).
Qed.

Lemma resize_table_rec_ok (depth : nat) :
  resize_ok hash (resize_table_rec (V:=V) hash (S depth)).
Proof.
  intros m Hwf Hpos Hfull.
  destruct (resize_table_rec_double m Hwf Hpos Hfull) as (m1 & Hre & H).
  exists m1. split; [apply Hre|done].
Qed.

Lemma resize_table_ok : resize_ok hash (resize_table (V:=V) hash).
Proof. intros m. apply resize_table_rec_ok. Qed.

(** Reinsertion only depends on what [resize_table] does when [put]
    calls it. *)
Lemma reinsert_ext resize1 resize2 m (kvs : list (string * V)) :
  resize_ok hash resize1 ->
  (forall m, wf hash m -> 0 < _capacity m -> _capacity m <= 2 * _size m ->
             resize1 m (_capacity m * 2) = resize2 m (_capacity m * 2)) ->
  wf hash m -> 0 < _capacity m ->
  reinsert hash resize1 m kvs = reinsert hash resize2 m kvs.
Proof.
  intros Hok Hext. revert m. induction kvs as [|[k v] kvs IH]; intros m Hwf Hpos; [done|].
  unfold reinsert. simpl.
  assert (put_with hash resize1 m k v = put_with hash resize2 m k v) as Hput.
  { rewrite !put_with_unfold.
    destruct (table_load_check m Hwf) as (load & -> & Hle). simpl. rewrite Hle.
    destruct (Z.ltb_spec 0 (_capacity m)); [|lia].
    destruct (Z.leb_spec (_capacity m) (2 * _size m)); [|done]. simpl.
    by rewrite Hext. }
  rewrite <- Hput. destruct (put_with hash resize1 m k v) as [m1| |] eqn:Hput1; [|done..].
  simpl. destruct (put_with_spec resize1 m k v m1 Hok Hwf Hput1) as (Hwf1 & Hpos1 & _).
  by apply IH.
Qed.

(** On a well-formed map [resize_table] satisfies the equation that the
    source gives it, with [put] in the loop: the bound on the depth of the
    recursion is not reached. *)
Lemma resize_table_unfold m (new_capacity : Z) :
  wf hash m ->
  resize_table hash m new_capacity =
  if new_capacity <? _size m then Ok m
  else
    key_val_arr ← get_keys_and_values m;
    for_each (fun m '(key, val) => put hash m key val)
      (clear {| _buckets := _buckets m;
                _capacity := normalize new_capacity;
                _size := _size m |})
      key_val_arr.
Proof.
  intros Hwf. unfold resize_table. rewrite resize_table_rec_unfold.
  destruct (Z.ltb_spec new_capacity (_size m)); [done|].
  rewrite get_keys_and_values_spec by apply (wf_length hash m Hwf). simpl.
  fold (normalize new_capacity). fold (reinsert hash (resize_table (V:=V) hash)).
  destruct (_buckets m) as [|slot l] eqn:Hb; [done|]. rewrite <- Hb.
  pose proof (wf_size hash m Hwf) as Hsz.
  destruct (normalize_spec new_capacity) as [Hprime Hle]; [lia|].
  pose proof (Z.prime_ge_2 _ Hprime).
  replace (length (_buckets m)) with (S (length l)) by (by rewrite Hb).
  apply reinsert_ext.
  - apply resize_table_rec_ok.
  - intros m1 Hwf1 Hpos1 Hfull1. unfold resize_table.
    destruct (resize_table_rec_double m1 Hwf1 Hpos1 Hfull1) as (m2 & Hre & _).
    by rewrite !Hre.
  - apply wf_empty; [lia|done].
  - simpl. lia.
Qed.

Lemma resize_table_spec m (new_capacity : Z) :
  wf hash m ->
  exists m', resize_table hash m new_capacity = Ok m' /\
    wf hash m' /\ live_pairs (_buckets m') ≡ₚ live_pairs (_buckets m) /\
    (new_capacity < _size m -> m' = m) /\
    (_size m <= new_capacity ->
       no_tombstone (_buckets m') /\ normalize new_capacity <= _capacity m').
Proof.
  intros Hwf. rewrite resize_table_unfold by done.
  destruct (Z.ltb_spec new_capacity (_size m)) as [Hlt|Hge].
  { exists m. split_and!; try done; lia. }
  rewrite get_keys_and_values_spec by apply (wf_length hash m Hwf). simpl.
  pose proof (wf_size hash m Hwf) as Hsz.
  destruct (normalize_spec new_capacity) as [Hprime Hle]; [lia|].
  pose proof (Z.prime_ge_2 _ Hprime).
  destruct (reinsert_spec (resize_table hash)
              (clear {| _buckets := _buckets m;
                        _capacity := normalize new_capacity;
                        _size := _size m |})
              (live_pairs (_buckets m)))
    as (m' & Hre & Hwf' & Hnt' & Hcap' & Hperm').
  { apply resize_table_ok. }
  { apply wf_empty; [lia|done]. }
  { apply no_tombstone_replicate. }
  { simpl. lia. }
  { by apply wf_NoDup. }
  { intros k _. simpl. rewrite live_pairs_replicate. apply not_elem_of_nil. }
  exists m'. simpl in Hperm'. rewrite live_pairs_replicate in Hperm'.
  split; [apply Hre|]. split_and!; try done; lia.
Qed.

(** ** Reachable states are well formed *)

Lemma put_spec m key value m' :
  wf hash m -> put hash m key value = Ok m' ->
  wf hash m' /\ 0 < _capacity m' /\ _capacity m <= _capacity m' /\
  live_pairs (_buckets m') ≡ₚ
    (key, value) :: filter (fun p => p.1 <> key) (live_pairs (_buckets m)) /\
  2 * (_size m' - 1) < _capacity m' /\
  (key ∈ (live_pairs (_buckets m)).*1 -> 2 * _size m' < _capacity m') /\
  (no_tombstone (_buckets m) -> no_tombstone (_buckets m')).
Proof. apply put_with_spec, resize_table_ok. Qed.

Lemma put_total m key value :
  wf hash m -> no_tombstone (_buckets m) -> 0 < _capacity m ->
  exists m', put hash m key value = Ok m'.
Proof. apply put_with_total, resize_table_ok. Qed.

Lemma run_wf m (c : call V) m' : wf hash m -> run hash m c = Ok m' -> wf hash m'.
Proof.
  intros Hwf Hrun. destruct c as [key value|key|key|key| |new_capacity]; simpl in Hrun.
  - by apply (put_spec m key value m').
  - destruct (get hash m key); simpl in Hrun; congruence.
  - destruct (contains_key hash m key); simpl in Hrun; congruence.
  - by apply (remove_spec m key m').
  - injection Hrun as <-. by apply wf_clear.
  - destruct (resize_table_spec m new_capacity Hwf) as (m1 & Hre & Hwf1 & _). congruence.
Qed.

Lemma reachable_wf m : reachable hash m -> wf hash m.
Proof.
  induction 1 as [capacity|m m' c _ IH Hrun]; [apply wf_init|by eapply run_wf].
Qed.
End oa_invariant.

(** * Separate chaining: representation invariant *)

Section sc_invariant.
Import SC.
Context {V : Type}.
Variable hash : string -> Z.
Implicit Types (m : HashMap (V:=V)) (buckets : list (list (string * V))).
Implicit Types (key : string) (l bucket : list (string * V)) (node : string * V).

(** ** The chain operations *)

Lemma ll_contains_Some l key node :
  ll_contains l key = Some node -> node ∈ l /\ node.1 = key.
Proof.
  induction l as [|n l IH]; simpl; [done|].
  destruct (decide (n.1 = key)).
  - intros [= <-]. split; [by left|done].
  - intros [Hin Hk]%IH. split; [by right|done].
Qed.

Lemma ll_contains_None l key : ll_contains l key = None <-> key ∉ l.*1.
Proof.
  induction l as [|n l IH]; simpl.
  - split; [intros _; apply not_elem_of_nil|done].
  - rewrite not_elem_of_cons. destruct (decide (n.1 = key)) as [Heq|Hne].
    + split; [done|]. by intros [? _].
    + rewrite IH. split; [done|]. by intros [_ ?].
Qed.

Lemma ll_contains_elem l key (v : V) :
  NoDup l.*1 -> (key, v) ∈ l -> ll_contains l key = Some (key, v).
Proof.
  induction l as [|n l IH]; simpl; intros Hnd Hin; [by apply elem_of_nil in Hin|].
  apply NoDup_cons in Hnd as [Hn Hnd]. apply elem_of_cons in Hin as [<-|Hin].
  - simpl. by destruct (decide (key = key)).
  - destruct (decide (n.1 = key)) as [<-|]; [|by apply IH].
    destruct Hn. apply list_elem_of_fmap. by exists (n.1, v).
Qed.

Lemma ll_set_value_spec l key (value : V) :
  NoDup l.*1 -> key ∈ l.*1 ->
  (ll_set_value l key value).*1 = l.*1 /\
  length (ll_set_value l key value) = length l /\
  ll_set_value l key value ≡ₚ (key, value) :: filter (fun p => p.1 <> key) l.
Proof.
  induction l as [|n l IH]; intros Hnd Hin; [by apply elem_of_nil in Hin|].
  rewrite fmap_cons in Hnd, Hin. apply NoDup_cons in Hnd as [Hn Hnd].
  cbn [ll_set_value]. destruct (decide (n.1 = key)) as [<-|Hne].
  - rewrite filter_cons_False by (simpl; tauto).
    rewrite filter_all by (intros p Hp Heq; apply Hn, list_elem_of_fmap; by exists p).
    done.
  - apply elem_of_cons in Hin as [|Hin]; [done|].
    destruct (IH Hnd Hin) as (Hkeys & Hlen & Hperm).
    rewrite filter_cons_True by done. rewrite !fmap_cons, Hkeys. cbn [length].
    rewrite Hlen. split; [done|]. split; [done|]. rewrite Hperm. apply perm_swap.
Qed.

Lemma ll_remove_Some l key l' :
  NoDup l.*1 -> ll_remove l key = Some l' ->
  key ∈ l.*1 /\ l' ≡ₚ filter (fun p => p.1 <> key) l /\
  length l = S (length l') /\ ll_contains l' key = None.
Proof.
  revert l'. induction l as [|n l IH]; intros l' Hnd Hrem; [done|].
  rewrite fmap_cons in Hnd |- *. apply NoDup_cons in Hnd as [Hn Hnd].
  cbn [ll_remove] in Hrem. destruct (decide (n.1 = key)) as [<-|Hne].
  - injection Hrem as <-. split; [by left|].
    rewrite filter_cons_False by (simpl; tauto).
    rewrite filter_all by (intros p Hp Heq; apply Hn, list_elem_of_fmap; by exists p).
    split; [done|]. split; [done|]. by apply ll_contains_None.
  - destruct (ll_remove l key) as [l0|] eqn:Hl; [|done]. injection Hrem as <-.
    destruct (IH l0 Hnd eq_refl) as (Hin & Hperm & Hlen & Hc).
    split; [by right|]. rewrite filter_cons_True by done.
    split; [by rewrite Hperm|]. split; [simpl; lia|].
    simpl. by destruct (decide (n.1 = key)).
Qed.

Lemma ll_remove_None l key : ll_remove l key = None <-> key ∉ l.*1.
Proof.
  induction l as [|n l IH]; simpl.
  - split; [intros _; apply not_elem_of_nil|done].
  - rewrite not_elem_of_cons. destruct (decide (n.1 = key)) as [Heq|Hne].
    + split; [done|]. by intros [? _].
    + rewrite <- IH. destruct (ll_remove l key); simpl; split; try done. by intros [_ ?].
Qed.

(** ** Buckets and entries *)

Lemma entries_insert buckets (i : nat) bucket bucket' :
  buckets !! i = Some bucket ->
  entries buckets =
    entries (take i buckets) ++ bucket ++ entries (drop (S i) buckets) /\
  entries (<[i:=bucket']> buckets) =
    entries (take i buckets) ++ bucket' ++ entries (drop (S i) buckets).
Proof.
  intros Hi. pose proof (lookup_lt_Some _ _ _ Hi) as Hlen. unfold entries. split.
  - rewrite <- (take_drop_middle buckets i bucket Hi) at 1. by rewrite concat_app.
  - rewrite insert_take_drop by done. by rewrite concat_app.
Qed.

Lemma elem_of_entries buckets node :
  node ∈ entries buckets <-> exists i bucket, buckets !! i = Some bucket /\ node ∈ bucket.
Proof.
  unfold entries. induction buckets as [|b bs IH]; simpl.
  - split; [by intros ?%elem_of_nil|by intros (i & bucket & ? & _)].
  - rewrite elem_of_app, IH. split.
    + intros [Hb|(i & bucket & Hi & Hn)]; [by exists 0%nat, b|by exists (S i), bucket].
    + intros ([|i] & bucket & Hi & Hn); [left; by injection Hi as ->|right; by exists i, bucket].
Qed.

(** The pairs outside the bucket of a key are pairs of other keys. *)
Lemma entries_other_keys m key (i : nat) node :
  sc_wf hash m -> hash key mod _capacity m = Z.of_nat i ->
  node ∈ entries (take i (_buckets m)) ++ entries (drop (S i) (_buckets m)) ->
  node.1 <> key.
Proof.
  intros Hwf Hhome Hin Hkey.
  assert (exists j bucket, _buckets m !! j = Some bucket /\ j <> i /\ node ∈ bucket)
    as (j & bucket & Hj & Hne & Hnode).
  { apply elem_of_app in Hin as [Hin|Hin];
      apply elem_of_entries in Hin as (j & bucket & Hj & Hnode).
    - apply lookup_take_Some in Hj as [Hj Hlt]. exists j, bucket. split; [done|]. split; [lia|done].
    - rewrite lookup_drop in Hj. exists (S i + j)%nat, bucket. split; [done|]. split; [lia|done]. }
  pose proof (sc_wf_home hash m Hwf j bucket node Hj Hnode) as Hhome'.
  rewrite Hkey in Hhome'. lia.
Qed.

Lemma sc_wf_NoDup m : sc_wf hash m -> NoDup (entries (_buckets m)).*1.
Proof.
  intros Hwf.
  assert (forall i bucket node, _buckets m !! i = Some bucket -> node ∈ bucket ->
            hash node.1 mod _capacity m = 0 + Z.of_nat i) as Hhome
    by (intros; rewrite Z.add_0_l; by eapply sc_wf_home).
  pose proof (sc_wf_chain hash m Hwf) as Hchain. clear Hwf.
  revert Hhome Hchain. generalize 0. induction (_buckets m) as [|bucket l IH];
    intros offset Hhome Hchain; [constructor|].
  unfold entries. simpl. rewrite fmap_app. apply NoDup_app. split; [|split].
  - by apply (Hchain 0%nat).
  - intros k (n1 & -> & Hn1)%list_elem_of_fmap (n2 & Hk & Hn2)%list_elem_of_fmap.
    apply elem_of_entries in Hn2 as (j & bucket' & Hj & Hn2).
    pose proof (Hhome 0%nat bucket n1 eq_refl Hn1).
    pose proof (Hhome (S j) bucket' n2 Hj Hn2). rewrite Hk in *. lia.
  - apply (IH (offset + 1)).
    + intros i b n Hi Hn. rewrite (Hhome (S i) b n Hi Hn). lia.
    + intros i b Hi. by apply (Hchain (S i)).
Qed.

Lemma sc_keys_and_values_loop_spec buckets (i n : nat) arr :
  (i + n <= length buckets)%nat ->
  keys_and_values_loop buckets (Z.of_nat i) n arr =
  Ok (arr ++ entries (take n (drop i buckets))).
Proof.
  revert i arr. induction n as [|n IH]; intros i arr Hlen; simpl.
  - by rewrite app_nil_r.
  - destruct (lookup_lt_is_Some_2 buckets i) as [bucket Hb]; [lia|].
    rewrite (proj2 (da_get_Ok buckets (Z.of_nat i) bucket))
      by (rewrite Nat2Z.id; split; [lia|done]).
    simpl. replace (Z.of_nat i + 1) with (Z.of_nat (S i)) by lia.
    rewrite IH by lia. rewrite (drop_S _ _ _ Hb). simpl.
    unfold entries. simpl. by rewrite app_assoc.
Qed.

Lemma sc_get_keys_and_values_spec m :
  length (_buckets m) = Z.to_nat (_capacity m) ->
  get_keys_and_values m = Ok (entries (_buckets m)).
Proof.
  intros Hlen. unfold get_keys_and_values.
  rewrite (sc_keys_and_values_loop_spec _ 0) by (simpl; lia).
  rewrite drop_0, <- Hlen, firstn_all. done.
Qed.

Lemma bucket_of_Ok m key (index : Z) bucket :
  bucket_of hash m key = Ok (index, bucket) ->
  index = hash key mod _capacity m /\ 0 <= index /\
  _buckets m !! Z.to_nat index = Some bucket.
Proof.
  unfold bucket_of. destruct (_capacity m =? 0); [done|].
  destruct (da_get _ _) as [b| |] eqn:Hget; simpl; [|done..].
  intros [= <- <-]. apply da_get_Ok in Hget. tauto.
Qed.

Lemma bucket_of_total m key :
  sc_wf hash m -> 0 < _capacity m -> exists bucket,
    bucket_of hash m key = Ok (hash key mod _capacity m, bucket).
Proof.
  intros Hwf Hpos. unfold bucket_of.
  destruct (Z.eqb_spec (_capacity m) 0); [lia|].
  destruct (da_get_in_range (_buckets m) (hash key mod _capacity m)) as [bucket ->].
  - pose proof (Z.mod_pos_bound (hash key) (_capacity m) Hpos).
    rewrite (sc_wf_length hash m Hwf). lia.
  - by exists bucket.
Qed.

(** ** The methods on a well-formed map *)

Lemma entries_replicate (n : nat) : entries (replicate n (@nil (string * V))) = [].
Proof. induction n; [done|]. done. Qed.

Lemma sc_wf_empty (capacity size : Z) buckets :
  capacity <> 0 ->
  sc_wf hash (clear {| _buckets := buckets; _capacity := capacity; _size := size |}).
Proof.
  intros Hc. split; simpl; try done.
  - by rewrite length_replicate.
  - intros i bucket node [-> _]%lookup_replicate Hn. by apply elem_of_nil in Hn.
  - intros i bucket [-> _]%lookup_replicate. constructor.
  - by rewrite entries_replicate.
Qed.

Lemma sc_wf_init (capacity : Z) : sc_wf hash (__init__ (V:=V) capacity).
Proof.
  destruct (_next_prime_capacity capacity) as [Hc _].
  by apply (sc_wf_empty (_next_prime capacity) 0 []).
Qed.

Lemma sc_wf_clear m : sc_wf hash m -> sc_wf hash (clear m).
Proof. intros [? Hc ? ? ?]. destruct m. by apply sc_wf_empty. Qed.

(** Replacing the chain of one bucket. *)
Lemma sc_wf_set m (i : nat) bucket bucket' (size' : Z) :
  sc_wf hash m -> _buckets m !! i = Some bucket ->
  (forall node, node ∈ bucket' -> hash node.1 mod _capacity m = Z.of_nat i) ->
  NoDup bucket'.*1 ->
  size' = _size m - Z.of_nat (length bucket) + Z.of_nat (length bucket') ->
  sc_wf hash {| _buckets := <[i:=bucket']> (_buckets m);
           _capacity := _capacity m;
           _size := size' |}.
Proof.
  intros [Hlen Hc Hhome Hchain Hsize] Hi Hhome' Hnd' ->.
  pose proof (lookup_lt_Some _ _ _ Hi) as Hlt. split; simpl.
  - by rewrite length_insert.
  - done.
  - intros j b node Hj Hn. destruct (decide (i = j)) as [->|Hne].
    + rewrite list_lookup_insert_eq in Hj by done. injection Hj as <-. by apply Hhome'.
    + rewrite list_lookup_insert_ne in Hj by done. by eapply Hhome.
  - intros j b Hj. destruct (decide (i = j)) as [->|Hne].
    + rewrite list_lookup_insert_eq in Hj by done. by injection Hj as <-.
    + rewrite list_lookup_insert_ne in Hj by done. by eapply Hchain.
  - destruct (entries_insert (_buckets m) i bucket bucket' Hi) as [Hold ->].
    rewrite Hsize, Hold, !length_app. lia.
Qed.

Lemma key_in_bucket m key (i : nat) bucket :
  sc_wf hash m -> _buckets m !! i = Some bucket -> hash key mod _capacity m = Z.of_nat i ->
  key ∈ (entries (_buckets m)).*1 -> key ∈ bucket.*1.
Proof.
  intros Hwf Hi Hhome (node & -> & Hn)%list_elem_of_fmap.
  apply elem_of_entries in Hn as (j & b & Hj & Hn).
  pose proof (sc_wf_home hash m Hwf j b node Hj Hn) as Hhome'.
  assert (j = i) as -> by lia. assert (b = bucket) as -> by congruence.
  apply list_elem_of_fmap. by exists node.
Qed.

(** The other buckets hold pairs of other keys, so filtering a key out of
    the map only touches its bucket. *)
Lemma filter_entries m key (i : nat) bucket :
  sc_wf hash m -> _buckets m !! i = Some bucket -> hash key mod _capacity m = Z.of_nat i ->
  filter (fun p => p.1 <> key) (entries (_buckets m)) =
  entries (take i (_buckets m)) ++ filter (fun p => p.1 <> key) bucket
    ++ entries (drop (S i) (_buckets m)).
Proof.
  intros Hwf Hi Hhome.
  destruct (entries_insert (_buckets m) i bucket bucket Hi) as [-> _].
  rewrite !filter_app.
  rewrite (filter_all _ (entries (take _ _))), (filter_all _ (entries (drop _ _))); [done|..].
  - intros p Hp. apply (entries_other_keys m key i p Hwf Hhome), elem_of_app. by right.
  - intros p Hp. apply (entries_other_keys m key i p Hwf Hhome), elem_of_app. by left.
Qed.

Lemma sc_put_spec m key (value : V) m' :
  sc_wf hash m -> put hash m key value = Ok m' ->
  sc_wf hash m' /\ _capacity m' = _capacity m /\
  entries (_buckets m') ≡ₚ
    (key, value) :: filter (fun p => p.1 <> key) (entries (_buckets m)).
Proof.
  intros Hwf Hput. unfold put in Hput.
  destruct (bucket_of hash m key) as [[index bucket]| |] eqn:Hb; simpl in Hput; [|done..].
  apply bucket_of_Ok in Hb as (Hindex & Hpos & Hi).
  assert (hash key mod _capacity m = Z.of_nat (Z.to_nat index)) as Hhome by lia.
  pose proof (sc_wf_chain hash m Hwf _ _ Hi) as Hnd.
  rewrite (filter_entries m key _ bucket Hwf Hi Hhome).
  destruct (ll_contains bucket key) as [node|] eqn:Hc; injection Hput as <-; simpl;
    unfold da_set;
    destruct (entries_insert (_buckets m) (Z.to_nat index) bucket
                (ll_set_value bucket key value) Hi) as [_ Hset];
    destruct (entries_insert (_buckets m) (Z.to_nat index) bucket
                (ll_insert bucket key value) Hi) as [_ Hins].
  - apply ll_contains_Some in Hc as [Hn Hk].
    assert (key ∈ bucket.*1) as Hin by (apply list_elem_of_fmap; by exists node).
    destruct (ll_set_value_spec bucket key value Hnd Hin) as (Hkeys & Hlen & Hperm).
    split; [|split; [done|]].
    + apply (sc_wf_set m _ bucket); [done|done| |by rewrite Hkeys|lia].
      intros n' Hn'.
      assert (n'.1 ∈ bucket.*1) as (n0 & -> & Hn0)%list_elem_of_fmap
        by (rewrite <- Hkeys; apply list_elem_of_fmap; by exists n').
      by apply (sc_wf_home hash m Hwf _ bucket).
    + rewrite Hset, Hperm, <- app_comm_cons. by rewrite <- Permutation_middle.
  - apply ll_contains_None in Hc.
    rewrite (filter_all _ bucket)
      by (intros p Hp Heq; apply Hc, list_elem_of_fmap; by exists p).
    unfold ll_insert in *. split; [|split; [done|]].
    + apply (sc_wf_set m _ bucket); [done|done| | |rewrite length_app; simpl; lia].
      * intros n' [Hn'| ->%list_elem_of_singleton]%elem_of_app; [|done].
        by apply (sc_wf_home hash m Hwf _ bucket).
      * rewrite fmap_app. apply NoDup_app. split; [done|]. split; [|apply NoDup_singleton].
        intros k Hk ->%list_elem_of_singleton. done.
    + rewrite Hins.
      set (A := entries (take _ _)). set (B := entries (drop _ _)).
      replace (A ++ (bucket ++ [(key, value)]) ++ B)
        with ((A ++ bucket) ++ (key, value) :: B) by (by rewrite <- !app_assoc).
      rewrite <- Permutation_middle. by rewrite <- app_assoc.
Qed.

Lemma sc_put_total m key (value : V) :
  sc_wf hash m -> 0 < _capacity m -> exists m', put hash m key value = Ok m'.
Proof.
  intros Hwf Hpos. unfold put.
  destruct (bucket_of_total m key Hwf Hpos) as [bucket ->]. simpl.
  destruct (ll_contains bucket key); by eexists.
Qed.

Lemma sc_get_spec m key (v : V) :
  sc_wf hash m -> (key, v) ∈ entries (_buckets m) -> get hash m key = Ok (Some v).
Proof.
  intros Hwf (i & bucket & Hi & Hn)%elem_of_entries.
  pose proof (sc_wf_home hash m Hwf i bucket _ Hi Hn) as Hhome. simpl in Hhome.
  unfold get, bucket_of.
  destruct (Z.eqb_spec (_capacity m) 0); [by destruct (sc_wf_capacity hash m Hwf)|].
  rewrite Hhome, (proj2 (da_get_Ok _ _ bucket)) by (rewrite Nat2Z.id; split; [lia|done]).
  simpl. by rewrite (ll_contains_elem bucket key v (sc_wf_chain hash m Hwf i bucket Hi) Hn).
Qed.

Lemma sc_remove_spec m key m' :
  sc_wf hash m -> remove hash m key = Ok m' ->
  sc_wf hash m' /\ _capacity m' = _capacity m /\
  entries (_buckets m') ≡ₚ filter (fun p => p.1 <> key) (entries (_buckets m)) /\
  (key ∈ (entries (_buckets m)).*1 ->
     _size m' = _size m - 1 /\ contains_key hash m' key = Ok false) /\
  (key ∉ (entries (_buckets m)).*1 -> m' = m).
Proof.
  intros Hwf Hrem. unfold remove in Hrem.
  destruct (bucket_of hash m key) as [[index bucket]| |] eqn:Hb; simpl in Hrem; [|done..].
  pose proof Hb as (Hindex & Hpos & Hi)%bucket_of_Ok.
  assert (hash key mod _capacity m = Z.of_nat (Z.to_nat index)) as Hhome by lia.
  pose proof (sc_wf_chain hash m Hwf _ _ Hi) as Hnd.
  rewrite (filter_entries m key _ bucket Hwf Hi Hhome).
  destruct (ll_remove bucket key) as [bucket'|] eqn:Hr.
  - injection Hrem as <-. simpl. unfold da_set.
    destruct (ll_remove_Some bucket key bucket' Hnd Hr) as (Hin & Hperm & Hlen & Hc).
    destruct (entries_insert (_buckets m) (Z.to_nat index) bucket bucket' Hi) as [_ ->].
    assert (forall p, p ∈ bucket' -> p ∈ bucket) as Hsub.
    { intros p Hp. rewrite Hperm in Hp. by apply list_elem_of_filter in Hp as [_ ?]. }
    split; [|split; [done|split; [by rewrite Hperm|split]]].
    + apply (sc_wf_set m _ bucket); [done|done| | |lia].
      * intros n' Hn'. apply (sc_wf_home hash m Hwf _ bucket); [done|by apply Hsub].
      * rewrite Hperm. clear -Hnd. induction bucket as [|n l IH]; [constructor|].
        rewrite fmap_cons in Hnd. apply NoDup_cons in Hnd as [Hn Hnd].
        destruct (decide (n.1 <> key)).
        -- rewrite filter_cons_True by done. rewrite fmap_cons. apply NoDup_cons.
           split; [|by apply IH]. intros (p & Hk & Hp)%list_elem_of_fmap.
           apply list_elem_of_filter in Hp as [_ Hp]. apply Hn, list_elem_of_fmap. by exists p.
        -- rewrite filter_cons_False by done. by apply IH.
    + intros _. split; [lia|]. unfold contains_key, bucket_of. simpl.
      destruct (Z.eqb_spec (_capacity m) 0); [by destruct (sc_wf_capacity hash m Hwf)|].
      rewrite <- Hindex. fold (da_set (_buckets m) index bucket').
      rewrite da_get_set_eq by (pose proof (lookup_lt_Some _ _ _ Hi); lia).
      simpl. rewrite Hc. done.
    + intros Hnotin. destruct Hnotin. apply list_elem_of_fmap in Hin as (p & -> & Hp).
      apply list_elem_of_fmap. exists p. split; [done|]. apply elem_of_entries. eauto.
  - injection Hrem as <-. apply ll_remove_None in Hr.
    rewrite (filter_all _ bucket)
      by (intros p Hp Heq; apply Hr, list_elem_of_fmap; by exists p).
    destruct (entries_insert (_buckets m) (Z.to_nat index) bucket bucket Hi) as [<- _].
    split; [done|]. split; [done|]. split; [done|]. split; [|done].
    intros Hin. destruct Hr. by apply (key_in_bucket m key (Z.to_nat index)).
Qed.

(** ** [resize_table] *)

Lemma sc_reinsert m (kvs : list (string * V)) :
  sc_wf hash m -> 0 < _capacity m ->
  NoDup kvs.*1 -> (forall k, k ∈ kvs.*1 -> k ∉ (entries (_buckets m)).*1) ->
  exists m', for_each (fun m '(key, val) => put hash m key val) m kvs = Ok m' /\
    sc_wf hash m' /\ _capacity m' = _capacity m /\
    entries (_buckets m') ≡ₚ entries (_buckets m) ++ kvs.
Proof.
  revert m. induction kvs as [|[k v] kvs IH]; intros m Hwf Hpos Hnd Hfresh.
  { exists m. by rewrite app_nil_r. }
  rewrite fmap_cons in Hnd. apply NoDup_cons in Hnd as [Hk Hnd].
  destruct (sc_put_total m k v Hwf Hpos) as [m1 Hput].
  destruct (sc_put_spec m k v m1 Hwf Hput) as (Hwf1 & Hcap1 & Hperm1).
  rewrite filter_all in Hperm1.
  2: { intros p Hp Hkey. apply (Hfresh k); [by left|]. apply list_elem_of_fmap. by exists p. }
  destruct (IH m1) as (m' & Hre & Hwf' & Hcap' & Hperm'); [done|lia|done| |].
  { intros k' Hk'. rewrite Hperm1. simpl. apply not_elem_of_cons. split.
    - intros ->. done.
    - apply Hfresh. by right. }
  exists m'. simpl. rewrite Hput. simpl. split; [done|]. split; [done|]. split; [lia|].
  rewrite Hperm', Hperm1. simpl. by rewrite <- Permutation_middle.
Qed.

Lemma sc_resize_table_spec m (new_capacity : Z) :
  sc_wf hash m ->
  exists m', resize_table hash m new_capacity = Ok m' /\
    sc_wf hash m' /\ entries (_buckets m') ≡ₚ entries (_buckets m) /\
    (new_capacity < 1 -> m' = m) /\
    (1 <= new_capacity -> _capacity m' = normalize new_capacity).
Proof.
  intros Hwf. unfold resize_table.
  destruct (Z.ltb_spec new_capacity 1) as [Hlt|Hge].
  { exists m. split_and!; try done; lia. }
  rewrite sc_get_keys_and_values_spec by apply (sc_wf_length hash m Hwf). simpl.
  fold (normalize new_capacity).
  destruct (normalize_spec new_capacity) as [Hprime Hle]; [lia|].
  pose proof (Z.prime_ge_2 _ Hprime).
  destruct (sc_reinsert
              (clear {| _buckets := _buckets m;
                        _capacity := normalize new_capacity;
                        _size := _size m |})
              (entries (_buckets m)))
    as (m' & Hre & Hwf' & Hcap' & Hperm').
  { apply sc_wf_empty. lia. }
  { simpl. lia. }
  { by apply sc_wf_NoDup. }
  { intros k _. simpl. rewrite entries_replicate. apply not_elem_of_nil. }
  exists m'. simpl in Hperm'. rewrite entries_replicate in Hperm'.
  split; [apply Hre|]. split_and!; try done; lia.
Qed.

Lemma sc_run_wf m (c : call V) m' : sc_wf hash m -> run hash m c = Ok m' -> sc_wf hash m'.
Proof.
  intros Hwf Hrun. destruct c as [key value|key|key|key| |new_capacity]; simpl in Hrun.
  - by apply (sc_put_spec m key value m').
  - destruct (get hash m key); simpl in Hrun; congruence.
  - destruct (contains_key hash m key); simpl in Hrun; congruence.
  - by apply (sc_remove_spec m key m').
  - injection Hrun as <-. by apply sc_wf_clear.
  - destruct (sc_resize_table_spec m new_capacity Hwf) as (m1 & Hre & Hwf1 & _). congruence.
Qed.

Lemma sc_reachable_wf m : reachable hash m -> sc_wf hash m.
Proof.
  induction 1 as [capacity|m m' c _ IH Hrun]; [apply sc_wf_init|by eapply sc_run_wf].
Qed.
End sc_invariant.

(** * The properties of the specification *)

(** ** Capacity manager *)

(** C6: for every integer [n >= 1], [_next_prime n] is a prime at or above
    [n], found by moving an even [n] to the next odd number and stepping by
    2 past every candidate that [_is_prime] rejects; [_is_prime n] holds
    exactly when [n] is prime: it answers true for 2 and 3, false for 1 and
    the other even numbers, and otherwise by trial division by the odd
    factors up to the square root; and the four values of the
    specification. *)
Theorem C6_capacity_manager (n : Z) :
  1 <= n ->
  (Z.prime (_next_prime n) /\ n <= _next_prime n /\
   let c := if n mod 2 =? 0 then n + 1 else n in
   exists k, 0 <= k /\ _next_prime n = c + 2 * k /\
     forall i, 0 <= i < k -> _is_prime (c + 2 * i) = false) /\
  (_is_prime n = true <-> Z.prime n) /\
  (_is_prime 2 = true /\ _is_prime 3 = true /\ _is_prime 1 = false /\
   (n mod 2 = 0 -> n <> 2 -> _is_prime n = false) /\
   (n mod 2 <> 0 -> 5 <= n ->
    (_is_prime n = true <->
     forall k, 0 <= k -> (3 + 2 * k) ^ 2 <= n -> n mod (3 + 2 * k) <> 0))) /\
  (_next_prime 4 = 5 /\ _next_prime 11 = 11 /\ _is_prime 1 = false /\ _is_prime 2 = true).
Proof.
  intros Hn. split; [|split; [by apply _is_prime_correct|split]].
  - destruct (_next_prime_total n) as (k & Hk & Heq & Hp & Hfirst). simpl in *.
    assert (n <= _next_prime n) as Hle.
    { rewrite Heq. destruct (n mod 2 =? 0); lia. }
    split; [apply _is_prime_correct; [lia|by rewrite Heq]|]. split; [done|].
    exists k. by rewrite <- Heq.
  - split; [done|]. split; [done|]. split; [done|]. split.
    + intros Heven H2. unfold _is_prime.
      destruct (Z.eqb_spec n 2); [done|]. destruct (Z.eqb_spec n 3) as [->|]; [done|].
      simpl. rewrite Heven. by destruct (n =? 1).
    + intros Hodd H5. rewrite _is_prime_correct by done. symmetry.
      by apply odd_trial_prime.
  - by vm_compute.
Qed.

Lemma C6_capacity_manager_witness :
  Z.prime (_next_prime 4) /\ 4 <= _next_prime 4 /\ (_is_prime 4 = true <-> Z.prime 4).
Proof.
  pose proof (C6_capacity_manager 4 ltac:(lia)) as ((Hp & Hle & _) & Hiff & _).
  split; [exact Hp|]. split; [exact Hle|exact Hiff].
Defined.

(** C10: [_is_prime] answers true on every negative odd integer, the test
    [factor ** 2 <= capacity] failing at once; so [_next_prime] returns a
    negative odd number unchanged, and the constructor then builds a map
    with that negative capacity and no bucket at all. *)
Theorem C10_negative_odd_capacity (V : Type) (n : Z) :
  n < 0 -> Z.odd n = true ->
  (3 ^ 2 <=? n) = false /\
  (forall fuel, _is_prime_loop fuel 3 n = true) /\
  _is_prime n = true /\
  _next_prime n = n /\
  OA._capacity (OA.__init__ (V:=V) n) = n /\
  OA._buckets (OA.__init__ (V:=V) n) = [] /\
  length (OA._buckets (OA.__init__ (V:=V) n)) = 0%nat.
Proof.
  intros Hneg Hodd.
  assert (n mod 2 = 1) as Hmod by (rewrite Zmod_odd, Hodd; done).
  assert ((3 ^ 2 <=? n) = false) as Hsq by (apply Z.leb_gt; lia).
  assert (_next_prime n = n) as Hnext.
  { destruct (_next_prime_total n) as (k & Hk & Heq & _ & Hfirst).
    rewrite Hmod in Heq, Hfirst. simpl in Heq, Hfirst.
    destruct (decide (k = 0)) as [->|Hk0]; [lia|].
    specialize (Hfirst 0 ltac:(lia)). rewrite Z.add_0_r in Hfirst.
    by rewrite _is_prime_negative_odd in Hfirst. }
  split; [done|]. split.
  { intros fuel. destruct fuel; simpl; by rewrite Hsq. }
  split; [by apply _is_prime_negative_odd|]. split; [done|].
  unfold OA.__init__. simpl. rewrite Hnext.
  replace (Z.to_nat n) with 0%nat by lia. done.
Qed.

Lemma C10_negative_odd_capacity_witness :
  _is_prime (-3) = true /\ _next_prime (-3) = -3 /\
  OA.__init__ (V:=Z) (-3) = {| OA._buckets := []; OA._capacity := -3; OA._size := 0 |}.
Proof.
  pose proof (C10_negative_odd_capacity Z (-3) ltac:(lia) ltac:(reflexivity))
    as (_ & _ & Hp & Hn & _).
  split; [exact Hp|]. split; [exact Hn|]. reflexivity.
Defined.

(** ** The probe sequence of the open-addressing map *)

Lemma passes_true {V : Type} (buckets : list (option (OA.HashEntry (V:=V))))
    (key : string) (index : Z) :
  passes buckets key index = true <->
  0 <= index /\
  exists e, buckets !! Z.to_nat index = Some (Some e) /\ OA.entry_key e <> key.
Proof.
  unfold passes. split.
  - destruct (da_get buckets index) as [[e|]| |] eqn:Hget; try done.
    intros Hne%bool_decide_eq_true. apply da_get_Ok in Hget as [H0 Hl]. eauto.
  - intros (H0 & e & Hl & Hne).
    rewrite (proj2 (da_get_Ok buckets index (Some e))) by done.
    by apply bool_decide_eq_true.
Qed.

Lemma passes_false {V : Type} (buckets : list (option (OA.HashEntry (V:=V))))
    (key : string) (index : Z) :
  0 <= index < Z.of_nat (length buckets) ->
  passes buckets key index = false <->
  buckets !! Z.to_nat index = Some None \/
  exists e, buckets !! Z.to_nat index = Some (Some e) /\ OA.entry_key e = key.
Proof.
  intros Hrange. destruct (da_get_in_range buckets index Hrange) as [slot Hget].
  pose proof Hget as [_ Hl]%da_get_Ok. unfold passes. rewrite Hget, Hl.
  destruct slot as [e|]; split; try done.
  - intros Hne%bool_decide_eq_false. right. exists e. split; [done|].
    by destruct (decide (OA.entry_key e = key)).
  - intros [|(e' & [= <-] & Heq)]; [done|]. apply bool_decide_eq_false. by intros ?.
  - intros _. by left.
Qed.

(** C3: [get_bucket_index] starts at [initial = hash(key) mod capacity] and
    goes on to the indices [(initial + j^2) mod capacity], [j = 1, 2, ...],
    as long as the slot holds an entry for another key.  It returns the
    first index of that sequence whose slot is empty or holds an entry with
    the key, tombstone or not; every index it returns is of this kind; it
    never raises; and it fails to return exactly when every slot of the
    sequence holds an entry for another key. *)
Theorem C3_get_bucket_index_probe (V : Type) (hash : string -> Z)
    (m : OA.HashMap (V:=V)) (key : string) :
  0 < OA._capacity m ->
  length (OA._buckets m) = Z.to_nat (OA._capacity m) ->
  let initial := hash key mod OA._capacity m in
  let index j := (initial + j ^ 2) mod OA._capacity m in
  let other_key i :=
    exists e, OA._buckets m !! Z.to_nat i = Some (Some e) /\ OA.entry_key e <> key in
  let stops i :=
    OA._buckets m !! Z.to_nat i = Some None \/
    exists e, OA._buckets m !! Z.to_nat i = Some (Some e) /\ OA.entry_key e = key in
  index 0 = initial /\
  (forall n, 0 <= n -> (forall j, 0 <= j < n -> other_key (index j)) -> stops (index n) ->
     OA.get_bucket_index hash m key = Ok (index n)) /\
  (forall r, OA.get_bucket_index hash m key = Ok r ->
     exists n, 0 <= n /\ r = index n /\
       (forall j, 0 <= j < n -> other_key (index j)) /\ stops r) /\
  OA.get_bucket_index hash m key <> Raise /\
  (OA.get_bucket_index hash m key = Diverge <->
   forall j, 0 <= j -> other_key (index j)).
Proof.
  intros Hpos Hlen initial index other_key stops.
  assert (OA._capacity m <> 0) as Hc by lia.
  assert (forall j, 0 <= index j < Z.of_nat (length (OA._buckets m))) as Hrange.
  { intros j. pose proof (visit_range initial (OA._capacity m) j Hpos).
    unfold visit in *. unfold index. lia. }
  assert (forall j, passes (OA._buckets m) key (index j) = true <-> other_key (index j))
    as Hpass.
  { intros j. rewrite passes_true. specialize (Hrange j). unfold other_key.
    split; [by intros [_ ?]|]. intros H. split; [lia|done]. }
  assert (forall j, passes (OA._buckets m) key (index j) = false <-> stops (index j))
    as Hstop by (intros j; by apply passes_false).
  assert (forall j, examine (OA._buckets m) (index j) = Ok (index j)) as Hex.
  { intros j. unfold examine.
    by destruct (da_get_in_range (OA._buckets m) (index j) (Hrange j)) as [slot ->]. }
  split; [apply (visit_0 hash key _ Hc)|]. split; [|split; [|split]].
  - intros n Hn Hbefore Hat.
    rewrite (get_bucket_index_first hash m key n Hc Hn).
    + apply Hex.
    + intros j Hj. by apply Hpass, Hbefore.
    + by apply Hstop.
  - intros r Hget.
    destruct (get_bucket_index_Ok hash m key r Hc Hget)
      as (n & slot & Hn & -> & Hbefore & Hat & _).
    exists n. split; [done|]. split; [done|]. split.
    + intros j Hj. by apply Hpass, Hbefore.
    + by apply Hstop.
  - destruct (get_bucket_index_cases hash m key Hc) as [(n & _ & _ & _ & ->)|[_ ->]];
      [|done]. fold initial. fold (index n). by rewrite Hex.
  - destruct (get_bucket_index_cases hash m key Hc)
      as [(n & Hn & _ & Hat & ->)|[Hall ->]].
    + fold initial in Hat |- *. fold (index n) in Hat |- *. rewrite Hex. split; [done|].
      intros Hall. specialize (Hall n ltac:(lia)). apply Hpass in Hall.
      destruct (eq_true_false_abs _ Hall Hat).
    + split; [|done]. intros _ j Hj. by apply Hpass, Hall.
Qed.

Lemma C3_get_bucket_index_probe_witness :
  exists m : OA.HashMap (V:=Z),
    for_each (OA.run sample_hash) (OA.__init__ 5)
      [Put "a" 1; Put "f" 2; Put "k" 3] = Ok m /\
    OA.get_bucket_index sample_hash m "a" = Ok 2 /\
    OA.get_bucket_index sample_hash m "f" = Ok ((2 + 1 ^ 2) mod 5) /\
    OA.get_bucket_index sample_hash m "k" = Ok ((2 + 2 ^ 2) mod 5) /\
    OA.get_bucket_index sample_hash m "b" = Ok ((3 + 1 ^ 2) mod 5) /\
    OA.get_bucket_index sample_hash m "p" = Diverge.
Proof.
  pose (m := {| OA._buckets := [None; Some (OA.mkHashEntry "k" 3 false);
                                Some (OA.mkHashEntry "a" 1 false);
                                Some (OA.mkHashEntry "f" 2 false); None];
                OA._capacity := 5; OA._size := 3 |}).
  exists m. split; [vm_compute; reflexivity|].
  pose proof (fun key => C3_get_bucket_index_probe Z sample_hash m key
                           ltac:(reflexivity) ltac:(reflexivity)) as Hprobe.
  cbv zeta in Hprobe.
  split; [|split; [|split; [|split]]].
  - (* "a" sits at its home index *)
    destruct (Hprobe "a") as (_ & Hfirst & _). apply (Hfirst 0); [lia|intros j Hj; lia|].
    right. eexists. split; reflexivity.
  - (* "f" collides with "a" and sits one probe further *)
    destruct (Hprobe "f") as (_ & Hfirst & _). apply (Hfirst 1); [lia| |].
    + intros j Hj. assert (j = 0) as -> by lia. eexists. split; [reflexivity|discriminate].
    + right. eexists. split; reflexivity.
  - (* "k" collides with "a" and with "f" and sits two probes further *)
    destruct (Hprobe "k") as (_ & Hfirst & _). apply (Hfirst 2); [lia| |].
    + intros j Hj. assert (j = 0 \/ j = 1) as [-> | ->] by lia;
        eexists; (split; [reflexivity|discriminate]).
    + right. eexists. split; reflexivity.
  - (* "b" finds "f" at its home index and stops at the empty slot after it *)
    destruct (Hprobe "b") as (_ & Hfirst & _). apply (Hfirst 1); [lia| |].
    + intros j Hj. assert (j = 0) as -> by lia. eexists. split; [reflexivity|discriminate].
    + left. reflexivity.
  - (* the probe for "p" only meets the slots of "a", "f" and "k" *)
    destruct (Hprobe "p") as (_ & _ & _ & _ & Hloop). apply Hloop. intros j Hj.
    assert ((2 + j ^ 2) mod 5 = 1 \/ (2 + j ^ 2) mod 5 = 2 \/ (2 + j ^ 2) mod 5 = 3)
      as Hcase.
    { pose proof (Z.mod_pos_bound j 5 ltac:(lia)) as Hr.
      rewrite Z.pow_2_r, Z.add_mod, Z.mul_mod by lia.
      assert (j mod 5 = 0 \/ j mod 5 = 1 \/ j mod 5 = 2 \/ j mod 5 = 3 \/ j mod 5 = 4)
        as [-> | [-> | [-> | [-> | ->]]]] by lia; vm_compute; tauto. }
    change (sample_hash "p" mod OA._capacity m) with 2.
    change (OA._capacity m) with 5.
    destruct Hcase as [-> | [-> | ->]]; eexists; (split; [reflexivity|discriminate]).
Defined.

(** ** Load factor of the open-addressing map *)

Lemma load_below_half (size capacity : Z) :
  0 < capacity ->
  (inject_Z size / inject_Z capacity < 1 # 2)%Q <-> 2 * size < capacity.
Proof.
  intros Hpos. destruct capacity as [|c|c]; [lia| |lia].
  unfold Qlt, Qdiv, Qmult, Qinv. simpl. lia.
Qed.

(** C4, as the specification states it, fails: the second insertion into a
    table of capacity 3 is no update, and leaves the load at 2/3. *)
Lemma C4_counterexample :
  ~ (forall (m : OA.HashMap (V:=Z)) (key : string) (value : Z) (m' : OA.HashMap),
       OA.reachable sample_hash m -> OA.put sample_hash m key value = Ok m' ->
       (exists load, OA.table_load m' = Ok load /\ (load < 1 # 2)%Q) \/
       (exists v0, OA.get sample_hash m key = Ok (Some v0))).
Proof.
  intros Hclaim.
  pose (m1 := {| OA._buckets := [None; Some (OA.mkHashEntry "a" 1 false); None];
                 OA._capacity := 3; OA._size := 1 |}).
  pose (m2 := {| OA._buckets := [None; Some (OA.mkHashEntry "a" 1 false);
                                 Some (OA.mkHashEntry "b" 2 false)];
                 OA._capacity := 3; OA._size := 2 |}).
  assert (OA.reachable sample_hash m1) as Hreach.
  { apply (OA.reachable_run sample_hash (OA.__init__ 3) m1 (Put "a" 1)).
    - apply OA.reachable_init.
    - reflexivity. }
  destruct (Hclaim m1 "b" 2 m2 Hreach eq_refl) as [(load & Hload & Hlt)|(v0 & Hget)].
  - vm_compute in Hload. injection Hload as <-. by vm_compute in Hlt.
  - by vm_compute in Hget.
Qed.

(** C4, amended: [put] checks the load before it inserts, not after.  After
    every [put] on a reachable map the load counted without the pair just
    written is below 0.5, that is [(size - 1) / capacity < 0.5]; and
    [table_load() < 0.5] itself holds when the [put] was an update of an
    existing key. *)
Theorem C4_load_checked_before_insertion (V : Type) (hash : string -> Z)
    (m : OA.HashMap (V:=V)) (key : string) (value : V) (m' : OA.HashMap) :
  OA.reachable hash m -> OA.put hash m key value = Ok m' ->
  (inject_Z (OA._size m' - 1) / inject_Z (OA._capacity m') < 1 # 2)%Q /\
  ((exists v0, OA.get hash m key = Ok (Some v0)) ->
   exists load, OA.table_load m' = Ok load /\ (load < 1 # 2)%Q).
Proof.
  intros Hreach%reachable_wf Hput.
  destruct (put_spec hash m key value m' Hreach Hput)
    as (Hwf' & Hpos' & _ & _ & Hbefore & Hupdate & _).
  split; [by apply load_below_half|].
  intros [v0 Hget]. apply get_Some_inv in Hget; [|done].
  unfold OA.table_load. destruct (Z.eqb_spec (OA._capacity m') 0); [lia|].
  eexists. split; [done|]. apply load_below_half; [done|].
  apply Hupdate, list_elem_of_fmap. by exists (key, v0).
Qed.

Lemma C4_load_checked_before_insertion_witness :
  (inject_Z (2 - 1) / inject_Z 3 < 1 # 2)%Q.
Proof.
  exact (proj1 (C4_load_checked_before_insertion Z sample_hash
    {| OA._buckets := [None; Some (OA.mkHashEntry "a" 1 false); None];
       OA._capacity := 3; OA._size := 1 |}
    "b" 2
    {| OA._buckets := [None; Some (OA.mkHashEntry "a" 1 false);
                       Some (OA.mkHashEntry "b" 2 false)];
       OA._capacity := 3; OA._size := 2 |}
    (OA.reachable_run sample_hash (OA.__init__ 3) _ (Put "a" 1)
       (OA.reachable_init sample_hash 3) eq_refl)
    eq_refl)).
Defined.

(** ** Invariants of both maps *)

(** C5: in every state reachable from a constructed map by [put], [get],
    [contains_key], [remove], [clear] and [resize_table], no key is in two
    places (open addressing: no two slots hold the same key, tombstones
    included, so no two live entries do; chaining: no two nodes do), and
    the size field is the number of pairs that [get_keys_and_values]
    enumerates. *)
Theorem C5_one_place_per_key_and_size (V : Type) (hash : string -> Z) :
  (forall m : OA.HashMap (V:=V), OA.reachable hash m ->
     (forall i j e1 e2, OA._buckets m !! i = Some (Some e1) ->
        OA._buckets m !! j = Some (Some e2) ->
        OA.entry_key e1 = OA.entry_key e2 -> i = j) /\
     exists pairs, OA.get_keys_and_values m = Ok pairs /\
       NoDup pairs.*1 /\ OA._size m = Z.of_nat (length pairs)) /\
  (forall m : SC.HashMap (V:=V), SC.reachable hash m ->
     exists pairs, SC.get_keys_and_values m = Ok pairs /\
       NoDup pairs.*1 /\ SC._size m = Z.of_nat (length pairs)).
Proof.
  split.
  - intros m Hwf%reachable_wf. split.
    + intros i j e1 e2 Hi Hj Heq.
      pose proof (wf_key_unique hash m _ j _ e2 Hwf Hj eq_refl (wf_probe hash m Hwf j e2 Hj)).
      pose proof (wf_key_unique hash m _ i _ e1 Hwf Hi Heq (wf_probe hash m Hwf j e2 Hj)).
      lia.
    + exists (live_pairs (OA._buckets m)).
      split; [apply get_keys_and_values_spec, (wf_length hash m Hwf)|].
      split; [by apply (wf_NoDup hash)|apply (wf_size hash m Hwf)].
  - intros m Hwf%sc_reachable_wf. exists (entries (SC._buckets m)).
    split; [apply sc_get_keys_and_values_spec, (sc_wf_length hash m Hwf)|].
    split; [by apply (sc_wf_NoDup hash)|apply (sc_wf_size hash m Hwf)].
Qed.

Lemma C5_one_place_per_key_and_size_witness :
  (exists m : OA.HashMap (V:=Z),
     for_each (OA.run sample_hash) (OA.__init__ 5)
       [Put "a" 1; Put "b" 2; Put "a" 3] = Ok m /\
     OA.get_keys_and_values m = Ok [("a", 3); ("b", 2)] /\
     NoDup [("a", 3); ("b", 2)].*1 /\ OA._size m = 2 /\
     forall i j e1 e2, OA._buckets m !! i = Some (Some e1) ->
       OA._buckets m !! j = Some (Some e2) ->
       OA.entry_key e1 = OA.entry_key e2 -> i = j) /\
  (exists m : SC.HashMap (V:=Z),
     for_each (SC.run sample_hash) (SC.__init__ 5)
       [Put "a" 1; Put "b" 2; Put "a" 3] = Ok m /\
     SC.get_keys_and_values m = Ok [("a", 3); ("b", 2)] /\
     NoDup [("a", 3); ("b", 2)].*1 /\ SC._size m = 2).
Proof.
  split.
  - pose (m1 := {| OA._buckets := [None; None; Some (OA.mkHashEntry "a" 1 false);
                                   None; None];
                   OA._capacity := 5; OA._size := 1 |}).
    pose (m := {| OA._buckets := [None; None; Some (OA.mkHashEntry "a" 3 false);
                                  Some (OA.mkHashEntry "b" 2 false); None];
                  OA._capacity := 5; OA._size := 2 |}).
    assert (OA.reachable sample_hash m) as Hreach.
    { apply (OA.reachable_run sample_hash oa_ab m (Put "a" 3)); [|vm_compute; reflexivity].
      apply (OA.reachable_run sample_hash m1 oa_ab (Put "b" 2)); [|vm_compute; reflexivity].
      apply (OA.reachable_run sample_hash (OA.__init__ 5) m1 (Put "a" 1));
        [apply OA.reachable_init|vm_compute; reflexivity]. }
    destruct (proj1 (C5_one_place_per_key_and_size Z sample_hash) m Hreach)
      as (Hone & pairs & Hkv & Hnd & Hsize).
    assert (pairs = [("a", 3); ("b", 2)]) as ->
      by (vm_compute in Hkv; by injection Hkv).
    exists m. split; [vm_compute; reflexivity|]. split; [exact Hkv|].
    split; [exact Hnd|]. split; [exact Hsize|exact Hone].
  - pose (m1 := {| SC._buckets := [[]; []; [("a", 1)]; []; []];
                   SC._capacity := 5; SC._size := 1 |}).
    pose (m := {| SC._buckets := [[]; []; [("a", 3)]; [("b", 2)]; []];
                  SC._capacity := 5; SC._size := 2 |}).
    assert (SC.reachable sample_hash m) as Hreach.
    { apply (SC.reachable_run sample_hash sc_ab m (Put "a" 3)); [|vm_compute; reflexivity].
      apply (SC.reachable_run sample_hash m1 sc_ab (Put "b" 2)); [|vm_compute; reflexivity].
      apply (SC.reachable_run sample_hash (SC.__init__ 5) m1 (Put "a" 1));
        [apply SC.reachable_init|vm_compute; reflexivity]. }
    destruct (proj2 (C5_one_place_per_key_and_size Z sample_hash) m Hreach)
      as (pairs & Hkv & Hnd & Hsize).
    assert (pairs = [("a", 3); ("b", 2)]) as ->
      by (vm_compute in Hkv; by injection Hkv).
    exists m. split; [vm_compute; reflexivity|]. split; [exact Hkv|].
    split; [exact Hnd|exact Hsize].
Defined.

(** ** Resizing keeps the pairs *)

(** C2: on every reachable state, [resize_table] returns for every
    requested capacity, and the pairs that [get_keys_and_values] enumerates
    afterwards are a permutation of those it enumerated before: none lost,
    none duplicated.  The automatic resize of the open-addressing [put] is
    the call [resize_table (2 * capacity)]. *)
Theorem C2_resize_keeps_pairs (V : Type) (hash : string -> Z) :
  (forall (m : OA.HashMap (V:=V)) (new_capacity : Z), OA.reachable hash m ->
     exists before m' after,
       OA.get_keys_and_values m = Ok before /\
       OA.resize_table hash m new_capacity = Ok m' /\
       OA.get_keys_and_values m' = Ok after /\ after ≡ₚ before) /\
  (forall (m : SC.HashMap (V:=V)) (new_capacity : Z), SC.reachable hash m ->
     exists before m' after,
       SC.get_keys_and_values m = Ok before /\
       SC.resize_table hash m new_capacity = Ok m' /\
       SC.get_keys_and_values m' = Ok after /\ after ≡ₚ before).
Proof.
  split.
  - intros m n Hwf%reachable_wf.
    destruct (resize_table_spec hash m n Hwf) as (m' & Hre & Hwf' & Hperm & _).
    exists (live_pairs (OA._buckets m)), m', (live_pairs (OA._buckets m')).
    split; [apply get_keys_and_values_spec, (wf_length hash m Hwf)|]. split; [done|].
    split; [apply get_keys_and_values_spec, (wf_length hash m' Hwf')|done].
  - intros m n Hwf%sc_reachable_wf.
    destruct (sc_resize_table_spec hash m n Hwf) as (m' & Hre & Hwf' & Hperm & _).
    exists (entries (SC._buckets m)), m', (entries (SC._buckets m')).
    split; [apply sc_get_keys_and_values_spec, (sc_wf_length hash m Hwf)|]. split; [done|].
    split; [apply sc_get_keys_and_values_spec, (sc_wf_length hash m' Hwf')|done].
Qed.

Lemma C2_resize_keeps_pairs_witness :
  (exists m' after,
     OA.get_keys_and_values oa_ab = Ok [("a", 1); ("b", 2)] /\
     OA.resize_table sample_hash oa_ab 7 = Ok m' /\ OA._capacity m' = 7 /\
     OA.get_keys_and_values m' = Ok after /\ after ≡ₚ [("a", 1); ("b", 2)]) /\
  (exists m' after,
     SC.get_keys_and_values sc_ab = Ok [("a", 1); ("b", 2)] /\
     SC.resize_table sample_hash sc_ab 7 = Ok m' /\ SC._capacity m' = 7 /\
     SC.get_keys_and_values m' = Ok after /\ after ≡ₚ [("a", 1); ("b", 2)]).
Proof.
  split.
  - pose (m1 := {| OA._buckets := [None; None; Some (OA.mkHashEntry "a" 1 false);
                                   None; None];
                   OA._capacity := 5; OA._size := 1 |}).
    assert (OA.reachable sample_hash oa_ab) as Hreach.
    { apply (OA.reachable_run sample_hash m1 oa_ab (Put "b" 2)); [|vm_compute; reflexivity].
      apply (OA.reachable_run sample_hash (OA.__init__ 5) m1 (Put "a" 1));
        [apply OA.reachable_init|vm_compute; reflexivity]. }
    destruct (proj1 (C2_resize_keeps_pairs Z sample_hash) oa_ab 7 Hreach)
      as (before & m' & after & Hbefore & Hre & Hafter & Hperm).
    assert (before = [("a", 1); ("b", 2)]) as ->
      by (vm_compute in Hbefore; by injection Hbefore).
    exists m', after. split; [exact Hbefore|]. split; [exact Hre|].
    split; [|split; [exact Hafter|exact Hperm]].
    vm_compute in Hre. injection Hre as <-. reflexivity.
  - pose (m1 := {| SC._buckets := [[]; []; [("a", 1)]; []; []];
                   SC._capacity := 5; SC._size := 1 |}).
    assert (SC.reachable sample_hash sc_ab) as Hreach.
    { apply (SC.reachable_run sample_hash m1 sc_ab (Put "b" 2)); [|vm_compute; reflexivity].
      apply (SC.reachable_run sample_hash (SC.__init__ 5) m1 (Put "a" 1));
        [apply SC.reachable_init|vm_compute; reflexivity]. }
    destruct (proj2 (C2_resize_keeps_pairs Z sample_hash) sc_ab 7 Hreach)
      as (before & m' & after & Hbefore & Hre & Hafter & Hperm).
    assert (before = [("a", 1); ("b", 2)]) as ->
      by (vm_compute in Hbefore; by injection Hbefore).
    exists m', after. split; [exact Hbefore|]. split; [exact Hre|].
    split; [|split; [exact Hafter|exact Hperm]].
    vm_compute in Hre. injection Hre as <-. reflexivity.
Defined.

(** ** A [get] after the last [put] of a key *)

Lemma _next_prime_positive (n : Z) : 0 <= n -> 0 < _next_prime n.
Proof.
  intros Hn. destruct (_next_prime_total n) as (k & Hk & -> & _).
  destruct (Z.eqb_spec (n mod 2) 0) as [H0|H0]; [lia|].
  destruct (decide (n = 0)) as [->|]; [done|lia].
Qed.

Lemma oa_track {V : Type} (hash : string -> Z) (key : string) (cs : list (call V))
    (m m' : OA.HashMap (V:=V)) (written : option V) :
  wf hash m -> for_each (OA.run hash) m cs = Ok m' ->
  (forall v, written = Some v -> (key, v) ∈ live_pairs (OA._buckets m)) ->
  forall v, foldl (track key) written cs = Some v ->
            (key, v) ∈ live_pairs (OA._buckets m').
Proof.
  revert m written. induction cs as [|c cs IH]; intros m written Hwf Hrun Hm; simpl in *.
  { by injection Hrun as <-. }
  destruct (OA.run hash m c) as [m1| |] eqn:Hc; simpl in Hrun; [|done..].
  apply (IH m1); [by eapply run_wf|done|]. clear IH Hrun. intros v Hv.
  destruct c as [k v0|k|k|k| |n]; simpl in Hc, Hv.
  - destruct (put_spec hash m k v0 m1 Hwf Hc) as (_ & _ & _ & -> & _).
    destruct (decide (k = key)) as [->|Hne]; [injection Hv as ->; by left|].
    right. apply list_elem_of_filter. split; [done|by apply Hm].
  - destruct (OA.get hash m k); simpl in Hc; [|done..]. injection Hc as <-. by apply Hm.
  - destruct (OA.contains_key hash m k); simpl in Hc; [|done..]. injection Hc as <-.
    by apply Hm.
  - destruct (remove_spec hash m k m1 Hwf Hc) as (_ & _ & -> & _).
    destruct (decide (k = key)) as [->|Hne]; [done|].
    apply list_elem_of_filter. split; [done|by apply Hm].
  - done.
  - destruct (resize_table_spec hash m n Hwf) as (m2 & Hre & _ & Hperm & _).
    rewrite Hre in Hc. injection Hc as <-. rewrite Hperm. by apply Hm.
Qed.

Lemma oa_writes_return {V : Type} (hash : string -> Z) (cs : list (call V))
    (m : OA.HashMap (V:=V)) :
  wf hash m -> no_tombstone (OA._buckets m) -> 0 < OA._capacity m ->
  Forall is_write cs -> exists m', for_each (OA.run hash) m cs = Ok m'.
Proof.
  intros Hwf Hnt Hpos Hcs. revert m Hwf Hnt Hpos.
  induction Hcs as [|c cs Hc _ IH]; intros m Hwf Hnt Hpos; [by exists m|].
  destruct c as [k v0|k|k|k| |n]; try done; simpl.
  - destruct (put_total hash m k v0 Hwf Hnt Hpos) as [m1 Hput]. rewrite Hput. simpl.
    destruct (put_spec hash m k v0 m1 Hwf Hput) as (Hwf1 & Hpos1 & _ & _ & _ & _ & Hnt1).
    apply IH; [done|by apply Hnt1|done].
  - destruct (resize_table_spec hash m n Hwf) as (m1 & -> & Hwf1 & _ & Hnoop & Hnew).
    simpl. destruct (Z.lt_ge_cases n (OA._size m)) as [Hlt|Hge].
    + rewrite (Hnoop Hlt). by apply IH.
    + destruct (Hnew Hge) as [Hnt1 Hcap]. pose proof (wf_size hash m Hwf).
      destruct (normalize_spec n) as [Hprime%Z.prime_ge_2 _]; [lia|].
      apply IH; [done|done|lia].
Qed.

Lemma sc_track {V : Type} (hash : string -> Z) (key : string) (cs : list (call V))
    (m m' : SC.HashMap (V:=V)) (written : option V) :
  sc_wf hash m -> for_each (SC.run hash) m cs = Ok m' ->
  (forall v, written = Some v -> (key, v) ∈ entries (SC._buckets m)) ->
  forall v, foldl (track key) written cs = Some v ->
            (key, v) ∈ entries (SC._buckets m').
Proof.
  revert m written. induction cs as [|c cs IH]; intros m written Hwf Hrun Hm; simpl in *.
  { by injection Hrun as <-. }
  destruct (SC.run hash m c) as [m1| |] eqn:Hc; simpl in Hrun; [|done..].
  apply (IH m1); [by eapply sc_run_wf|done|]. clear IH Hrun. intros v Hv.
  destruct c as [k v0|k|k|k| |n]; simpl in Hc, Hv.
  - destruct (sc_put_spec hash m k v0 m1 Hwf Hc) as (_ & _ & ->).
    destruct (decide (k = key)) as [->|Hne]; [injection Hv as ->; by left|].
    right. apply list_elem_of_filter. split; [done|by apply Hm].
  - destruct (SC.get hash m k); simpl in Hc; [|done..]. injection Hc as <-. by apply Hm.
  - destruct (SC.contains_key hash m k); simpl in Hc; [|done..]. injection Hc as <-.
    by apply Hm.
  - destruct (sc_remove_spec hash m k m1 Hwf Hc) as (_ & _ & -> & _).
    destruct (decide (k = key)) as [->|Hne]; [done|].
    apply list_elem_of_filter. split; [done|by apply Hm].
  - done.
  - destruct (sc_resize_table_spec hash m n Hwf) as (m2 & Hre & _ & Hperm & _).
    rewrite Hre in Hc. injection Hc as <-. rewrite Hperm. by apply Hm.
Qed.

Lemma sc_writes_return {V : Type} (hash : string -> Z) (cs : list (call V))
    (m : SC.HashMap (V:=V)) :
  sc_wf hash m -> 0 < SC._capacity m ->
  Forall is_write cs -> exists m', for_each (SC.run hash) m cs = Ok m'.
Proof.
  intros Hwf Hpos Hcs. revert m Hwf Hpos.
  induction Hcs as [|c cs Hc _ IH]; intros m Hwf Hpos; [by exists m|].
  destruct c as [k v0|k|k|k| |n]; try done; simpl.
  - destruct (sc_put_total hash m k v0 Hwf Hpos) as [m1 Hput]. rewrite Hput. simpl.
    destruct (sc_put_spec hash m k v0 m1 Hwf Hput) as (Hwf1 & Hcap1 & _).
    apply IH; [done|lia].
  - destruct (sc_resize_table_spec hash m n Hwf) as (m1 & -> & Hwf1 & _ & Hnoop & Hnew).
    simpl. destruct (Z.lt_ge_cases n 1) as [Hlt|Hge].
    + rewrite (Hnoop Hlt). by apply IH.
    + destruct (normalize_spec n) as [Hprime%Z.prime_ge_2 _]; [lia|].
      apply IH; [done|]. rewrite (Hnew Hge). lia.
Qed.

(** C1: on both maps, after any sequence of calls that return, a [get] of
    a key returns the value of the last [put] of that key, provided no
    [remove] of the key and no [clear] came after that [put]; this holds
    from every reachable state and across the automatic and the explicit
    resizes.  On a map constructed with a requested capacity that is not
    negative, every sequence of [put] and [resize_table] calls does
    return. *)
Theorem C1_get_after_last_put (V : Type) (hash : string -> Z) :
  (forall (m0 m : OA.HashMap (V:=V)) (cs : list (call V)) (key : string) (v : V),
     OA.reachable hash m0 -> for_each (OA.run hash) m0 cs = Ok m ->
     last_put cs key = Some v -> OA.get hash m key = Ok (Some v)) /\
  (forall (capacity : Z) (cs : list (call V)),
     0 <= capacity -> Forall is_write cs ->
     exists m, for_each (OA.run hash) (OA.__init__ capacity) cs = Ok m) /\
  (forall (m0 m : SC.HashMap (V:=V)) (cs : list (call V)) (key : string) (v : V),
     SC.reachable hash m0 -> for_each (SC.run hash) m0 cs = Ok m ->
     last_put cs key = Some v -> SC.get hash m key = Ok (Some v)) /\
  (forall (capacity : Z) (cs : list (call V)),
     0 <= capacity -> Forall is_write cs ->
     exists m, for_each (SC.run hash) (SC.__init__ capacity) cs = Ok m).
Proof.
  split; [|split; [|split]].
  - intros m0 m cs key v Hwf%reachable_wf Hrun Hlast.
    assert (wf hash m) as Hwfm.
    { clear Hlast. revert m0 Hwf Hrun. induction cs as [|c cs IH]; intros m0 Hwf Hrun;
        simpl in Hrun; [by injection Hrun as <-|].
      destruct (OA.run hash m0 c) as [m1| |] eqn:Hc; simpl in Hrun; [|done..].
      apply (IH m1); [by eapply run_wf|done]. }
    apply get_spec; [done|]. by apply (oa_track hash key cs m0 m None).
  - intros capacity cs Hcap Hcs. apply oa_writes_return; [apply wf_init| |simpl|done].
    + apply no_tombstone_replicate.
    + by apply _next_prime_positive.
  - intros m0 m cs key v Hwf%sc_reachable_wf Hrun Hlast.
    assert (sc_wf hash m) as Hwfm.
    { clear Hlast. revert m0 Hwf Hrun. induction cs as [|c cs IH]; intros m0 Hwf Hrun;
        simpl in Hrun; [by injection Hrun as <-|].
      destruct (SC.run hash m0 c) as [m1| |] eqn:Hc; simpl in Hrun; [|done..].
      apply (IH m1); [by eapply sc_run_wf|done]. }
    apply sc_get_spec; [done|]. by apply (sc_track hash key cs m0 m None).
  - intros capacity cs Hcap Hcs. apply sc_writes_return; [apply sc_wf_init|simpl|done].
    by apply _next_prime_positive.
Qed.

Lemma C1_get_after_last_put_witness :
  (exists m, for_each (OA.run sample_hash) (OA.__init__ 5)
               [Put "a" 1; Put "b" 2; Put "a" 3] = Ok m /\
     OA.get sample_hash m "a" = Ok (Some 3)) /\
  (exists m, for_each (SC.run sample_hash) (SC.__init__ 5)
               [Put "a" 1; Put "b" 2; Put "a" 3] = Ok m /\
     SC.get sample_hash m "a" = Ok (Some 3)).
Proof.
  pose proof (C1_get_after_last_put Z sample_hash) as (Hoa & Hoa_ret & Hsc & Hsc_ret).
  split.
  - destruct (Hoa_ret 5 [Put "a" 1; Put "b" 2; Put "a" 3] ltac:(lia)) as [m Hm].
    { repeat constructor. }
    exists m. split; [exact Hm|].
    exact (Hoa _ m _ "a" 3 (OA.reachable_init sample_hash 5) Hm eq_refl).
  - destruct (Hsc_ret 5 [Put "a" 1; Put "b" 2; Put "a" 3] ltac:(lia)) as [m Hm].
    { repeat constructor. }
    exists m. split; [exact Hm|].
    exact (Hsc _ m _ "a" 3 (SC.reachable_init sample_hash 5) Hm eq_refl).
Defined.

(** ** [remove] *)

(** What [remove] does when it returns, on both maps: the key is gone,
    the size drops by one for a key that was present, and the state is
    unchanged for a key that was absent. *)
Lemma remove_returns (V : Type) (hash : string -> Z) :
  (forall (m m' : OA.HashMap (V:=V)) key, OA.reachable hash m ->
     OA.remove hash m key = Ok m' ->
     ((exists v, OA.get hash m key = Ok (Some v)) ->
        OA._size m' = OA._size m - 1 /\ OA.contains_key hash m' key = Ok false) /\
     (key ∉ (live_pairs (OA._buckets m)).*1 -> m' = m)) /\
  (forall (m m' : SC.HashMap (V:=V)) key, SC.reachable hash m ->
     SC.remove hash m key = Ok m' ->
     ((exists v, SC.get hash m key = Ok (Some v)) ->
        SC._size m' = SC._size m - 1 /\ SC.contains_key hash m' key = Ok false) /\
     (key ∉ (entries (SC._buckets m)).*1 -> m' = m)).
Proof.
  split.
  - intros m m' key Hwf%reachable_wf Hrem.
    destruct (remove_spec hash m key m' Hwf Hrem) as (Hwf' & _ & _ & Hsize & Hsame).
    split; [|done]. intros [v Hget%get_Some_inv]; [|done].
    assert (key ∈ (live_pairs (OA._buckets m)).*1) as Hin
      by (apply list_elem_of_fmap; by exists (key, v)).
    split; [by apply Hsize|].
    apply elem_of_live_pairs in Hget as (i & e & Hi & Ht & [= -> ->]).
    unfold OA.remove in Hrem. rewrite (wf_probe hash m Hwf i e Hi) in Hrem. simpl in Hrem.
    rewrite (proj2 (da_get_Ok _ _ (Some e))) in Hrem by (rewrite Nat2Z.id; split; [lia|done]).
    simpl in Hrem. rewrite Ht in Hrem. simpl in Hrem. injection Hrem as <-.
    apply (contains_key_tombstone hash _ i (OA.mkHashEntry (OA.entry_key e) (OA.entry_value e) true));
      [done| |done].
    simpl. unfold da_set. rewrite Nat2Z.id. apply list_lookup_insert_eq.
    by eapply lookup_lt_Some.
  - intros m m' key Hwf%sc_reachable_wf Hrem.
    destruct (sc_remove_spec hash m key m' Hwf Hrem) as (_ & _ & _ & Hin & Hsame).
    split; [|done]. intros [v Hget]. apply Hin.
    unfold SC.get in Hget.
    destruct (SC.bucket_of hash m key) as [[index bucket]| |] eqn:Hb; simpl in Hget; [|done..].
    apply bucket_of_Ok in Hb as (_ & _ & Hi).
    destruct (SC.ll_contains bucket key) as [node|] eqn:Hc; [|done].
    apply ll_contains_Some in Hc as [Hn <-].
    apply list_elem_of_fmap. exists node. split; [done|]. apply elem_of_entries. eauto.
Qed.

(** C7 fails on the open-addressing map: after two insertions into a
    table of capacity 3, the probe for an absent key whose sequence only
    meets the two occupied slots goes round forever, whatever the number of
    iterations allowed, and [remove] never returns. *)
Theorem C7_remove_absent_key_never_returns :
  let m := {| OA._buckets := [None; Some (OA.mkHashEntry "a" 1 false);
                              Some (OA.mkHashEntry "b" 2 false)];
              OA._capacity := 3; OA._size := 2 |} in
  for_each (OA.run sample_hash) (OA.__init__ (V:=Z) 3)
    [Put "a" 1; Put "b" 2] = Ok m /\
  OA.reachable sample_hash m /\
  OA.get_keys_and_values m = Ok [("a", 1); ("b", 2)] /\
  (forall fuel : nat,
     OA.probe fuel (OA._buckets m) 3 "d" (sample_hash "d" mod 3) 1 (sample_hash "d" mod 3)
     = Diverge) /\
  OA.remove sample_hash m "d" = Diverge.
Proof.
  intros m. split; [reflexivity|]. split; [|split; [reflexivity|split; [|reflexivity]]].
  - apply (OA.reachable_run sample_hash
             {| OA._buckets := [None; Some (OA.mkHashEntry "a" 1 false); None];
                OA._capacity := 3; OA._size := 1 |} m (Put "b" 2)); [|reflexivity].
    apply (OA.reachable_run sample_hash (OA.__init__ 3) _ (Put "a" 1)); [|reflexivity].
    apply OA.reachable_init.
  - intros fuel.
    destruct (get_bucket_index_cases sample_hash m "d" ltac:(done))
      as [(n & _ & _ & _ & Hex)|[Hall _]].
    { change (OA.get_bucket_index sample_hash m "d") with (@Diverge Z) in Hex.
      unfold examine, da_get in Hex. by repeat case_match. }
    rewrite <- (visit_0 sample_hash "d" 3 ltac:(done)) at 2.
    apply (probe_all_pass fuel _ 3 "d" _ 0). intros i Hi. apply Hall. lia.
Qed.

(** ** Requests that [resize_table] rejects, and the capacity it takes *)

(** C8: [resize_table] returns with the map unchanged when the requested
    capacity is below the size, which on a reachable state is the number of
    live pairs (open addressing), or below 1 (chaining).  Otherwise the
    table is rebuilt at the requested capacity if [_is_prime] accepts it
    and at [_next_prime] of it if not, a prime at or above the request: the
    open-addressing map reinserts its pairs into an empty table of that
    capacity, and the chaining map ends with that capacity. *)
Theorem C8_resize_table_rejects_or_normalizes (V : Type) (hash : string -> Z)
    (new_capacity : Z) :
  (forall m : OA.HashMap (V:=V),
     new_capacity < OA._size m -> OA.resize_table hash m new_capacity = Ok m) /\
  (forall m : OA.HashMap (V:=V), OA.reachable hash m ->
     exists pairs, OA.get_keys_and_values m = Ok pairs /\
       OA._size m = Z.of_nat (length pairs) /\
       (OA._size m <= new_capacity ->
        OA.resize_table hash m new_capacity =
        for_each (fun m '(key, val) => OA.put hash m key val)
          (OA.clear {| OA._buckets := OA._buckets m;
                       OA._capacity := normalize new_capacity;
                       OA._size := OA._size m |})
          pairs)) /\
  (forall m : SC.HashMap (V:=V),
     new_capacity < 1 -> SC.resize_table hash m new_capacity = Ok m) /\
  (forall m : SC.HashMap (V:=V), SC.reachable hash m -> 1 <= new_capacity ->
     exists m', SC.resize_table hash m new_capacity = Ok m' /\
       SC._capacity m' = normalize new_capacity) /\
  normalize new_capacity =
    (if _is_prime new_capacity then new_capacity else _next_prime new_capacity) /\
  (0 <= new_capacity ->
   Z.prime (normalize new_capacity) /\ new_capacity <= normalize new_capacity).
Proof.
  split; [|split; [|split; [|split; [|split]]]].
  - intros m Hlt. unfold OA.resize_table. simpl.
    by destruct (Z.ltb_spec new_capacity (OA._size m)); [|lia].
  - intros m Hwf%reachable_wf. exists (live_pairs (OA._buckets m)).
    pose proof (get_keys_and_values_spec m (wf_length hash m Hwf)) as Hkv.
    split; [done|]. split; [apply (wf_size hash m Hwf)|]. intros Hge.
    rewrite resize_table_unfold by done.
    destruct (Z.ltb_spec new_capacity (OA._size m)); [lia|]. by rewrite Hkv.
  - intros m Hlt. unfold SC.resize_table.
    by destruct (Z.ltb_spec new_capacity 1); [|lia].
  - intros m Hwf%sc_reachable_wf Hge.
    destruct (sc_resize_table_spec hash m new_capacity Hwf) as (m' & Hre & _ & _ & _ & Hcap).
    exists m'. split; [done|by apply Hcap].
  - unfold normalize. by destruct (_is_prime new_capacity).
  - apply normalize_spec.
Qed.

Lemma C8_resize_table_rejects_or_normalizes_witness :
  OA.resize_table sample_hash
    {| OA._buckets := [None; Some (OA.mkHashEntry "a" 1 false); None];
       OA._capacity := 3; OA._size := 1 |} 0
  = Ok {| OA._buckets := [None; Some (OA.mkHashEntry "a" 1 false); None];
          OA._capacity := 3; OA._size := 1 |} /\
  SC.resize_table sample_hash (SC.__init__ (V:=Z) 11) 0 = Ok (SC.__init__ 11) /\
  (Z.prime (normalize 4) /\ 4 <= normalize 4).
Proof.
  pose proof (C8_resize_table_rejects_or_normalizes Z sample_hash 0) as (Hoa & _ & Hsc & _).
  pose proof (C8_resize_table_rejects_or_normalizes Z sample_hash 4) as (_ & _ & _ & _ & _ & Hn).
  split; [apply Hoa; reflexivity|]. split; [apply Hsc; reflexivity|]. apply Hn. lia.
Defined.

(** ** Nested doubling inside [resize_table] *)

Lemma reachable_for_each {V : Type} (hash : string -> Z) (cs : list (call V))
    (m m' : OA.HashMap (V:=V)) :
  OA.reachable hash m -> for_each (OA.run hash) m cs = Ok m' -> OA.reachable hash m'.
Proof.
  revert m. induction cs as [|c cs IH]; intros m Hreach Hrun; simpl in Hrun.
  - by injection Hrun as <-.
  - destruct (OA.run hash m c) as [m1| |] eqn:Hc; simpl in Hrun; [|done..].
    apply (IH m1); [|done]. by eapply OA.reachable_run.
Qed.

(** C9: the open-addressing [resize_table] reinserts every saved pair with
    [put], and [put] starts with its load check, resizing to twice the
    capacity when the load is at least 0.5.  So the check can fire during
    the reinsertion: resizing a table of 5 pairs to the requested capacity
    5, which is accepted and already prime, ends with capacity 11. *)
Theorem C9_resize_table_nested_doubling :
  (forall (V : Type) (hash : string -> Z) (m : OA.HashMap (V:=V)) (new_capacity : Z),
     OA.reachable hash m -> OA._size m <= new_capacity ->
     exists pairs, OA.get_keys_and_values m = Ok pairs /\
       OA.resize_table hash m new_capacity =
       for_each (fun m '(key, val) => OA.put hash m key val)
         (OA.clear {| OA._buckets := OA._buckets m;
                      OA._capacity := normalize new_capacity;
                      OA._size := OA._size m |})
         pairs) /\
  (forall (V : Type) (hash : string -> Z) (m : OA.HashMap (V:=V)) key value,
     OA.put hash m key value =
     (load ← OA.table_load m;
      m ← (if Qle_bool (1 # 2) load
           then OA.resize_table hash m (OA._capacity m * 2) else Ok m);
      put_at hash m key value)) /\
  (exists m m' : OA.HashMap (V:=Z),
     OA.reachable sample_hash m /\ 0 < OA._size m /\
     OA.resize_table sample_hash m (OA._size m) = Ok m' /\
     normalize (OA._size m) = 5 /\ OA._capacity m' = 11 /\
     normalize (OA._size m) < OA._capacity m').
Proof.
  split; [|split].
  - intros V hash m n Hwf%reachable_wf Hge. exists (live_pairs (OA._buckets m)).
    pose proof (get_keys_and_values_spec m (wf_length hash m Hwf)) as Hkv.
    split; [done|]. rewrite resize_table_unfold by done.
    destruct (Z.ltb_spec n (OA._size m)); [lia|]. by rewrite Hkv.
  - intros V hash m key value. apply put_with_unfold.
  - eexists. eexists. split; [|split; [|split; [|split; [|split]]]].
    + apply (reachable_for_each sample_hash
               [Put "a" 1; Put "b" 2; Put "c" 3; Put "d" 4; Put "e" 5]
               (OA.__init__ 11)); [apply OA.reachable_init|].
      vm_compute. reflexivity.
    + reflexivity.
    + vm_compute. reflexivity.
    + reflexivity.
    + reflexivity.
    + reflexivity.
Qed.

(** ** The concrete scenarios of the specification *)

(** Open addressing, requested capacity 5: [put("a", 1)], [put("b", 2)],
    [put("a", 3)], then [get("a")] is 3, the size is 2 and [get("c")] finds
    nothing. *)
Example oa_scenario :
  exists m, for_each (OA.run sample_hash) (OA.__init__ 5)
              [Put "a" 1; Put "b" 2; Put "a" 3] = Ok m /\
    OA._capacity m = 5 /\ OA.get sample_hash m "a" = Ok (Some 3) /\
    OA.get_size m = 2 /\ OA.get sample_hash m "c" = Ok None.
Proof. eexists. split; [vm_compute; reflexivity|]. by vm_compute. Qed.

(** Chaining, requested capacity 5: [put("x", 10)], [remove("x")], then
    [contains_key("x")] is false, the size is 0 and the chain of the bucket
    is empty. *)
Example sc_scenario :
  exists m, for_each (SC.run sample_hash) (SC.__init__ 5)
              [Put "x" 10; Remove "x"] = Ok m /\
    SC.contains_key sample_hash m "x" = Ok false /\ SC.get_size m = 0 /\
    SC._buckets m !! Z.to_nat (sample_hash "x" mod 5) = Some [] /\
    SC.empty_buckets m = Ok 5.
Proof. eexists. split; [vm_compute; reflexivity|]. by vm_compute. Qed.

(** Quadratic probe collision, capacity 5: ["a"] and ["f"] both hash to
    index 2, and the second key lands at [(2 + 1) mod 5]; a third colliding
    key, ["k"], lands at [(2 + 4) mod 5]. *)
Example oa_collision_scenario :
  exists m, for_each (OA.run sample_hash) (OA.__init__ 11)
              [ResizeTable 5; Put "a" 1; Put "f" 2] = Ok m /\
    sample_hash "a" mod 5 = 2 /\ sample_hash "f" mod 5 = 2 /\
    sample_hash "k" mod 5 = 2 /\
    OA._capacity m = 5 /\
    OA.get_bucket_index sample_hash m "a" = Ok 2 /\
    OA.get_bucket_index sample_hash m "f" = Ok 3 /\
    OA.get_bucket_index sample_hash m "k" = Ok 1 /\
    OA.empty_buckets m = Ok 3.
Proof. eexists. split; [vm_compute; reflexivity|]. by vm_compute. Qed.

(** * Further properties of the open-addressing map *)

Lemma da_get_nil {A : Type} (index : Z) : da_get (@nil A) index = Raise.
Proof.
  unfold da_get. destruct (Z.leb_spec 0 index) as [H1|H1]; [|done].
  destruct (Z.ltb_spec index (Z.of_nat (length (@nil A)))) as [H2|H2]; [|done].
  simpl in H2. lia.
Qed.

Section oa_more.
Import OA.
Context {V : Type}.
Variable hash : string -> Z.
Implicit Types (m : HashMap (V:=V)) (buckets : list (option (HashEntry (V:=V)))).
Implicit Types (key : string) (e : HashEntry (V:=V)) (slot : option (HashEntry (V:=V))).

(** The probe only looks at which slots are occupied and by which keys. *)
Lemma get_bucket_index_ext m m' key :
  _capacity m' = _capacity m ->
  (forall i, passes (_buckets m') key i = passes (_buckets m) key i) ->
  (forall i, examine (_buckets m') i = examine (_buckets m) i) ->
  get_bucket_index hash m' key = get_bucket_index hash m key.
Proof.
  intros Hcap Hpass Hex.
  destruct (decide (_capacity m = 0)) as [H0|Hc].
  { unfold get_bucket_index. by rewrite Hcap, H0. }
  destruct (get_bucket_index_cases hash m key Hc) as [(n & Hn & Hbefore & Hat & ->)|[Hall ->]].
  - rewrite (get_bucket_index_first hash m' key n); rewrite ?Hcap; [by rewrite Hex|done|lia|..].
    + intros i Hi. rewrite Hpass. by apply Hbefore.
    + by rewrite Hpass.
  - destruct (get_bucket_index_cases hash m' key) as [(n & Hn & _ & Hat & _)|[_ ->]];
      [by rewrite Hcap| |done].
    rewrite Hcap, Hpass, Hall in Hat; [done|lia].
Qed.

(** Overwriting an entry by an entry with the same key changes no probe. *)
Lemma get_bucket_index_same_key m (r : Z) e e' (size' : Z) key :
  0 <= r -> _buckets m !! Z.to_nat r = Some (Some e) -> entry_key e' = entry_key e ->
  get_bucket_index hash
    {| _buckets := da_set (_buckets m) r (Some e');
       _capacity := _capacity m; _size := size' |} key
  = get_bucket_index hash m key.
Proof.
  intros Hr Hslot Hkey. pose proof (lookup_lt_Some _ _ _ Hslot) as Hlen.
  apply get_bucket_index_ext; [done|..]; simpl; intros i.
  - destruct (decide (i = r)) as [->|Hne].
    + rewrite passes_set_eq by lia. unfold passes.
      rewrite (proj2 (da_get_Ok _ _ (Some e))) by done. by rewrite Hkey.
    + by rewrite passes_set_ne.
  - unfold examine. destruct (decide (i = r)) as [->|Hne].
    + rewrite da_get_set_eq by lia. by rewrite (proj2 (da_get_Ok _ _ (Some e))).
    + by rewrite da_get_set_ne.
Qed.

Lemma remove_get_other m key m' key' :
  remove hash m key = Ok m' -> key' <> key -> get hash m' key' = get hash m key'.
Proof.
  intros Hrem Hne. unfold remove in Hrem.
  destruct (get_bucket_index hash m key) as [r| |] eqn:Hget; simpl in Hrem; [|done..].
  assert (_capacity m <> 0) as Hc.
  { intros H0. unfold get_bucket_index in Hget. by rewrite H0 in Hget. }
  destruct (get_bucket_index_Ok hash m key r Hc Hget)
    as (n & slot & _ & _ & _ & _ & Hr & Hslot & Hkind).
  rewrite (proj2 (da_get_Ok _ _ slot)) in Hrem by done. simpl in Hrem.
  destruct Hkind as [->|(e & -> & He)]; [by injection Hrem as <-|].
  destruct (is_tombstone e) eqn:Ht; simpl in Hrem; injection Hrem as <-; [done|].
  unfold get. rewrite (get_bucket_index_same_key m r e) by done.
  destruct (get_bucket_index hash m key') as [r'| |] eqn:Hget'; simpl; [|done..].
  assert (r' <> r) as Hrr.
  { intros ->. destruct (get_bucket_index_Ok hash m key' r Hc Hget')
      as (_ & slot' & _ & _ & _ & _ & _ & Hslot' & Hkind').
    rewrite Hslot in Hslot'. injection Hslot' as <-.
    destruct Hkind' as [|(e0 & [= <-] & He0)]; [done|]. congruence. }
  by rewrite da_get_set_ne.
Qed.

Lemma remove_get_same m key m' :
  remove hash m key = Ok m' ->
  get hash m' key = Ok None /\ contains_key hash m' key = Ok false.
Proof.
  intros Hrem. unfold remove in Hrem.
  destruct (get_bucket_index hash m key) as [r| |] eqn:Hget; simpl in Hrem; [|done..].
  assert (_capacity m <> 0) as Hc.
  { intros H0. unfold get_bucket_index in Hget. by rewrite H0 in Hget. }
  destruct (get_bucket_index_Ok hash m key r Hc Hget)
    as (n & slot & _ & _ & _ & _ & Hr & Hslot & Hkind).
  pose proof (lookup_lt_Some _ _ _ Hslot) as Hlen.
  rewrite (proj2 (da_get_Ok _ _ slot)) in Hrem by done. simpl in Hrem.
  assert (live slot = None -> m' = m ->
          get hash m' key = Ok None /\ contains_key hash m' key = Ok false) as Hsame.
  { intros Hdead ->. unfold get, contains_key. rewrite Hget. simpl.
    rewrite (proj2 (da_get_Ok _ _ slot)) by done. simpl.
    destruct slot as [e|]; [|by destruct (_size m =? 0)].
    simpl in Hdead. destruct (is_tombstone e); [|done]. by destruct (_size m =? 0). }
  destruct Hkind as [->|(e & -> & He)]; [apply Hsame; [done|congruence]|].
  destruct (is_tombstone e) eqn:Ht; simpl in Hrem;
    [apply Hsame; [simpl; by rewrite Ht|congruence]|].
  injection Hrem as <-. unfold get, contains_key.
  rewrite (get_bucket_index_same_key m r e) by done. rewrite Hget. simpl.
  rewrite da_get_set_eq by lia. simpl. by destruct (_ =? 0).
Qed.

(** Calls on a key that is in the map return, whatever the tombstones. *)
Lemma present_key_returns m key (v0 value : V) :
  wf hash m -> (key, v0) ∈ live_pairs (_buckets m) ->
  (exists m', put hash m key value = Ok m') /\
  (exists m', remove hash m key = Ok m') /\
  contains_key hash m key = Ok true.
Proof.
  intros Hwf Hin.
  pose proof Hin as (i & e & Hi & Ht & [= Hk Hv])%elem_of_live_pairs.
  pose proof (wf_probe hash m Hwf i e Hi) as Hget. rewrite <- Hk in Hget.
  pose proof (lookup_lt_Some _ _ _ Hi) as Hlt.
  assert (0 < _capacity m) as Hpos by (pose proof (wf_length hash m Hwf); lia).
  split; [|split].
  - destruct (put_with_cases hash (resize_table hash) m key value
                (resize_table_ok hash) Hwf Hpos) as (m1 & Heq & Hwf1 & _ & _ & Hperm & _).
    unfold put. rewrite Heq. rewrite <- Hperm in Hin.
    apply elem_of_live_pairs in Hin as (i1 & e1 & Hi1 & Ht1 & [= Hk1 Hv1]).
    pose proof (wf_probe hash m1 Hwf1 i1 e1 Hi1) as Hget1. rewrite <- Hk1 in Hget1.
    unfold put_at. rewrite Hget1. simpl.
    rewrite (proj2 (da_get_Ok _ _ (Some e1))) by (rewrite Nat2Z.id; split; [lia|done]).
    simpl. rewrite Ht1. simpl. by eexists.
  - unfold remove. rewrite Hget. simpl.
    rewrite (proj2 (da_get_Ok _ _ (Some e))) by (rewrite Nat2Z.id; split; [lia|done]).
    simpl. rewrite Ht. simpl. by eexists.
  - unfold contains_key.
    assert (_size m <> 0) as Hsz.
    { rewrite (wf_size hash m Hwf). destruct (live_pairs (_buckets m)); [|done].
      by apply elem_of_nil in Hin. }
    destruct (Z.eqb_spec (_size m) 0); [done|]. rewrite Hget. simpl.
    rewrite (proj2 (da_get_Ok _ _ (Some e))) by (rewrite Nat2Z.id; split; [lia|done]).
    simpl. by rewrite Ht.
Qed.

(** Whether a key is in the map can be read off the slot that the probe
    resolves. *)
Lemma resolved_slot m key (r : Z) slot :
  wf hash m -> get_bucket_index hash m key = Ok r ->
  _buckets m !! Z.to_nat r = Some slot ->
  forall v, (key, v) ∈ live_pairs (_buckets m) <-> live slot = Some (key, v).
Proof.
  intros Hwf Hget Hslot v.
  destruct (get_bucket_index_Ok hash m key r (wf_capacity hash m Hwf) Hget)
    as (_ & slot' & _ & _ & _ & _ & Hr & Hslot' & Hkind).
  rewrite Hslot in Hslot'. injection Hslot' as <-. split.
  - intros (i & e & Hi & Ht & [= Hk Hv])%elem_of_live_pairs.
    pose proof (wf_key_unique hash m key i r e Hwf Hi (eq_sym Hk) Hget) as ->.
    rewrite Nat2Z.id, Hi in Hslot. injection Hslot as <-. simpl. by rewrite Ht, <- Hk, <- Hv.
  - intros Hlive. destruct slot as [e|]; [|done]. simpl in Hlive.
    destruct (is_tombstone e) eqn:Ht; [done|]. injection Hlive as <- <-.
    apply elem_of_live_pairs. by exists (Z.to_nat r), e.
Qed.

Lemma get_returns m key (o : option V) :
  wf hash m -> get hash m key = Ok o ->
  forall v, o = Some v <-> (key, v) ∈ live_pairs (_buckets m).
Proof.
  intros Hwf Hget v. unfold get in Hget.
  destruct (get_bucket_index hash m key) as [r| |] eqn:Hidx; simpl in Hget; [|done..].
  destruct (get_bucket_index_Ok hash m key r (wf_capacity hash m Hwf) Hidx)
    as (_ & slot & _ & _ & _ & _ & Hr & Hslot & _).
  rewrite (proj2 (da_get_Ok _ _ slot)) in Hget by done. simpl in Hget.
  rewrite (resolved_slot m key r slot Hwf Hidx Hslot).
  destruct slot as [e|]; simpl in *; [|injection Hget as <-; by split].
  destruct (is_tombstone e); simpl in Hget; injection Hget as <-; [by split|].
  split; [intros [= <-]|intros [= _ <-]]; try done.
  f_equal. f_equal. destruct (get_bucket_index_Ok hash m key r (wf_capacity hash m Hwf) Hidx)
    as (_ & slot' & _ & _ & _ & _ & _ & Hslot' & Hkind).
  rewrite Hslot in Hslot'. injection Hslot' as <-.
  by destruct Hkind as [|(e0 & [= <-] & He0)].
Qed.

Lemma contains_key_returns m key (b : bool) :
  wf hash m -> contains_key hash m key = Ok b ->
  b = true <-> key ∈ (live_pairs (_buckets m)).*1.
Proof.
  intros Hwf Hc. unfold contains_key in Hc.
  destruct (Z.eqb_spec (_size m) 0) as [H0|H0].
  { injection Hc as <-. split; [done|]. rewrite (wf_size hash m Hwf) in H0.
    destruct (live_pairs (_buckets m)); [by intros ?%elem_of_nil|done]. }
  destruct (get_bucket_index hash m key) as [r| |] eqn:Hidx; simpl in Hc; [|done..].
  destruct (get_bucket_index_Ok hash m key r (wf_capacity hash m Hwf) Hidx)
    as (_ & slot & _ & _ & _ & _ & Hr & Hslot & Hkind).
  rewrite (proj2 (da_get_Ok _ _ slot)) in Hc by done. simpl in Hc.
  assert (key ∈ (live_pairs (_buckets m)).*1 <-> exists v, live slot = Some (key, v)) as ->.
  { split.
    - intros ([k v] & Hk & Hin)%list_elem_of_fmap. simpl in Hk. subst k. exists v.
      by apply (resolved_slot m key r slot Hwf Hidx Hslot).
    - intros [v Hv]. apply list_elem_of_fmap. exists (key, v). split; [done|].
      by apply (resolved_slot m key r slot Hwf Hidx Hslot). }
  destruct Hkind as [->|(e & -> & He)]; simpl in *.
  { injection Hc as <-. split; [done|by intros [? ?]]. }
  destruct (is_tombstone e); simpl in Hc; injection Hc as <-.
  - split; [done|by intros [? ?]].
  - split; [|done]. intros _. exists (entry_value e). by rewrite He.
Qed.

Lemma filter_key_length (l : list (string * V)) key :
  NoDup l.*1 -> key ∈ l.*1 ->
  S (length (filter (fun p => p.1 <> key) l)) = length l.
Proof.
  induction l as [|p l IH]; intros Hnd Hin; [by apply elem_of_nil in Hin|].
  rewrite fmap_cons in Hnd, Hin. apply NoDup_cons in Hnd as [Hp Hnd].
  destruct (decide (p.1 = key)) as [Heq|Hne].
  - rewrite filter_cons_False by (simpl; tauto).
    rewrite filter_all; [done|]. intros q Hq Hk. apply Hp, list_elem_of_fmap.
    exists q. split; [congruence|done].
  - rewrite filter_cons_True by done. simpl. f_equal. apply IH; [done|].
    by apply elem_of_cons in Hin as [|].
Qed.

(** The size after a [put]. *)
Lemma put_size_exact m key value m' :
  wf hash m -> put hash m key value = Ok m' ->
  (key ∈ (live_pairs (_buckets m)).*1 -> _size m' = _size m) /\
  (key ∉ (live_pairs (_buckets m)).*1 -> _size m' = _size m + 1).
Proof.
  intros Hwf Hput.
  destruct (put_spec hash m key value m' Hwf Hput) as (Hwf' & _ & _ & Hperm & _).
  pose proof (wf_size hash m Hwf) as Hs. pose proof (wf_size hash m' Hwf') as Hs'.
  rewrite Hperm in Hs'. simpl in Hs'. split; intros Hin.
  - pose proof (filter_key_length _ key (wf_NoDup hash m Hwf) Hin). lia.
  - rewrite filter_all in Hs'; [lia|]. intros p Hp Hk. apply Hin, list_elem_of_fmap.
    by exists p.
Qed.

(** A property kept by every step of a loop holds when the loop returns. *)
Lemma for_each_invariant {St A : Type} (P : St -> Prop) (body : St -> A -> result St)
    (items : list A) (s s' : St) :
  (forall s a s', P s -> body s a = Ok s' -> P s') ->
  P s -> for_each body s items = Ok s' -> P s'.
Proof.
  intros Hstep. revert s. induction items as [|a items IH]; intros s Hs Hrun; simpl in Hrun.
  - by injection Hrun as <-.
  - destruct (body s a) as [s1| |] eqn:Ha; simpl in Hrun; [|done..].
    apply (IH s1); [by eapply Hstep|done].
Qed.

Lemma run_load_bounded m (c : call V) m' :
  wf hash m -> load_bounded m -> run hash m c = Ok m' -> load_bounded m'.
Proof.
  intros Hwf Hload Hrun. destruct c as [key value|key|key|key| |n]; simpl in Hrun.
  - destruct (put_spec hash m key value m' Hwf Hrun) as (_ & _ & _ & _ & Hb & _).
    by intros _.
  - destruct (get hash m key); simpl in Hrun; [by injection Hrun as <-|done..].
  - destruct (contains_key hash m key); simpl in Hrun; [by injection Hrun as <-|done..].
  - destruct (remove_spec hash m key m' Hwf Hrun) as (_ & Hcap & _ & Hin & Hout).
    destruct (decide (key ∈ (live_pairs (_buckets m)).*1)) as [Hk|Hk].
    + intros Hpos. rewrite Hcap in *. rewrite (Hin Hk). specialize (Hload Hpos). lia.
    + by rewrite (Hout Hk).
  - injection Hrun as <-. intros Hpos. simpl in *. lia.
  - rewrite resize_table_unfold in Hrun by done.
    destruct (Z.ltb_spec n (_size m)); [by injection Hrun as <-|].
    rewrite get_keys_and_values_spec in Hrun by apply (wf_length hash m Hwf).
    simpl in Hrun.
    pose proof (wf_size hash m Hwf).
    destruct (normalize_spec n) as [Hprime _]; [lia|].
    pose proof (Z.prime_ge_2 _ Hprime).
    eapply (for_each_invariant (fun m => wf hash m /\ load_bounded m)) in Hrun; [tauto| |].
    + intros m1 [k v] m2 [Hwf1 _] Hput.
      destruct (put_spec hash m1 k v m2 Hwf1 Hput) as (Hwf2 & _ & _ & _ & Hb & _).
      split; [done|]. by intros _.
    + split; [apply wf_empty; [lia|done]|]. intros Hpos. simpl in *. lia.
Qed.
Lemma reachable_load_bounded m : reachable hash m -> load_bounded m.
Proof.
  induction 1 as [capacity|m m' c Hm IH Hrun].
  - intros Hpos. simpl in *. lia.
  - eapply run_load_bounded; [by apply reachable_wf|done|done].
Qed.

(** ** [empty_buckets] *)

Lemma empty_buckets_loop_spec buckets (i n : nat) (count : Z) :
  (i + n <= length buckets)%nat ->
  empty_buckets_loop buckets (Z.of_nat i) n count =
  Ok (count + empty_slots (take n (drop i buckets))).
Proof.
  revert i count. induction n as [|n IH]; intros i count Hlen; simpl.
  - by rewrite Z.add_0_r.
  - destruct (lookup_lt_is_Some_2 buckets i) as [slot Hslot]; [lia|].
    rewrite (proj2 (da_get_Ok buckets (Z.of_nat i) slot))
      by (rewrite Nat2Z.id; split; [lia|done]).
    simpl. replace (Z.of_nat i + 1) with (Z.of_nat (S i)) by lia.
    rewrite IH by lia. rewrite (drop_S _ _ _ Hslot). simpl.
    destruct slot; f_equal; lia.
Qed.

Lemma empty_buckets_spec m :
  length (_buckets m) = Z.to_nat (_capacity m) ->
  empty_buckets m = Ok (empty_slots (_buckets m)).
Proof.
  intros Hlen. unfold empty_buckets.
  rewrite (empty_buckets_loop_spec _ 0) by (simpl; lia).
  by rewrite drop_0, <- Hlen, firstn_all.
Qed.

Lemma empty_slots_bound buckets :
  0 <= empty_slots buckets /\
  empty_slots buckets + Z.of_nat (length (live_pairs buckets)) <= Z.of_nat (length buckets).
Proof.
  induction buckets as [|[e|] buckets IH]; simpl; [lia| |lia].
  unfold live_pairs in *. simpl. destruct (is_tombstone e); simpl; lia.
Qed.

Lemma empty_slots_no_tombstone buckets :
  no_tombstone buckets ->
  empty_slots buckets + Z.of_nat (length (live_pairs buckets)) = Z.of_nat (length buckets).
Proof.
  induction buckets as [|slot buckets IH]; intros Hnt; [done|].
  assert (no_tombstone buckets) as Hnt' by (intros i e Hi; apply (Hnt (S i) e Hi)).
  specialize (IH Hnt'). destruct slot as [e|]; simpl; [|unfold live_pairs in *; simpl; lia].
  pose proof (Hnt 0%nat e eq_refl) as Ht.
  unfold live_pairs in *. simpl. rewrite Ht. simpl. lia.
Qed.

Lemma empty_slots_replicate (n : nat) :
  empty_slots (replicate n (@None (HashEntry (V:=V)))) = Z.of_nat n.
Proof. induction n as [|n IH]; [done|]. simpl replicate. cbn [empty_slots]. lia. Qed.

Lemma empty_slots_overwrite buckets (i : nat) e e' :
  buckets !! i = Some (Some e) ->
  empty_slots (<[i:=Some e']> buckets) = empty_slots buckets.
Proof.
  revert i. induction buckets as [|slot buckets IH]; intros [|i] Hi; try done; simpl in *.
  - by injection Hi as ->.
  - rewrite (IH i Hi). done.
Qed.

Lemma empty_slots_fill buckets (i : nat) e' :
  buckets !! i = Some None ->
  empty_slots (<[i:=Some e']> buckets) = empty_slots buckets - 1.
Proof.
  revert i. induction buckets as [|slot buckets IH]; intros [|i] Hi; try done; simpl in *.
  - injection Hi as ->. lia.
  - rewrite (IH i Hi). destruct slot; lia.
Qed.

(** ** A table that was just cleared *)

Lemma get_bucket_index_clear m key :
  0 < _capacity m ->
  get_bucket_index hash (clear m) key = Ok (hash key mod _capacity m).
Proof.
  intros Hpos. unfold get_bucket_index. simpl.
  destruct (Z.eqb_spec (_capacity m) 0); [lia|].
  pose proof (Z.mod_pos_bound (hash key) (_capacity m) Hpos) as Hr.
  assert (da_get (replicate (Z.to_nat (_capacity m)) (@None (HashEntry (V:=V))))
            (hash key mod _capacity m) = Ok None) as Hget.
  { apply da_get_Ok. split; [lia|]. apply lookup_replicate. split; [done|lia]. }
  destruct (Z.abs_nat (_capacity m)); simpl; by rewrite Hget.
Qed.

Lemma clear_lookups m key :
  0 < _capacity m ->
  get hash (clear m) key = Ok None /\ contains_key hash (clear m) key = Ok false /\
  remove hash (clear m) key = Ok (clear m).
Proof.
  intros Hpos. pose proof (Z.mod_pos_bound (hash key) (_capacity m) Hpos) as Hr.
  assert (da_get (_buckets (clear m)) (hash key mod _capacity m) = Ok None) as Hget.
  { apply da_get_Ok. split; [lia|]. apply lookup_replicate. split; [done|lia]. }
  unfold get, contains_key, remove. rewrite get_bucket_index_clear by done.
  simpl in *. by rewrite Hget.
Qed.

(** ** Lookups on a table without tombstones *)

Lemma lookups_return m key :
  wf hash m -> no_tombstone (_buckets m) -> 0 < _capacity m -> 2 * _size m < _capacity m ->
  (exists o, get hash m key = Ok o) /\ (exists b, contains_key hash m key = Ok b) /\
  (exists m', remove hash m key = Ok m').
Proof.
  intros Hwf Hnt Hpos Hload.
  destruct (get_bucket_index_total hash m key Hwf Hnt Hpos Hload) as [r Hidx].
  destruct (get_bucket_index_Ok hash m key r (wf_capacity hash m Hwf) Hidx)
    as (_ & slot & _ & _ & _ & _ & Hr & Hslot & _).
  unfold get, contains_key, remove. rewrite Hidx. simpl.
  rewrite (proj2 (da_get_Ok _ _ slot)) by done. simpl.
  destruct slot as [e|]; [destruct (is_tombstone e)|]; simpl;
    destruct (_size m =? 0); split_and!; by eexists.
Qed.

Lemma writes_no_tombstone (cs : list (call V)) m m' :
  wf hash m -> no_tombstone (_buckets m) -> 0 < _capacity m ->
  Forall is_write cs -> for_each (run hash) m cs = Ok m' ->
  wf hash m' /\ no_tombstone (_buckets m') /\ 0 < _capacity m'.
Proof.
  intros Hwf Hnt Hpos Hcs. revert m Hwf Hnt Hpos.
  induction Hcs as [|c cs Hc _ IH]; intros m Hwf Hnt Hpos Hrun; simpl in Hrun.
  { by injection Hrun as <-. }
  destruct (run hash m c) as [m1| |] eqn:Hm1; simpl in Hrun; [|done..].
  destruct c as [k v0|k|k|k| |n]; try done; simpl in Hm1.
  - destruct (put_spec hash m k v0 m1 Hwf Hm1) as (Hwf1 & Hpos1 & _ & _ & _ & _ & Hnt1).
    apply (IH m1); [done|by apply Hnt1|done|done].
  - destruct (resize_table_spec hash m n Hwf) as (m2 & Hre & Hwf1 & _ & Hnoop & Hnew).
    rewrite Hre in Hm1. injection Hm1 as ->.
    destruct (Z.lt_ge_cases n (_size m)) as [Hlt|Hge].
    + rewrite (Hnoop Hlt) in *. by apply (IH m).
    + destruct (Hnew Hge) as [Hnt1 Hcap]. pose proof (wf_size hash m Hwf).
      destruct (normalize_spec n) as [Hprime%Z.prime_ge_2 _]; [lia|].
      apply (IH m1); [done|done|lia|done].
Qed.

(** ** [resize_table] and the lookups *)

Lemma resize_table_lookups m (n : Z) m' :
  wf hash m -> resize_table hash m n = Ok m' ->
  _size m' = _size m /\
  (forall key v, get hash m' key = Ok (Some v) <-> get hash m key = Ok (Some v)) /\
  (_size m <= n -> no_tombstone (_buckets m') /\ n <= _capacity m').
Proof.
  intros Hwf Hre.
  destruct (resize_table_spec hash m n Hwf) as (m2 & Hre2 & Hwf' & Hperm & _ & Hnew).
  rewrite Hre in Hre2. injection Hre2 as <-.
  split; [|split].
  - rewrite (wf_size hash m Hwf), (wf_size hash m' Hwf'). by rewrite Hperm.
  - intros key v. split; intros Hget%get_Some_inv; try done; apply get_spec; try done.
    + by rewrite <- Hperm.
    + by rewrite Hperm.
  - intros Hge. destruct (Hnew Hge) as [Hnt Hcap]. split; [done|].
    pose proof (wf_size hash m Hwf).
    destruct (normalize_spec n) as [_ Hle]; lia.
Qed.

(** ** A [put] followed by a [remove] of the same key *)

Lemma put_remove m key value m1 :
  wf hash m -> key ∉ (live_pairs (_buckets m)).*1 -> put hash m key value = Ok m1 ->
  exists m2, remove hash m1 key = Ok m2 /\
    live_pairs (_buckets m2) ≡ₚ live_pairs (_buckets m) /\ _size m2 = _size m /\
    _capacity m2 = _capacity m1.
Proof.
  intros Hwf Hout Hput.
  destruct (put_spec hash m key value m1 Hwf Hput) as (Hwf1 & _ & _ & Hperm1 & _).
  assert ((key, value) ∈ live_pairs (_buckets m1)) as Hin by (rewrite Hperm1; by left).
  destruct (present_key_returns m1 key value value Hwf1 Hin) as (_ & [m2 Hrem] & _).
  destruct (remove_spec hash m1 key m2 Hwf1 Hrem) as (Hwf2 & Hcap & Hperm2 & _).
  assert (filter (fun p : string * V => p.1 <> key) (live_pairs (_buckets m)) =
          live_pairs (_buckets m)) as Hfil.
  { apply filter_all. intros p Hp Hk. apply Hout, list_elem_of_fmap. by exists p. }
  assert (live_pairs (_buckets m2) ≡ₚ live_pairs (_buckets m)) as Hperm.
  { rewrite Hperm2, Hperm1. rewrite filter_cons_False by (simpl; tauto).
    by rewrite Hfil, Hfil. }
  exists m2. split; [done|]. split; [done|]. split; [|done].
  rewrite (wf_size hash m Hwf), (wf_size hash m2 Hwf2). by rewrite Hperm.
Qed.

(** ** What [remove] leaves alone *)

Lemma remove_capacity m key m' :
  remove hash m key = Ok m' -> _capacity m' = _capacity m.
Proof.
  unfold remove. destruct (get_bucket_index hash m key) as [r| |]; simpl; [|done..].
  destruct (da_get (_buckets m) r) as [[e|]| |]; simpl; [|by intros [= <-]|done..].
  destruct (is_tombstone e); simpl; by intros [= <-].
Qed.

Lemma remove_empty_slots m key m' :
  remove hash m key = Ok m' ->
  empty_slots (_buckets m') = empty_slots (_buckets m).
Proof.
  unfold remove. destruct (get_bucket_index hash m key) as [r| |]; simpl; [|done..].
  destruct (da_get (_buckets m) r) as [[e|]| |] eqn:Hd; simpl; [|by intros [= <-]|done..].
  apply da_get_Ok in Hd as [Hr Hslot].
  destruct (is_tombstone e); simpl; intros [= <-]; [done|]. simpl.
  by apply empty_slots_overwrite with e.
Qed.

(** ** When [put] changes the capacity *)

Lemma put_capacity m key value m' :
  wf hash m -> put hash m key value = Ok m' ->
  (2 * _size m < _capacity m -> _capacity m' = _capacity m) /\
  (_capacity m <= 2 * _size m ->
     2 * _capacity m < _capacity m' /\ no_tombstone (_buckets m')).
Proof.
  intros Hwf Hput. unfold put in Hput.
  assert (0 < _capacity m) as Hpos.
  { pose proof (wf_capacity hash m Hwf).
    destruct (Z.lt_ge_cases (_capacity m) 0) as [Hneg|]; [|lia].
    by rewrite put_with_negative in Hput. }
  split.
  - intros Hsparse. rewrite put_with_sparse in Hput by done.
    by destruct (put_at_spec hash m key value m' Hwf Hput) as (_ & -> & _).
  - intros Hdense. rewrite put_with_unfold in Hput.
    destruct (table_load_check hash m Hwf) as (load & Hload & Hcheck).
    rewrite Hload in Hput. simpl in Hput. rewrite Hcheck in Hput.
    destruct (Z.ltb_spec 0 (_capacity m)); [|lia].
    destruct (Z.leb_spec (_capacity m) (2 * _size m)); [|lia]. simpl in Hput.
    destruct (resize_table_ok hash m Hwf Hpos Hdense)
      as (m1 & Hre & Hwf1 & Hnt1 & _ & Hcap1 & _).
    rewrite Hre in Hput. simpl in Hput.
    destruct (put_at_spec hash m1 key value m' Hwf1 Hput) as (_ & -> & _ & Hnt).
    split; [done|by apply Hnt].
Qed.

(** ** Lookups of the other keys after a [put] *)

Lemma put_get_other m key value m' key' (v : V) :
  wf hash m -> put hash m key value = Ok m' -> key' <> key ->
  get hash m' key' = Ok (Some v) <-> get hash m key' = Ok (Some v).
Proof.
  intros Hwf Hput Hne.
  destruct (put_spec hash m key value m' Hwf Hput) as (Hwf' & _ & _ & Hperm & _).
  split; intros Hget%get_Some_inv; try done; apply get_spec; try done.
  - rewrite Hperm in Hget. apply elem_of_cons in Hget as [[= ? _]|Hin]; [done|].
    by apply list_elem_of_filter in Hin as [_ ?].
  - rewrite Hperm. right. by apply list_elem_of_filter.
Qed.

(** ** A map constructed with a negative capacity *)

Lemma get_bucket_index_no_bucket m key :
  _buckets m = [] -> _capacity m <> 0 -> get_bucket_index hash m key = Raise.
Proof.
  intros Hb Hc. unfold get_bucket_index. destruct (Z.eqb_spec (_capacity m) 0); [done|].
  rewrite Hb. destruct (Z.abs_nat (_capacity m)); simpl; by rewrite da_get_nil.
Qed.

End oa_more.

(** * Further properties of the chaining map *)

Section sc_more.
Import SC.
Context {V : Type}.
Variable hash : string -> Z.
Implicit Types (m : HashMap (V:=V)) (buckets : list (list (string * V))).
Implicit Types (key : string) (l bucket : list (string * V)) (node : string * V).

(** ** The chain operations and the search for another key *)

Lemma ll_contains_set_value_ne l key key' (value : V) :
  key' <> key -> ll_contains (ll_set_value l key value) key' = ll_contains l key'.
Proof.
  intros Hne. induction l as [|node l IH]; [done|]. cbn [ll_set_value ll_contains].
  destruct (decide (node.1 = key)) as [Hk|Hk]; cbn [ll_contains fst].
  - destruct (decide (node.1 = key')); [congruence|done].
  - destruct (decide (node.1 = key')); [done|apply IH].
Qed.

Lemma ll_contains_set_value_eq l key (value : V) node :
  ll_contains l key = Some node ->
  ll_contains (ll_set_value l key value) key = Some (key, value).
Proof.
  induction l as [|n l IH]; [done|]. cbn [ll_set_value ll_contains].
  destruct (decide (n.1 = key)) as [Hk|Hk]; cbn [ll_contains fst].
  - intros _. destruct (decide (n.1 = key)); [by rewrite Hk|done].
  - destruct (decide (n.1 = key)); [done|apply IH].
Qed.

Lemma ll_contains_insert_ne l key key' (value : V) :
  key' <> key -> ll_contains (ll_insert l key value) key' = ll_contains l key'.
Proof.
  intros Hne. unfold ll_insert. induction l as [|node l IH]; simpl.
  - destruct (decide (key = key')); [congruence|done].
  - destruct (decide (node.1 = key')); [done|apply IH].
Qed.

Lemma ll_contains_insert_eq l key (value : V) :
  ll_contains l key = None -> ll_contains (ll_insert l key value) key = Some (key, value).
Proof.
  unfold ll_insert. induction l as [|node l IH]; simpl.
  - intros _. by destruct (decide (key = key)).
  - destruct (decide (node.1 = key)); [done|apply IH].
Qed.

Lemma ll_contains_remove_ne l key key' l' :
  ll_remove l key = Some l' -> key' <> key -> ll_contains l' key' = ll_contains l key'.
Proof.
  intros Hrem Hne. revert l' Hrem. induction l as [|node l IH]; intros l' Hrem; [done|].
  simpl in Hrem. destruct (decide (node.1 = key)) as [Hk|Hk].
  - injection Hrem as <-. simpl. destruct (decide (node.1 = key')); [congruence|done].
  - destruct (ll_remove l key) as [l1|] eqn:Hl; [|done]. injection Hrem as <-. simpl.
    destruct (decide (node.1 = key')); [done|by apply IH].
Qed.

Lemma ll_remove_insert l key (value : V) :
  ll_contains l key = None -> ll_remove (ll_insert l key value) key = Some l.
Proof.
  unfold ll_insert. induction l as [|node l IH]; simpl.
  - intros _. by destruct (decide (key = key)).
  - destruct (decide (node.1 = key)); [done|]. intros Hc. by rewrite (IH Hc).
Qed.

Lemma ll_contains_remove l key :
  ll_contains l key = None <-> ll_remove l key = None.
Proof. by rewrite ll_contains_None, ll_remove_None. Qed.

(** ** Lookups after one bucket was replaced *)

Lemma contains_key_get m key :
  contains_key hash m key = (o ← get hash m key; Ok (bool_decide (is_Some o))).
Proof.
  unfold contains_key, get.
  destruct (bucket_of hash m key) as [[index bucket]| |]; simpl; [|done..].
  destruct (ll_contains bucket key); simpl; f_equal; apply bool_decide_ext;
    split; intros [? ?]; by eexists.
Qed.

Lemma get_set_bucket m (index : Z) bucket bucket' (size' : Z) key' :
  0 <= index -> _buckets m !! Z.to_nat index = Some bucket ->
  (hash key' mod _capacity m = index -> ll_contains bucket' key' = ll_contains bucket key') ->
  get hash {| _buckets := da_set (_buckets m) index bucket';
              _capacity := _capacity m; _size := size' |} key' = get hash m key'.
Proof.
  intros Hindex Hi Hsame. pose proof (lookup_lt_Some _ _ _ Hi) as Hlen.
  unfold get, bucket_of. simpl. destruct (_capacity m =? 0); [done|].
  destruct (decide (hash key' mod _capacity m = index)) as [Heq|Hne].
  - rewrite Heq, da_get_set_eq by lia.
    rewrite (proj2 (da_get_Ok _ _ bucket)) by done. simpl. by rewrite Hsame.
  - by rewrite da_get_set_ne.
Qed.

(** ** What [put] and [remove] change *)

Lemma sc_put_frame m key (value : V) m' :
  put hash m key value = Ok m' ->
  _capacity m' = _capacity m /\ get hash m' key = Ok (Some value) /\
  forall key', key' <> key -> get hash m' key' = get hash m key'.
Proof.
  intros Hput. unfold put in Hput.
  destruct (bucket_of hash m key) as [[index bucket]| |] eqn:Hb; simpl in Hput; [|done..].
  pose proof Hb as (Hindex & Hpos & Hi)%bucket_of_Ok.
  pose proof (lookup_lt_Some _ _ _ Hi) as Hlen.
  assert (_capacity m <> 0) as Hc.
  { intros H0. unfold bucket_of in Hb. by rewrite H0 in Hb. }
  assert (forall bucket' size',
            ll_contains bucket' key = Some (key, value) ->
            get hash {| _buckets := da_set (_buckets m) index bucket';
                        _capacity := _capacity m; _size := size' |} key
            = Ok (Some value)) as Hkey.
  { intros bucket' size' Hfound. unfold get, bucket_of. simpl.
    destruct (Z.eqb_spec (_capacity m) 0); [done|].
    rewrite <- Hindex, da_get_set_eq by lia. simpl. by rewrite Hfound. }
  destruct (ll_contains bucket key) as [node|] eqn:Hfound; injection Hput as <-; simpl.
  - split; [done|]. split; [by eapply Hkey, ll_contains_set_value_eq|].
    intros key' Hne. apply (get_set_bucket m index bucket); [done..|].
    intros _. by apply ll_contains_set_value_ne.
  - split; [done|]. split; [by apply Hkey, ll_contains_insert_eq|].
    intros key' Hne. apply (get_set_bucket m index bucket); [done..|].
    intros _. by apply ll_contains_insert_ne.
Qed.

Lemma sc_remove_frame m key m' :
  remove hash m key = Ok m' ->
  _capacity m' = _capacity m /\
  forall key', key' <> key -> get hash m' key' = get hash m key'.
Proof.
  intros Hrem. unfold remove in Hrem.
  destruct (bucket_of hash m key) as [[index bucket]| |] eqn:Hb; simpl in Hrem; [|done..].
  pose proof Hb as (Hindex & Hpos & Hi)%bucket_of_Ok.
  destruct (ll_remove bucket key) as [bucket'|] eqn:Hr; injection Hrem as <-; [|done].
  split; [done|]. intros key' Hne. apply (get_set_bucket m index bucket); [done..|].
  intros _. by apply (ll_contains_remove_ne bucket key).
Qed.

Lemma sc_remove_get m key m' :
  sc_wf hash m -> remove hash m key = Ok m' -> get hash m' key = Ok None.
Proof.
  intros Hwf Hrem. unfold remove in Hrem.
  destruct (bucket_of hash m key) as [[index bucket]| |] eqn:Hb; simpl in Hrem; [|done..].
  pose proof Hb as (Hindex & Hpos & Hi)%bucket_of_Ok.
  pose proof (lookup_lt_Some _ _ _ Hi) as Hlen.
  pose proof (sc_wf_chain hash m Hwf _ _ Hi) as Hnd.
  destruct (ll_remove bucket key) as [bucket'|] eqn:Hr; injection Hrem as <-.
  - destruct (ll_remove_Some bucket key bucket' Hnd Hr) as (_ & _ & _ & Hgone).
    unfold get, bucket_of. simpl. unfold bucket_of in Hb.
    destruct (_capacity m =? 0); [done|].
    rewrite <- Hindex, da_get_set_eq by lia. simpl. by rewrite Hgone.
  - unfold get. rewrite Hb. simpl. apply ll_contains_remove in Hr. by rewrite Hr.
Qed.

(** A [put] of a new key appends a node, and [remove] unlinks it again. *)
Lemma sc_put_remove m key (value : V) :
  get hash m key = Ok None ->
  exists m1, put hash m key value = Ok m1 /\ remove hash m1 key = Ok m.
Proof.
  intros Hget. unfold get in Hget. unfold put.
  destruct (bucket_of hash m key) as [[index bucket]| |] eqn:Hb; simpl in *; [|done..].
  pose proof Hb as (Hindex & Hpos & Hi)%bucket_of_Ok.
  pose proof (lookup_lt_Some _ _ _ Hi) as Hlen.
  destruct (ll_contains bucket key) as [node|] eqn:Hfound; [done|].
  eexists. split; [done|]. unfold remove, bucket_of. simpl. unfold bucket_of in Hb.
  destruct (_capacity m =? 0); [done|].
  rewrite <- Hindex, da_get_set_eq by lia. simpl.
  rewrite ll_remove_insert by done. unfold da_set.
  rewrite list_insert_insert_eq, list_insert_id by done.
  destruct m as [b c sz]. simpl. do 2 f_equal. lia.
Qed.

(** ** Lookups and the enumeration *)

Lemma sc_get_returns m key (o : option V) :
  sc_wf hash m -> get hash m key = Ok o ->
  forall v, o = Some v <-> (key, v) ∈ entries (_buckets m).
Proof.
  intros Hwf Hget v. split.
  - intros ->. unfold get in Hget.
    destruct (bucket_of hash m key) as [[index bucket]| |] eqn:Hb; simpl in Hget; [|done..].
    apply bucket_of_Ok in Hb as (_ & _ & Hi).
    destruct (ll_contains bucket key) as [[k v']|] eqn:Hc; [|done].
    injection Hget as <-. apply ll_contains_Some in Hc as [Hn Hk]. simpl in Hk. subst k.
    apply elem_of_entries. eauto.
  - intros Hin. pose proof (sc_get_spec hash m key v Hwf Hin). congruence.
Qed.

Lemma sc_get_total m key :
  sc_wf hash m -> 0 < _capacity m -> exists o, get hash m key = Ok o.
Proof.
  intros Hwf Hpos. destruct (bucket_of_total hash m key Hwf Hpos) as [bucket Hb].
  unfold get. rewrite Hb. simpl. destruct (ll_contains bucket key); by eexists.
Qed.

(** ** Every call returns on a positive capacity *)

Lemma sc_run_total m (c : call V) :
  sc_wf hash m -> 0 < _capacity m ->
  exists m', run hash m c = Ok m' /\ 0 < _capacity m'.
Proof.
  intros Hwf Hpos. destruct c as [key value|key|key|key| |n]; simpl.
  - destruct (sc_put_total hash m key value Hwf Hpos) as [m' Hput].
    exists m'. split; [done|]. destruct (sc_put_frame m key value m' Hput) as [-> _]. done.
  - destruct (sc_get_total m key Hwf Hpos) as [o ->]. by exists m.
  - rewrite contains_key_get. destruct (sc_get_total m key Hwf Hpos) as [o ->]. by exists m.
  - destruct (bucket_of_total hash m key Hwf Hpos) as [bucket Hb].
    unfold remove. rewrite Hb. simpl. destruct (ll_remove bucket key); by eexists.
  - by exists (clear m).
  - destruct (sc_resize_table_spec hash m n Hwf) as (m' & Hre & _ & _ & Hnoop & Hnew).
    exists m'. split; [done|]. destruct (Z.lt_ge_cases n 1) as [Hlt|Hge].
    + by rewrite (Hnoop Hlt).
    + rewrite (Hnew Hge). destruct (normalize_spec n) as [_ Hle]; lia.
Qed.

Lemma sc_calls_total (cs : list (call V)) m :
  sc_wf hash m -> 0 < _capacity m ->
  exists m', for_each (run hash) m cs = Ok m' /\ sc_wf hash m' /\ 0 < _capacity m'.
Proof.
  revert m. induction cs as [|c cs IH]; intros m Hwf Hpos; [by exists m|]. simpl.
  destruct (sc_run_total m c Hwf Hpos) as (m1 & Hrun & Hpos1). rewrite Hrun. simpl.
  apply IH; [by eapply sc_run_wf|done].
Qed.

(** ** The capacity *)

Lemma sc_run_prime m (c : call V) m' :
  sc_wf hash m -> (0 < _capacity m -> Z.prime (_capacity m)) -> run hash m c = Ok m' ->
  0 < _capacity m' -> Z.prime (_capacity m').
Proof.
  intros Hwf Hp Hrun. destruct c as [key value|key|key|key| |n]; simpl in Hrun.
  - by destruct (sc_put_frame m key value m' Hrun) as [-> _].
  - destruct (get hash m key); simpl in Hrun; [by injection Hrun as <-|done..].
  - destruct (contains_key hash m key); simpl in Hrun; [by injection Hrun as <-|done..].
  - by destruct (sc_remove_frame m key m' Hrun) as [-> _].
  - by injection Hrun as <-.
  - destruct (sc_resize_table_spec hash m n Hwf) as (m2 & Hre & _ & _ & Hnoop & Hnew).
    rewrite Hre in Hrun. injection Hrun as ->.
    destruct (Z.lt_ge_cases n 1) as [Hlt|Hge].
    + by rewrite (Hnoop Hlt).
    + rewrite (Hnew Hge). intros _. destruct (normalize_spec n) as [Hprime _]; [lia|done].
Qed.

Lemma sc_reachable_prime m :
  reachable hash m -> 0 < _capacity m -> Z.prime (_capacity m).
Proof.
  induction 1 as [capacity|m m' c Hm IH Hrun].
  - apply _next_prime_capacity.
  - eapply sc_run_prime; [by apply sc_reachable_wf|done..].
Qed.

(** ** [empty_buckets] *)

Lemma sc_empty_buckets_loop_spec buckets (i n : nat) (count : Z) :
  (i + n <= length buckets)%nat ->
  empty_buckets_loop buckets (Z.of_nat i) n count =
  Ok (count + empty_chains (take n (drop i buckets))).
Proof.
  revert i count. induction n as [|n IH]; intros i count Hlen; simpl.
  - by rewrite Z.add_0_r.
  - destruct (lookup_lt_is_Some_2 buckets i) as [bucket Hbucket]; [lia|].
    rewrite (proj2 (da_get_Ok buckets (Z.of_nat i) bucket))
      by (rewrite Nat2Z.id; split; [lia|done]).
    simpl. replace (Z.of_nat i + 1) with (Z.of_nat (S i)) by lia.
    rewrite IH by lia. rewrite (drop_S _ _ _ Hbucket). simpl.
    destruct bucket; simpl; f_equal; lia.
Qed.

Lemma sc_empty_buckets_spec m :
  length (_buckets m) = Z.to_nat (_capacity m) ->
  empty_buckets m = Ok (empty_chains (_buckets m)).
Proof.
  intros Hlen. unfold empty_buckets.
  rewrite (sc_empty_buckets_loop_spec _ 0) by (simpl; lia).
  by rewrite drop_0, <- Hlen, firstn_all.
Qed.

Lemma empty_chains_bound buckets :
  0 <= empty_chains buckets <= Z.of_nat (length buckets) /\
  Z.of_nat (length buckets) <= empty_chains buckets + Z.of_nat (length (entries buckets)).
Proof.
  induction buckets as [|[|node bucket] buckets IH]; unfold entries in *; simpl; [lia..|].
  rewrite length_app. lia.
Qed.

Lemma empty_chains_replicate (n : nat) :
  empty_chains (replicate n (@nil (string * V))) = Z.of_nat n.
Proof. induction n as [|n IH]; [done|]. simpl replicate. cbn [empty_chains]. lia. Qed.

(** ** A table that was just cleared *)

Lemma sc_clear_lookups m key :
  0 < _capacity m ->
  get hash (clear m) key = Ok None /\ contains_key hash (clear m) key = Ok false /\
  remove hash (clear m) key = Ok (clear m).
Proof.
  intros Hpos. pose proof (Z.mod_pos_bound (hash key) (_capacity m) Hpos) as Hr.
  assert (bucket_of hash (clear m) key = Ok (hash key mod _capacity m, [])) as Hb.
  { unfold bucket_of. simpl. destruct (Z.eqb_spec (_capacity m) 0); [lia|].
    rewrite (proj2 (da_get_Ok _ _ [])); [done|]. split; [lia|].
    apply lookup_replicate. split; [done|lia]. }
  unfold get, contains_key, remove. by rewrite Hb.
Qed.

(** ** [resize_table] and the lookups *)

Lemma sc_resize_table_lookups m (n : Z) m' :
  sc_wf hash m -> 0 < _capacity m -> resize_table hash m n = Ok m' ->
  _size m' = _size m /\ forall key, get hash m' key = get hash m key.
Proof.
  intros Hwf Hpos Hre.
  destruct (sc_resize_table_spec hash m n Hwf) as (m2 & Hre2 & Hwf' & Hperm & Hnoop & Hnew).
  rewrite Hre in Hre2. injection Hre2 as <-.
  split.
  { rewrite (sc_wf_size hash m Hwf), (sc_wf_size hash m' Hwf'). by rewrite Hperm. }
  intros key.
  assert (0 < _capacity m') as Hpos'.
  { destruct (Z.lt_ge_cases n 1) as [Hlt|Hge]; [by rewrite (Hnoop Hlt)|].
    rewrite (Hnew Hge). destruct (normalize_spec n) as [_ Hle]; lia. }
  destruct (sc_get_total m key Hwf Hpos) as [o Ho].
  destruct (sc_get_total m' key Hwf' Hpos') as [o' Ho'].
  rewrite Ho, Ho'. f_equal.
  pose proof (sc_get_returns m key o Hwf Ho) as H1.
  pose proof (sc_get_returns m' key o' Hwf' Ho') as H2.
  destruct o' as [v'|].
  - symmetry. apply H1. rewrite <- Hperm. by apply H2.
  - destruct o as [v|]; [|done]. apply H2. rewrite Hperm. by apply H1.
Qed.

(** ** Size, presence and reachability *)

Lemma sc_put_size m key (value : V) m' :
  put hash m key value = Ok m' ->
  (get hash m key = Ok None -> _size m' = _size m + 1) /\
  (forall v0, get hash m key = Ok (Some v0) -> _size m' = _size m).
Proof.
  unfold put, get.
  destruct (bucket_of hash m key) as [[index bucket]| |]; simpl; [|done..].
  destruct (ll_contains bucket key); intros [= <-]; simpl; by split.
Qed.

Lemma sc_contains_key_returns m key (b : bool) :
  sc_wf hash m -> contains_key hash m key = Ok b ->
  b = true <-> key ∈ (entries (_buckets m)).*1.
Proof.
  intros Hwf Hc. rewrite contains_key_get in Hc.
  destruct (get hash m key) as [o| |] eqn:Hget; simpl in Hc; [|done..].
  injection Hc as <-. pose proof (sc_get_returns m key o Hwf Hget) as Ho.
  rewrite bool_decide_eq_true. split.
  - intros [v ->]. apply list_elem_of_fmap. exists (key, v). split; [done|]. by apply Ho.
  - intros ([k v] & Hk & Hin)%list_elem_of_fmap. simpl in Hk. subst k.
    exists v. by apply Ho.
Qed.

Lemma sc_reachable_for_each (cs : list (call V)) m m' :
  reachable hash m -> for_each (run hash) m cs = Ok m' -> reachable hash m'.
Proof.
  revert m. induction cs as [|c cs IH]; intros m Hreach Hrun; simpl in Hrun.
  - by injection Hrun as <-.
  - destruct (run hash m c) as [m1| |] eqn:Hc; simpl in Hrun; [|done..].
    apply (IH m1); [|done]. by eapply reachable_run.
Qed.

Lemma bucket_of_no_bucket m key :
  _buckets m = [] -> bucket_of hash m key = Raise.
Proof.
  intros Hb. unfold bucket_of. destruct (_capacity m =? 0); [done|].
  by rewrite Hb, da_get_nil.
Qed.

End sc_more.

(** * Further properties of the capacity manager *)

Lemma _next_prime_odd (n : Z) : Z.odd (_next_prime n) = true.
Proof.
  destruct (_next_prime_total n) as (k & _ & -> & _).
  rewrite Z.odd_add_mul_2. destruct (Z.eqb_spec (n mod 2) 0) as [H0|H0].
  - rewrite Z.add_1_r, Z.odd_succ, <- Z.negb_odd. rewrite Zmod_odd in H0.
    by destruct (Z.odd n).
  - rewrite Zmod_odd in H0. by destruct (Z.odd n).
Qed.

Lemma _next_prime_at_least (n : Z) : n <= _next_prime n.
Proof.
  destruct (_next_prime_total n) as (k & Hk & -> & _).
  destruct (n mod 2 =? 0); lia.
Qed.

Lemma _next_prime_accepted (n : Z) : _is_prime (_next_prime n) = true.
Proof. by destruct (_next_prime_total n) as (k & _ & -> & ? & _). Qed.

Lemma _next_prime_fixed (n : Z) :
  Z.odd n = true -> _is_prime n = true -> _next_prime n = n.
Proof.
  intros Hodd Hp. destruct (_next_prime_total n) as (k & Hk & Heq & _ & Hfirst).
  assert ((n mod 2 =? 0) = false) as Hmod.
  { rewrite Zmod_odd, Hodd. done. }
  rewrite Hmod in Heq, Hfirst. destruct (decide (k = 0)) as [->|Hk0]; [lia|].
  specialize (Hfirst 0 ltac:(lia)). rewrite Z.add_0_r in Hfirst. congruence.
Qed.

Lemma prime_odd (p : Z) : Z.prime p -> p <> 2 -> Z.odd p = true.
Proof.
  intros [Hp1 Hp] H2. destruct (Z.odd p) eqn:Hodd; [done|].
  destruct (Hp 2); [lia|]. apply Z.mod_divide; [lia|]. by rewrite Zmod_odd, Hodd.
Qed.

Lemma _next_prime_least (n p : Z) :
  0 <= n -> Z.prime p -> p <> 2 -> n <= p -> _next_prime n <= p.
Proof.
  intros Hn Hp H2 Hle. pose proof (prime_odd p Hp H2) as Hodd.
  pose proof (Z.prime_ge_2 _ Hp) as Hge.
  destruct (_next_prime_total n) as (k & Hk & -> & _ & Hfirst).
  set (c := if n mod 2 =? 0 then n + 1 else n) in *.
  assert (Z.odd c = true) as Hc.
  { unfold c. destruct (Z.eqb_spec (n mod 2) 0) as [H0|H0]; rewrite Zmod_odd in H0.
    - rewrite Z.add_1_r, Z.odd_succ, <- Z.negb_odd. by destruct (Z.odd n).
    - by destruct (Z.odd n). }
  assert (c <= p) as Hcp.
  { unfold c in *. destruct (Z.eqb_spec (n mod 2) 0) as [H0|H0]; [|done].
    destruct (decide (p = n)) as [->|]; [|lia].
    rewrite Zmod_odd, Hodd in H0. done. }
  destruct (Z.le_gt_cases (c + 2 * k) p) as [|Hlt]; [done|].
  assert (exists i, p = c + 2 * i) as [i ->].
  { exists ((p - c) / 2). pose proof (Z.div_mod (p - c) 2 ltac:(lia)) as Hdm.
    assert ((p - c) mod 2 = 0) as H0; [|lia].
    rewrite Zmod_odd, Z.odd_sub, Hodd, Hc. done. }
  pose proof (Hfirst i ltac:(lia)) as Hrej.
  pose proof (proj2 (_is_prime_correct (c + 2 * i) ltac:(lia)) Hp). congruence.
Qed.

Lemma _next_prime_negative (n : Z) :
  n < 0 -> _next_prime n < 0 /\ _next_prime n = if n mod 2 =? 0 then n + 1 else n.
Proof.
  intros Hn. destruct (_next_prime_total n) as (k & Hk & Heq & _ & Hfirst).
  set (c := if n mod 2 =? 0 then n + 1 else n) in *.
  assert (c < 0 /\ c mod 2 = 1) as [Hc Hodd].
  { unfold c. pose proof (Z.mod_pos_bound n 2 ltac:(lia)).
    destruct (Z.eqb_spec (n mod 2) 0) as [H0|H0]; [|lia].
    split; [|by rewrite Z.add_mod, H0 by lia].
    destruct (decide (n = -1)) as [->|]; [done|lia]. }
  destruct (decide (k = 0)) as [->|Hk0]; [lia|].
  specialize (Hfirst 0 ltac:(lia)). rewrite Z.add_0_r in Hfirst.
  by rewrite _is_prime_negative_odd in Hfirst.
Qed.

Lemma oa_ab_reachable : OA.reachable sample_hash oa_ab.
Proof.
  apply (reachable_for_each sample_hash [Put "a" 1; Put "b" 2] (OA.__init__ 5));
    [apply OA.reachable_init|by vm_compute].
Qed.

Lemma oa_ab3_reachable : OA.reachable sample_hash oa_ab3.
Proof.
  apply (reachable_for_each sample_hash [Put "a" 1; Put "b" 2] (OA.__init__ 3));
    [apply OA.reachable_init|by vm_compute].
Qed.

Lemma sc_ab_reachable : SC.reachable sample_hash sc_ab.
Proof.
  apply (sc_reachable_for_each sample_hash [Put "a" 1; Put "b" 2] (SC.__init__ 5));
    [apply SC.reachable_init|by vm_compute].
Qed.

(** * The value a call sequence leaves for a key *)

Lemma track_put {V : Type} (key k : string) (v0 : V) (pairs pairs' : list (string * V))
    (written : option V) :
  pairs' ≡ₚ (k, v0) :: filter (fun p => p.1 <> k) pairs ->
  (forall v, written = Some v <-> (key, v) ∈ pairs) ->
  forall v, track key written (Put k v0) = Some v <-> (key, v) ∈ pairs'.
Proof.
  intros Hperm Hm v. rewrite Hperm, elem_of_cons, list_elem_of_filter. simpl.
  destruct (decide (k = key)) as [->|Hne].
  - split; [intros [= ->]; by left|]. intros [[= ->]|[Hk _]]; done.
  - rewrite Hm. split; [intros Hin; right; by split|].
    intros [[= ? _]|[_ Hin]]; [congruence|done].
Qed.

Lemma track_remove {V : Type} (key k : string) (pairs pairs' : list (string * V))
    (written : option V) :
  pairs' ≡ₚ filter (fun p => p.1 <> k) pairs ->
  (forall v, written = Some v <-> (key, v) ∈ pairs) ->
  forall v, track key written (Remove k) = Some v <-> (key, v) ∈ pairs'.
Proof.
  intros Hperm Hm v. rewrite Hperm, list_elem_of_filter. simpl.
  destruct (decide (k = key)) as [->|Hne].
  - split; [done|]. by intros [Hk _].
  - rewrite Hm. split; [by split|by intros [_ ?]].
Qed.

Lemma oa_track_exact {V : Type} (hash : string -> Z) (key : string) (cs : list (call V))
    (m m' : OA.HashMap (V:=V)) (written : option V) :
  wf hash m -> for_each (OA.run hash) m cs = Ok m' ->
  (forall v, written = Some v <-> (key, v) ∈ live_pairs (OA._buckets m)) ->
  wf hash m' /\
  forall v, foldl (track key) written cs = Some v <-> (key, v) ∈ live_pairs (OA._buckets m').
Proof.
  revert m written. induction cs as [|c cs IH]; intros m written Hwf Hrun Hm; simpl in *.
  { by injection Hrun as <-. }
  destruct (OA.run hash m c) as [m1| |] eqn:Hc; simpl in Hrun; [|done..].
  apply (IH m1); [by eapply run_wf|done|]. clear IH Hrun.
  destruct c as [k v0|k|k|k| |n]; simpl in Hc.
  - destruct (put_spec hash m k v0 m1 Hwf Hc) as (_ & _ & _ & Hperm & _).
    by apply (track_put key k v0 (live_pairs (OA._buckets m))).
  - destruct (OA.get hash m k); simpl in Hc; [|done..]. by injection Hc as <-.
  - destruct (OA.contains_key hash m k); simpl in Hc; [|done..]. by injection Hc as <-.
  - destruct (remove_spec hash m k m1 Hwf Hc) as (_ & _ & Hperm & _).
    by apply (track_remove key k (live_pairs (OA._buckets m))).
  - injection Hc as <-. intros v. simpl. rewrite live_pairs_replicate.
    split; [done|by intros ?%elem_of_nil].
  - destruct (resize_table_spec hash m n Hwf) as (m2 & Hre & _ & Hperm & _).
    rewrite Hre in Hc. injection Hc as <-. intros v. simpl. by rewrite Hperm.
Qed.

Lemma sc_track_exact {V : Type} (hash : string -> Z) (key : string) (cs : list (call V))
    (m m' : SC.HashMap (V:=V)) (written : option V) :
  sc_wf hash m -> for_each (SC.run hash) m cs = Ok m' ->
  (forall v, written = Some v <-> (key, v) ∈ entries (SC._buckets m)) ->
  sc_wf hash m' /\
  forall v, foldl (track key) written cs = Some v <-> (key, v) ∈ entries (SC._buckets m').
Proof.
  revert m written. induction cs as [|c cs IH]; intros m written Hwf Hrun Hm; simpl in *.
  { by injection Hrun as <-. }
  destruct (SC.run hash m c) as [m1| |] eqn:Hc; simpl in Hrun; [|done..].
  apply (IH m1); [by eapply sc_run_wf|done|]. clear IH Hrun.
  destruct c as [k v0|k|k|k| |n]; simpl in Hc.
  - destruct (sc_put_spec hash m k v0 m1 Hwf Hc) as (_ & _ & Hperm).
    by apply (track_put key k v0 (entries (SC._buckets m))).
  - destruct (SC.get hash m k); simpl in Hc; [|done..]. by injection Hc as <-.
  - destruct (SC.contains_key hash m k); simpl in Hc; [|done..]. by injection Hc as <-.
  - destruct (sc_remove_spec hash m k m1 Hwf Hc) as (_ & _ & Hperm & _).
    by apply (track_remove key k (entries (SC._buckets m))).
  - injection Hc as <-. intros v. simpl. rewrite entries_replicate.
    split; [done|by intros ?%elem_of_nil].
  - destruct (sc_resize_table_spec hash m n Hwf) as (m2 & Hre & _ & Hperm & _).
    rewrite Hre in Hc. injection Hc as <-. intros v. simpl. by rewrite Hperm.
Qed.

Lemma option_eq_Some {A : Type} (o o' : option A) :
  (forall v, o = Some v <-> o' = Some v) -> o = o'.
Proof.
  intros H. destruct o as [v|]; [symmetry; by apply H|].
  destruct o' as [v'|]; [by apply H|done].
Qed.

(** * Further properties of the two maps *)

(** ** Lookups and the enumeration *)

(** X1: on every reachable state of the open-addressing map, the lookups
    agree with the enumeration of [get_keys_and_values]: a [get] that
    returns yields the value paired with the key, or [None] when the key is
    not enumerated; a [contains_key] that returns tells whether the key is
    enumerated; and for an enumerated key both return, whatever the
    tombstones in the table. *)
Theorem X1_oa_lookups_match_enumeration (V : Type) (hash : string -> Z)
    (m : OA.HashMap (V:=V)) (key : string) :
  OA.reachable hash m ->
  exists pairs, OA.get_keys_and_values m = Ok pairs /\
    (forall o, OA.get hash m key = Ok o -> forall v, o = Some v <-> (key, v) ∈ pairs) /\
    (forall b, OA.contains_key hash m key = Ok b -> b = true <-> key ∈ pairs.*1) /\
    (forall v, (key, v) ∈ pairs ->
       OA.get hash m key = Ok (Some v) /\ OA.contains_key hash m key = Ok true).
Proof.
  intros Hwf%reachable_wf. exists (live_pairs (OA._buckets m)).
  split; [apply get_keys_and_values_spec, (wf_length hash m Hwf)|]. split; [|split].
  - intros o Hget. by apply (get_returns hash m key o).
  - intros b Hc. by apply (contains_key_returns hash m key b).
  - intros v Hin. split; [by apply get_spec|].
    by destruct (present_key_returns hash m key v v Hwf Hin) as (_ & _ & ?).
Qed.

Lemma X1_oa_lookups_match_enumeration_witness :
  OA.get sample_hash oa_ab "b" = Ok (Some 2) /\
  OA.contains_key sample_hash oa_ab "b" = Ok true.
Proof.
  destruct (X1_oa_lookups_match_enumeration Z sample_hash oa_ab "b" oa_ab_reachable)
    as (pairs & Hkv & _ & _ & Hin).
  vm_compute in Hkv. injection Hkv as <-. apply Hin. by right; left.
Defined.

(** X2: the same agreement on every reachable state of the chaining
    map. *)
Theorem X2_sc_lookups_match_enumeration (V : Type) (hash : string -> Z)
    (m : SC.HashMap (V:=V)) (key : string) :
  SC.reachable hash m ->
  exists pairs, SC.get_keys_and_values m = Ok pairs /\
    (forall o, SC.get hash m key = Ok o -> forall v, o = Some v <-> (key, v) ∈ pairs) /\
    (forall b, SC.contains_key hash m key = Ok b -> b = true <-> key ∈ pairs.*1) /\
    (forall v, (key, v) ∈ pairs ->
       SC.get hash m key = Ok (Some v) /\ SC.contains_key hash m key = Ok true).
Proof.
  intros Hwf%sc_reachable_wf. exists (entries (SC._buckets m)).
  split; [apply sc_get_keys_and_values_spec, (sc_wf_length hash m Hwf)|]. split; [|split].
  - intros o Hget. by apply (sc_get_returns hash m key o).
  - intros b Hc. by apply (sc_contains_key_returns hash m key b).
  - intros v Hin. pose proof (sc_get_spec hash m key v Hwf Hin) as Hget. split; [done|].
    by rewrite contains_key_get, Hget.
Qed.

Lemma X2_sc_lookups_match_enumeration_witness :
  SC.get sample_hash sc_ab "b" = Ok (Some 2) /\
  SC.contains_key sample_hash sc_ab "b" = Ok true.
Proof.
  destruct (X2_sc_lookups_match_enumeration Z sample_hash sc_ab "b" sc_ab_reachable)
    as (pairs & Hkv & _ & _ & Hin).
  vm_compute in Hkv. injection Hkv as <-. apply Hin. by right; left.
Defined.

(** ** What a write changes, and what it leaves alone *)

(** X3: when the open-addressing [remove] returns, on any map whatever,
    the capacity is the same, the key is absent ([get] yields [None] and
    [contains_key] yields false), and [get] of every other key behaves as
    before. *)
Theorem X3_oa_remove_frame (V : Type) (hash : string -> Z)
    (m m' : OA.HashMap (V:=V)) (key : string) :
  OA.remove hash m key = Ok m' ->
  OA._capacity m' = OA._capacity m /\
  OA.get hash m' key = Ok None /\ OA.contains_key hash m' key = Ok false /\
  forall key', key' <> key -> OA.get hash m' key' = OA.get hash m key'.
Proof.
  intros Hrem. split; [by eapply remove_capacity|].
  destruct (remove_get_same hash m key m' Hrem) as [Hg Hc].
  split; [done|]. split; [done|]. intros key' Hne. by apply (remove_get_other hash m key).
Qed.

Lemma X3_oa_remove_frame_witness :
  exists m', OA.remove sample_hash oa_ab "a" = Ok m' /\
    OA.get sample_hash m' "a" = Ok None /\
    OA.get sample_hash m' "b" = OA.get sample_hash oa_ab "b".
Proof.
  pose (m' := {| OA._buckets := [None; None; Some (OA.mkHashEntry "a" 1 true);
                                 Some (OA.mkHashEntry "b" 2 false); None];
                 OA._capacity := 5; OA._size := 1 |}).
  assert (OA.remove sample_hash oa_ab "a" = Ok m') as Hrem by reflexivity.
  destruct (X3_oa_remove_frame Z sample_hash oa_ab m' "a" Hrem) as (_ & Hg & _ & Hother).
  exists m'. split; [exact Hrem|]. split; [exact Hg|]. by apply Hother.
Defined.

(** X4: when the chaining [put] returns, on any map whatever, the
    capacity is the same (this map never resizes on its own), the size
    grows by one if [get] found nothing for the key and stays if it found a
    value, [get] of the key yields the new value, and [get] of every other
    key behaves as before. *)
Theorem X4_sc_put_effect (V : Type) (hash : string -> Z)
    (m m' : SC.HashMap (V:=V)) (key : string) (value : V) :
  SC.put hash m key value = Ok m' ->
  SC._capacity m' = SC._capacity m /\
  (SC.get hash m key = Ok None -> SC._size m' = SC._size m + 1) /\
  (forall v0, SC.get hash m key = Ok (Some v0) -> SC._size m' = SC._size m) /\
  SC.get hash m' key = Ok (Some value) /\
  forall key', key' <> key -> SC.get hash m' key' = SC.get hash m key'.
Proof.
  intros Hput. destruct (sc_put_frame hash m key value m' Hput) as (Hcap & Hget & Hother).
  destruct (sc_put_size hash m key value m' Hput) as [Hnew Hold]. done.
Qed.

Lemma X4_sc_put_effect_witness :
  exists m', SC.put sample_hash sc_ab "a" 9 = Ok m' /\
    SC._size m' = SC._size sc_ab /\ SC.get sample_hash m' "a" = Ok (Some 9) /\
    SC.get sample_hash m' "b" = SC.get sample_hash sc_ab "b".
Proof.
  pose (m' := {| SC._buckets := [[]; []; [("a", 9)]; [("b", 2)]; []];
                 SC._capacity := 5; SC._size := 2 |}).
  assert (SC.put sample_hash sc_ab "a" 9 = Ok m') as Hput by reflexivity.
  destruct (X4_sc_put_effect Z sample_hash sc_ab m' "a" 9 Hput)
    as (_ & _ & Hold & Hget & Hother).
  exists m'. split; [exact Hput|]. split; [by apply (Hold 1)|]. split; [exact Hget|].
  by apply Hother.
Defined.

(** X5: when the chaining [remove] returns on a reachable state, the
    capacity is the same, the key is absent, and [get] of every other key
    behaves as before. *)
Theorem X5_sc_remove_frame (V : Type) (hash : string -> Z)
    (m m' : SC.HashMap (V:=V)) (key : string) :
  SC.reachable hash m -> SC.remove hash m key = Ok m' ->
  SC._capacity m' = SC._capacity m /\
  SC.get hash m' key = Ok None /\ SC.contains_key hash m' key = Ok false /\
  forall key', key' <> key -> SC.get hash m' key' = SC.get hash m key'.
Proof.
  intros Hwf%sc_reachable_wf Hrem.
  destruct (sc_remove_frame hash m key m' Hrem) as [Hcap Hother].
  pose proof (sc_remove_get hash m key m' Hwf Hrem) as Hget.
  split; [done|]. split; [done|]. split; [|done].
  by rewrite contains_key_get, Hget.
Qed.

Lemma X5_sc_remove_frame_witness :
  exists m', SC.remove sample_hash sc_ab "a" = Ok m' /\
    SC.get sample_hash m' "a" = Ok None /\
    SC.get sample_hash m' "b" = SC.get sample_hash sc_ab "b".
Proof.
  pose (m' := {| SC._buckets := [[]; []; []; [("b", 2)]; []];
                 SC._capacity := 5; SC._size := 1 |}).
  assert (SC.remove sample_hash sc_ab "a" = Ok m') as Hrem by reflexivity.
  destruct (X5_sc_remove_frame Z sample_hash sc_ab m' "a" sc_ab_reachable Hrem)
    as (_ & Hg & _ & Hother).
  exists m'. split; [exact Hrem|]. split; [exact Hg|]. by apply Hother.
Defined.

(** X6: when the open-addressing [put] returns on a reachable state, the
    size stays for a key that was enumerated and grows by one for a key
    that was not; the capacity stays when the load was below one half and
    more than doubles when it was not; and a [get] of any other key finds
    a value afterwards exactly when it found that value before. *)
Theorem X6_oa_put_accounting (V : Type) (hash : string -> Z)
    (m m' : OA.HashMap (V:=V)) (key : string) (value : V) :
  OA.reachable hash m -> OA.put hash m key value = Ok m' ->
  (exists pairs, OA.get_keys_and_values m = Ok pairs /\
     (key ∈ pairs.*1 -> OA._size m' = OA._size m) /\
     (key ∉ pairs.*1 -> OA._size m' = OA._size m + 1)) /\
  (2 * OA._size m < OA._capacity m -> OA._capacity m' = OA._capacity m) /\
  (OA._capacity m <= 2 * OA._size m -> 2 * OA._capacity m < OA._capacity m') /\
  (forall key' v, key' <> key ->
     OA.get hash m' key' = Ok (Some v) <-> OA.get hash m key' = Ok (Some v)).
Proof.
  intros Hwf%reachable_wf Hput.
  destruct (put_size_exact hash m key value m' Hwf Hput) as [Hold Hnew].
  destruct (put_capacity hash m key value m' Hwf Hput) as [Hsparse Hdense].
  split; [|split; [done|split]].
  - exists (live_pairs (OA._buckets m)).
    split; [apply get_keys_and_values_spec, (wf_length hash m Hwf)|done].
  - intros Hd. by destruct (Hdense Hd).
  - intros key' v Hne. by apply (put_get_other hash m key value m' key' v).
Qed.

Lemma X6_oa_put_accounting_witness :
  exists m', OA.put sample_hash oa_ab3 "c" 3 = Ok m' /\
    OA._size m' = 3 /\ 6 < OA._capacity m' /\
    OA.get sample_hash m' "a" = Ok (Some 1).
Proof.
  pose (m' := {| OA._buckets := [Some (OA.mkHashEntry "b" 2 false);
                                 Some (OA.mkHashEntry "c" 3 false);
                                 None; None; None; None;
                                 Some (OA.mkHashEntry "a" 1 false)];
                 OA._capacity := 7; OA._size := 3 |}).
  assert (OA.put sample_hash oa_ab3 "c" 3 = Ok m') as Hput by (vm_compute; reflexivity).
  destruct (X6_oa_put_accounting Z sample_hash oa_ab3 m' "c" 3 oa_ab3_reachable Hput)
    as (_ & _ & Hdense & Hother).
  exists m'. split; [exact Hput|]. split; [reflexivity|].
  split; [apply Hdense; simpl; lia|].
  apply Hother; [done|reflexivity].
Defined.

(** X7: on a reachable state of the open-addressing map, the calls on a
    key that [get] finds always return, tombstones or not: [put] keeps the
    size, [remove] lowers it by one, [contains_key] yields true. *)
Theorem X7_oa_present_key_calls_return (V : Type) (hash : string -> Z)
    (m : OA.HashMap (V:=V)) (key : string) (v0 value : V) :
  OA.reachable hash m -> OA.get hash m key = Ok (Some v0) ->
  (exists m', OA.put hash m key value = Ok m' /\ OA._size m' = OA._size m) /\
  (exists m', OA.remove hash m key = Ok m' /\ OA._size m' = OA._size m - 1) /\
  OA.contains_key hash m key = Ok true.
Proof.
  intros Hwf%reachable_wf Hin%get_Some_inv; [|done].
  assert (key ∈ (live_pairs (OA._buckets m)).*1) as Hkey
    by (apply list_elem_of_fmap; by exists (key, v0)).
  destruct (present_key_returns hash m key v0 value Hwf Hin) as ([m1 Hput] & [m2 Hrem] & Hc).
  split; [|split; [|done]].
  - exists m1. split; [done|].
    by destruct (put_size_exact hash m key value m1 Hwf Hput) as [-> _].
  - exists m2. split; [done|].
    by destruct (remove_spec hash m key m2 Hwf Hrem) as (_ & _ & _ & -> & _).
Qed.

Lemma X7_oa_present_key_calls_return_witness :
  (exists m', OA.remove sample_hash oa_ab3 "a" = Ok m' /\ OA._size m' = 2 - 1) /\
  OA.contains_key sample_hash oa_ab3 "a" = Ok true.
Proof.
  destruct (X7_oa_present_key_calls_return Z sample_hash oa_ab3 "a" 1 9
              oa_ab3_reachable eq_refl) as (_ & Hrem & Hc).
  split; [exact Hrem|exact Hc].
Defined.

(** ** Invariants of the reachable states *)

(** X8: on every reachable state of the open-addressing map with a
    positive capacity, the size is at least 0 and below the capacity, and
    at most one pair above half the capacity: a slot without a live entry
    always remains. *)
Theorem X8_oa_load_invariant (V : Type) (hash : string -> Z) (m : OA.HashMap (V:=V)) :
  OA.reachable hash m -> 0 < OA._capacity m ->
  0 <= OA._size m < OA._capacity m /\ 2 * (OA._size m - 1) < OA._capacity m.
Proof.
  intros Hreach Hpos. pose proof (reachable_wf hash m Hreach) as Hwf.
  pose proof (reachable_load_bounded hash m Hreach Hpos) as Hload.
  pose proof (wf_size hash m Hwf). pose proof (Z.prime_ge_2 _ (wf_prime hash m Hwf Hpos)).
  lia.
Qed.

Lemma X8_oa_load_invariant_witness :
  0 <= OA._size oa_ab3 < OA._capacity oa_ab3 /\
  2 * (OA._size oa_ab3 - 1) < OA._capacity oa_ab3.
Proof.
  apply (X8_oa_load_invariant Z sample_hash oa_ab3 oa_ab3_reachable). reflexivity.
Defined.

(** X9: on every reachable state of either map, the bucket array has
    [max(capacity, 0)] slots, the capacity is not zero, so that
    [table_load] returns the quotient of size and capacity without a
    division by zero, and a positive capacity is a prime. *)
Theorem X9_capacity_invariant (V : Type) (hash : string -> Z) :
  (forall m : OA.HashMap (V:=V), OA.reachable hash m ->
     length (OA._buckets m) = Z.to_nat (OA._capacity m) /\ OA._capacity m <> 0 /\
     (0 < OA._capacity m -> Z.prime (OA._capacity m)) /\
     OA.table_load m = Ok (inject_Z (OA._size m) / inject_Z (OA._capacity m))%Q) /\
  (forall m : SC.HashMap (V:=V), SC.reachable hash m ->
     length (SC._buckets m) = Z.to_nat (SC._capacity m) /\ SC._capacity m <> 0 /\
     (0 < SC._capacity m -> Z.prime (SC._capacity m)) /\
     SC.table_load m = Ok (inject_Z (SC._size m) / inject_Z (SC._capacity m))%Q).
Proof.
  split.
  - intros m Hwf%reachable_wf.
    split; [apply (wf_length hash m Hwf)|]. split; [apply (wf_capacity hash m Hwf)|].
    split; [apply (wf_prime hash m Hwf)|]. unfold OA.table_load.
    destruct (Z.eqb_spec (OA._capacity m) 0); [by destruct (wf_capacity hash m Hwf)|done].
  - intros m Hreach. pose proof (sc_reachable_wf hash m Hreach) as Hwf.
    split; [apply (sc_wf_length hash m Hwf)|]. split; [apply (sc_wf_capacity hash m Hwf)|].
    split; [by apply (sc_reachable_prime hash)|]. unfold SC.table_load.
    destruct (Z.eqb_spec (SC._capacity m) 0); [by destruct (sc_wf_capacity hash m Hwf)|done].
Qed.

Lemma X9_capacity_invariant_witness :
  Z.prime (OA._capacity oa_ab) /\ Z.prime (SC._capacity sc_ab).
Proof.
  destruct (X9_capacity_invariant Z sample_hash) as [Hoa Hsc].
  destruct (Hoa oa_ab oa_ab_reachable) as (_ & _ & Hp1 & _).
  destruct (Hsc sc_ab sc_ab_reachable) as (_ & _ & Hp2 & _).
  split; [apply Hp1|apply Hp2]; reflexivity.
Defined.

(** ** [empty_buckets] *)

(** X10: on every reachable state of the open-addressing map,
    [empty_buckets] returns a count that is not negative and, added to the
    size, does not exceed a positive capacity; it counts the slots that
    hold nothing, so a [remove], which leaves a tombstone, does not change
    it. *)
Theorem X10_oa_empty_buckets (V : Type) (hash : string -> Z) (m : OA.HashMap (V:=V)) :
  OA.reachable hash m ->
  exists e, OA.empty_buckets m = Ok e /\ 0 <= e /\
    (0 < OA._capacity m -> e + OA._size m <= OA._capacity m) /\
    forall key m', OA.remove hash m key = Ok m' -> OA.empty_buckets m' = Ok e.
Proof.
  intros Hwf%reachable_wf. exists (empty_slots (OA._buckets m)).
  pose proof (empty_slots_bound (OA._buckets m)) as [H0 Hle].
  pose proof (wf_length hash m Hwf) as Hlen. pose proof (wf_size hash m Hwf) as Hsz.
  split; [by apply empty_buckets_spec|]. split; [done|]. split; [lia|].
  intros key m' Hrem.
  destruct (remove_spec hash m key m' Hwf Hrem) as (Hwf' & _).
  rewrite empty_buckets_spec by apply (wf_length hash m' Hwf').
  by rewrite (remove_empty_slots hash m key m' Hrem).
Qed.

Lemma X10_oa_empty_buckets_witness :
  OA.empty_buckets oa_ab = Ok 3 /\
  OA.empty_buckets
    {| OA._buckets := [None; None; Some (OA.mkHashEntry "a" 1 true);
                       Some (OA.mkHashEntry "b" 2 false); None];
       OA._capacity := 5; OA._size := 1 |} = Ok 3.
Proof.
  destruct (X10_oa_empty_buckets Z sample_hash oa_ab oa_ab_reachable)
    as (e & He & _ & _ & Hrem).
  assert (e = 3) as -> by (vm_compute in He; by injection He).
  split; [reflexivity|]. apply (Hrem "a"). reflexivity.
Defined.

(** X11: on every reachable state of the chaining map with a positive
    capacity, [empty_buckets] returns a count between capacity minus size
    and capacity. *)
Theorem X11_sc_empty_buckets (V : Type) (hash : string -> Z) (m : SC.HashMap (V:=V)) :
  SC.reachable hash m -> 0 < SC._capacity m ->
  exists e, SC.empty_buckets m = Ok e /\
    0 <= e <= SC._capacity m /\ SC._capacity m - SC._size m <= e.
Proof.
  intros Hwf%sc_reachable_wf Hpos. exists (empty_chains (SC._buckets m)).
  pose proof (empty_chains_bound (SC._buckets m)) as [H0 Hle].
  pose proof (sc_wf_length hash m Hwf) as Hlen. pose proof (sc_wf_size hash m Hwf) as Hsz.
  split; [by apply sc_empty_buckets_spec|]. lia.
Qed.

Lemma X11_sc_empty_buckets_witness :
  exists e, SC.empty_buckets sc_ab = Ok e /\ 0 <= e <= 5 /\ 5 - 2 <= e.
Proof.
  apply (X11_sc_empty_buckets Z sample_hash sc_ab sc_ab_reachable). reflexivity.
Defined.

(** ** Tables without tombstones *)

(** X12: after a constructor call with a capacity that is not negative
    and any calls of [put] and [resize_table], the open-addressing table
    holds no tombstone: [empty_buckets] is capacity minus size, and when
    the load is below one half, [get], [contains_key] and [remove] return
    for every key. *)
Theorem X12_oa_writes_only_table (V : Type) (hash : string -> Z) (capacity : Z)
    (cs : list (call V)) (m : OA.HashMap (V:=V)) :
  0 <= capacity -> Forall is_write cs ->
  for_each (OA.run hash) (OA.__init__ capacity) cs = Ok m ->
  OA.empty_buckets m = Ok (OA._capacity m - OA._size m) /\
  (2 * OA._size m < OA._capacity m ->
   forall key, (exists o, OA.get hash m key = Ok o) /\
               (exists b, OA.contains_key hash m key = Ok b) /\
               (exists m', OA.remove hash m key = Ok m')).
Proof.
  intros Hcap Hcs Hrun.
  destruct (writes_no_tombstone hash cs (OA.__init__ capacity) m) as (Hwf & Hnt & Hpos);
    [apply wf_init|apply no_tombstone_replicate|by apply _next_prime_positive|done..|].
  split.
  - rewrite empty_buckets_spec by apply (wf_length hash m Hwf). f_equal.
    pose proof (empty_slots_no_tombstone _ Hnt). pose proof (wf_length hash m Hwf).
    pose proof (wf_size hash m Hwf). lia.
  - intros Hload key. by apply lookups_return.
Qed.

Lemma X12_oa_writes_only_table_witness :
  OA.empty_buckets oa_ab = Ok (5 - 2) /\ exists o, OA.get sample_hash oa_ab "z" = Ok o.
Proof.
  assert (Forall (is_write (V:=Z)) [Put "a" 1; Put "b" 2]) as Hcs by (repeat constructor).
  destruct (X12_oa_writes_only_table Z sample_hash 5 [Put "a" 1; Put "b" 2] oa_ab
              ltac:(lia) Hcs eq_refl) as [He Hlook].
  split; [exact He|]. destruct (Hlook ltac:(reflexivity) "z") as (Hget & _). exact Hget.
Defined.

(** X13: on a reachable state of the open-addressing map, a
    [resize_table] to more than twice the size keeps the size and every
    value that [get] finds, ends with at least the requested capacity and
    without tombstones, and afterwards [get], [contains_key] and [remove]
    return for every key. *)
Theorem X13_oa_resize_table_restores_lookups (V : Type) (hash : string -> Z)
    (m m' : OA.HashMap (V:=V)) (new_capacity : Z) :
  OA.reachable hash m -> 2 * OA._size m < new_capacity ->
  OA.resize_table hash m new_capacity = Ok m' ->
  OA._size m' = OA._size m /\ new_capacity <= OA._capacity m' /\
  OA.empty_buckets m' = Ok (OA._capacity m' - OA._size m') /\
  forall key,
    (exists o, OA.get hash m' key = Ok o /\
       forall v, o = Some v <-> OA.get hash m key = Ok (Some v)) /\
    (exists b, OA.contains_key hash m' key = Ok b) /\
    (exists m'', OA.remove hash m' key = Ok m'').
Proof.
  intros Hwf%reachable_wf Hbig Hre.
  pose proof (run_wf hash m (ResizeTable new_capacity) m' Hwf Hre) as Hwf'.
  pose proof (wf_size hash m Hwf) as Hsz.
  destruct (resize_table_lookups hash m new_capacity m' Hwf Hre) as (Hsize & Hget & Hnew).
  destruct Hnew as [Hnt Hcap]; [lia|].
  split; [done|]. split; [done|]. split.
  - rewrite empty_buckets_spec by apply (wf_length hash m' Hwf'). f_equal.
    pose proof (empty_slots_no_tombstone _ Hnt). pose proof (wf_length hash m' Hwf').
    pose proof (wf_size hash m' Hwf'). lia.
  - intros key.
    destruct (lookups_return hash m' key Hwf' Hnt) as ([o Ho] & Hc & Hr); [lia..|].
    split; [|done]. exists o. split; [done|]. intros v. rewrite <- Hget, Ho.
    split; [by intros ->|by intros [= ->]].
Qed.

Lemma X13_oa_resize_table_restores_lookups_witness :
  OA.resize_table sample_hash oa_ab3 5 = Ok oa_ab /\
  OA.get sample_hash oa_ab3 "d" = Diverge /\
  exists o, OA.get sample_hash oa_ab "d" = Ok o.
Proof.
  assert (OA.resize_table sample_hash oa_ab3 5 = Ok oa_ab) as Hre by (vm_compute; reflexivity).
  destruct (X13_oa_resize_table_restores_lookups Z sample_hash oa_ab3 oa_ab 5
              oa_ab3_reachable ltac:(reflexivity) Hre) as (_ & _ & _ & Hlook).
  split; [exact Hre|]. split; [reflexivity|].
  destruct (Hlook "d") as ((o & Ho & _) & _). exists o. exact Ho.
Defined.

(** ** The chaining map never fails on a capacity that is not negative *)

(** X14: on a chaining map constructed with a capacity that is not
    negative, every sequence of [put], [get], [contains_key], [remove],
    [clear] and [resize_table] calls returns, and the capacity stays
    positive. *)
Theorem X14_sc_every_call_returns (V : Type) (hash : string -> Z) (capacity : Z)
    (cs : list (call V)) :
  0 <= capacity ->
  exists m, for_each (SC.run hash) (SC.__init__ capacity) cs = Ok m /\ 0 < SC._capacity m.
Proof.
  intros Hcap.
  destruct (sc_calls_total hash cs (SC.__init__ capacity)) as (m & Hrun & _ & Hpos);
    [apply sc_wf_init|by apply _next_prime_positive|]. by exists m.
Qed.

Lemma X14_sc_every_call_returns_witness :
  exists m, for_each (SC.run sample_hash) (SC.__init__ (V:=Z) 5)
              [Put "a" 1; Remove "d"; Get "d"; Remove "a"; ContainsKey "a"; Clear;
               ResizeTable 2] = Ok m /\ 0 < SC._capacity m.
Proof. apply (X14_sc_every_call_returns Z sample_hash 5). lia. Defined.

(** ** A [put] undone by a [remove] *)

(** X15: on any chaining map on which [get] finds nothing for a key, a
    [put] of the key returns, and a [remove] of the key right after it
    gives back the very map from before the [put]. *)
Theorem X15_sc_put_then_remove_restores (V : Type) (hash : string -> Z)
    (m : SC.HashMap (V:=V)) (key : string) (value : V) :
  SC.get hash m key = Ok None ->
  exists m1, SC.put hash m key value = Ok m1 /\ SC.remove hash m1 key = Ok m.
Proof. apply sc_put_remove. Qed.

Lemma X15_sc_put_then_remove_restores_witness :
  exists m1, SC.put sample_hash sc_ab "c" 3 = Ok m1 /\ SC.remove sample_hash m1 "c" = Ok sc_ab.
Proof. apply (X15_sc_put_then_remove_restores Z sample_hash sc_ab "c" 3). reflexivity. Defined.

(** X16: on a reachable state of the open-addressing map on which
    [contains_key] yields false for a key, after a [put] of the key that
    returns, a [remove] of the key returns too, and the map then enumerates
    the pairs from before the [put], up to their order, with the size from
    before. *)
Theorem X16_oa_put_then_remove (V : Type) (hash : string -> Z)
    (m m1 : OA.HashMap (V:=V)) (key : string) (value : V) :
  OA.reachable hash m -> OA.contains_key hash m key = Ok false ->
  OA.put hash m key value = Ok m1 ->
  exists m2 before after, OA.remove hash m1 key = Ok m2 /\
    OA.get_keys_and_values m = Ok before /\ OA.get_keys_and_values m2 = Ok after /\
    after ≡ₚ before /\ OA._size m2 = OA._size m.
Proof.
  intros Hwf%reachable_wf Hc Hput.
  assert (key ∉ (live_pairs (OA._buckets m)).*1) as Hout.
  { intros Hin. by apply (contains_key_returns hash m key false Hwf Hc) in Hin. }
  destruct (put_remove hash m key value m1 Hwf Hout Hput) as (m2 & Hrem & Hperm & Hsize & _).
  pose proof (run_wf hash m (Put key value) m1 Hwf Hput) as Hwf1.
  pose proof (run_wf hash m1 (Remove key) m2 Hwf1 Hrem) as Hwf2.
  exists m2, (live_pairs (OA._buckets m)), (live_pairs (OA._buckets m2)).
  split; [done|]. split; [apply get_keys_and_values_spec, (wf_length hash m Hwf)|].
  split; [apply get_keys_and_values_spec, (wf_length hash m2 Hwf2)|done].
Qed.

Lemma X16_oa_put_then_remove_witness :
  exists m2 before after,
    OA.remove sample_hash
      {| OA._buckets := [None; None; Some (OA.mkHashEntry "a" 1 false);
                         Some (OA.mkHashEntry "b" 2 false);
                         Some (OA.mkHashEntry "c" 3 false)];
         OA._capacity := 5; OA._size := 3 |} "c" = Ok m2 /\
    OA.get_keys_and_values oa_ab = Ok before /\ OA.get_keys_and_values m2 = Ok after /\
    after ≡ₚ before /\ OA._size m2 = OA._size oa_ab.
Proof.
  apply (X16_oa_put_then_remove Z sample_hash oa_ab _ "c" 3 oa_ab_reachable);
    reflexivity.
Defined.

(** ** [resize_table] of the chaining map *)

(** X17: on a reachable state of the chaining map with a positive
    capacity, [resize_table] keeps the size and the result of [get] and of
    [contains_key] for every key. *)
Theorem X17_sc_resize_table_keeps_lookups (V : Type) (hash : string -> Z)
    (m m' : SC.HashMap (V:=V)) (new_capacity : Z) :
  SC.reachable hash m -> 0 < SC._capacity m ->
  SC.resize_table hash m new_capacity = Ok m' ->
  SC._size m' = SC._size m /\
  forall key, SC.get hash m' key = SC.get hash m key /\
              SC.contains_key hash m' key = SC.contains_key hash m key.
Proof.
  intros Hwf%sc_reachable_wf Hpos Hre.
  destruct (sc_resize_table_lookups hash m new_capacity m' Hwf Hpos Hre) as [Hsize Hget].
  split; [done|]. intros key. split; [done|]. by rewrite !contains_key_get, Hget.
Qed.

Lemma X17_sc_resize_table_keeps_lookups_witness :
  exists m', SC.resize_table sample_hash sc_ab 7 = Ok m' /\
    SC._capacity m' = 7 /\ SC._size m' = 2 /\
    forall key, SC.get sample_hash m' key = SC.get sample_hash sc_ab key /\
                SC.contains_key sample_hash m' key = SC.contains_key sample_hash sc_ab key.
Proof.
  pose (m' := {| SC._buckets := [[("b", 2)]; []; []; []; []; []; [("a", 1)]];
                 SC._capacity := 7; SC._size := 2 |}).
  assert (SC.resize_table sample_hash sc_ab 7 = Ok m') as Hre by (vm_compute; reflexivity).
  exists m'. split; [exact Hre|]. split; [reflexivity|].
  apply (X17_sc_resize_table_keeps_lookups Z sample_hash sc_ab m' 7 sc_ab_reachable);
    [reflexivity|exact Hre].
Defined.

(** ** [clear] *)

(** X18: [clear] on any open-addressing map with a positive capacity
    keeps the capacity and leaves an empty map: the size is 0, nothing is
    enumerated, every bucket is empty, and for every key [get] yields
    [None], [contains_key] yields false and [remove] changes nothing. *)
Theorem X18_oa_clear_resets (V : Type) (hash : string -> Z) (m : OA.HashMap (V:=V)) :
  0 < OA._capacity m ->
  OA._size (OA.clear m) = 0 /\ OA._capacity (OA.clear m) = OA._capacity m /\
  OA.get_keys_and_values (OA.clear m) = Ok [] /\
  OA.empty_buckets (OA.clear m) = Ok (OA._capacity m) /\
  forall key, OA.get hash (OA.clear m) key = Ok None /\
              OA.contains_key hash (OA.clear m) key = Ok false /\
              OA.remove hash (OA.clear m) key = Ok (OA.clear m).
Proof.
  intros Hpos. split; [done|]. split; [done|].
  assert (length (OA._buckets (OA.clear m)) = Z.to_nat (OA._capacity (OA.clear m))) as Hlen
    by (simpl; by rewrite length_replicate).
  split; [|split].
  - rewrite get_keys_and_values_spec by done. simpl. by rewrite live_pairs_replicate.
  - rewrite empty_buckets_spec by done. simpl. rewrite empty_slots_replicate. f_equal. lia.
  - intros key. by apply clear_lookups.
Qed.

Lemma X18_oa_clear_resets_witness :
  OA.get_keys_and_values (OA.clear oa_ab) = Ok [] /\
  OA.empty_buckets (OA.clear oa_ab) = Ok 5 /\
  OA.get sample_hash (OA.clear oa_ab) "a" = Ok None.
Proof.
  destruct (X18_oa_clear_resets Z sample_hash oa_ab ltac:(reflexivity))
    as (_ & _ & Hkv & He & Hkey).
  split; [exact Hkv|]. split; [exact He|]. destruct (Hkey "a") as [Hget _]. exact Hget.
Defined.

(** X19: [clear] on any chaining map with a positive capacity keeps the
    capacity and leaves an empty map: the size is 0, nothing is enumerated,
    every bucket is empty, and for every key [get] yields [None],
    [contains_key] yields false and [remove] changes nothing. *)
Theorem X19_sc_clear_resets (V : Type) (hash : string -> Z) (m : SC.HashMap (V:=V)) :
  0 < SC._capacity m ->
  SC._size (SC.clear m) = 0 /\ SC._capacity (SC.clear m) = SC._capacity m /\
  SC.get_keys_and_values (SC.clear m) = Ok [] /\
  SC.empty_buckets (SC.clear m) = Ok (SC._capacity m) /\
  forall key, SC.get hash (SC.clear m) key = Ok None /\
              SC.contains_key hash (SC.clear m) key = Ok false /\
              SC.remove hash (SC.clear m) key = Ok (SC.clear m).
Proof.
  intros Hpos. split; [done|]. split; [done|].
  assert (length (SC._buckets (SC.clear m)) = Z.to_nat (SC._capacity (SC.clear m))) as Hlen
    by (simpl; by rewrite length_replicate).
  split; [|split].
  - rewrite sc_get_keys_and_values_spec by done. simpl. by rewrite entries_replicate.
  - rewrite sc_empty_buckets_spec by done. simpl. rewrite empty_chains_replicate.
    f_equal. lia.
  - intros key. by apply sc_clear_lookups.
Qed.

Lemma X19_sc_clear_resets_witness :
  SC.get_keys_and_values (SC.clear sc_ab) = Ok [] /\
  SC.empty_buckets (SC.clear sc_ab) = Ok 5 /\
  SC.get sample_hash (SC.clear sc_ab) "a" = Ok None.
Proof.
  destruct (X19_sc_clear_resets Z sample_hash sc_ab ltac:(reflexivity))
    as (_ & _ & Hkv & He & Hkey).
  split; [exact Hkv|]. split; [exact He|]. destruct (Hkey "a") as [Hget _]. exact Hget.
Defined.

(** ** The capacity manager outside the range of the specification *)

(** X20: [_next_prime] always returns an odd number at or above its
    argument that [_is_prime] accepts, and returns its own results
    unchanged.  For a request that is not negative the result is the least
    odd prime at or above the request: it is a prime, at least 3 and at
    least the request, and no odd prime lies between the request and it; so
    it is never 2.  A negative request is returned as it is when odd and
    raised by one when even. *)
Theorem X20_next_prime_least_odd_prime (n : Z) :
  n <= _next_prime n /\
  Z.odd (_next_prime n) = true /\ _is_prime (_next_prime n) = true /\
  _next_prime (_next_prime n) = _next_prime n /\
  (0 <= n -> 3 <= _next_prime n /\ n <= _next_prime n /\ Z.prime (_next_prime n) /\
     (forall p, Z.prime p -> p <> 2 -> n <= p -> _next_prime n <= p) /\
     (forall q, Z.prime q -> Z.odd q = true -> n <= q ->
        (forall p, Z.prime p -> p <> 2 -> n <= p -> q <= p) -> _next_prime n = q)) /\
  (n < 0 -> _next_prime n = if n mod 2 =? 0 then n + 1 else n).
Proof.
  pose proof (_next_prime_at_least n) as Hge.
  pose proof (_next_prime_odd n) as Hodd. pose proof (_next_prime_accepted n) as Hacc.
  split; [done|]. split; [done|]. split; [done|].
  split; [by apply _next_prime_fixed|]. split.
  - intros Hn. pose proof (_next_prime_positive n Hn) as Hpos.
    destruct (_next_prime_capacity n) as [_ Hprime]. specialize (Hprime Hpos).
    pose proof (Z.prime_ge_2 _ Hprime).
    assert (_next_prime n <> 2) as Hne2 by (intros H2; by rewrite H2 in Hodd).
    assert (forall p, Z.prime p -> p <> 2 -> n <= p -> _next_prime n <= p) as Hleast
      by (intros p Hp H2 Hle; by apply _next_prime_least).
    split; [lia|]. split; [done|]. split; [done|]. split; [done|].
    intros q Hq Hqodd Hnq Hqleast.
    assert (q <> 2) as Hq2 by (intros ->; done).
    pose proof (Hleast q Hq Hq2 Hnq). pose proof (Hqleast _ Hprime Hne2 Hge). lia.
  - intros Hn. by destruct (_next_prime_negative n Hn).
Qed.

(** X21: a map constructed with a negative capacity has a negative
    capacity and no bucket.  On it [put], [get] and [remove] raise, in both
    variants; [contains_key] raises in the chaining variant and yields
    false in the open-addressing variant, which tests the size first. *)
Theorem X21_negative_capacity (V : Type) (hash : string -> Z) (n : Z)
    (key : string) (value : V) :
  n < 0 ->
  (OA._capacity (OA.__init__ (V:=V) n) < 0 /\ OA._buckets (OA.__init__ (V:=V) n) = [] /\
   OA.put hash (OA.__init__ n) key value = Raise /\
   OA.get hash (OA.__init__ (V:=V) n) key = Raise /\
   OA.remove hash (OA.__init__ (V:=V) n) key = Raise /\
   OA.contains_key hash (OA.__init__ (V:=V) n) key = Ok false) /\
  (SC._capacity (SC.__init__ (V:=V) n) < 0 /\ SC._buckets (SC.__init__ (V:=V) n) = [] /\
   SC.put hash (SC.__init__ n) key value = Raise /\
   SC.get hash (SC.__init__ (V:=V) n) key = Raise /\
   SC.remove hash (SC.__init__ (V:=V) n) key = Raise /\
   SC.contains_key hash (SC.__init__ (V:=V) n) key = Raise).
Proof.
  intros Hn. destruct (_next_prime_negative n Hn) as [Hneg _].
  assert (Z.to_nat (_next_prime n) = 0%nat) as Hlen by lia.
  split.
  - assert (OA._buckets (OA.__init__ (V:=V) n) = []) as Hb by (simpl; by rewrite Hlen).
    assert (OA.get_bucket_index hash (OA.__init__ (V:=V) n) key = Raise) as Hidx
      by (apply get_bucket_index_no_bucket; [done|simpl; lia]).
    split; [done|]. split; [done|].
    split; [by apply put_with_negative; [apply wf_init|]|].
    unfold OA.get, OA.remove, OA.contains_key. rewrite Hidx. done.
  - assert (SC._buckets (SC.__init__ (V:=V) n) = []) as Hb by (simpl; by rewrite Hlen).
    pose proof (bucket_of_no_bucket hash (SC.__init__ (V:=V) n) key Hb) as Hbucket.
    split; [done|]. split; [done|].
    unfold SC.put, SC.get, SC.remove, SC.contains_key. rewrite Hbucket. done.
Qed.

Lemma X21_negative_capacity_witness :
  OA.__init__ (V:=Z) (-4) = {| OA._buckets := []; OA._capacity := -3; OA._size := 0 |} /\
  OA.put sample_hash (OA.__init__ (-4)) "a" 1 = Raise /\
  SC.get sample_hash (SC.__init__ (V:=Z) (-4)) "a" = Raise.
Proof.
  destruct (X21_negative_capacity Z sample_hash (-4) "a" 1 ltac:(lia))
    as [(_ & _ & Hput & _) (_ & _ & _ & Hget & _)].
  split; [reflexivity|]. split; [exact Hput|exact Hget].
Defined.

(** ** The maps as dictionaries *)

(** X22: on an open-addressing map constructed with any capacity, after
    any sequence of calls that returns, a [get] that returns yields exactly
    what the calls left for the key: the value of the last [put] of the
    key, or [None] if there was none or a [remove] of the key or a [clear]
    came after it; and a [contains_key] that returns tells whether there is
    such a value. *)
Theorem X22_oa_get_is_last_put (V : Type) (hash : string -> Z) (capacity : Z)
    (cs : list (call V)) (m : OA.HashMap (V:=V)) (key : string) :
  for_each (OA.run hash) (OA.__init__ capacity) cs = Ok m ->
  (forall o, OA.get hash m key = Ok o -> o = last_put cs key) /\
  (forall b, OA.contains_key hash m key = Ok b ->
     b = bool_decide (is_Some (last_put cs key))).
Proof.
  intros Hrun.
  destruct (oa_track_exact hash key cs (OA.__init__ capacity) m None (wf_init hash capacity) Hrun)
    as [Hwf Htrack].
  { intros v. simpl. rewrite live_pairs_replicate. split; [done|by intros ?%elem_of_nil]. }
  fold (last_put cs key) in Htrack. split.
  - intros o Hget. apply option_eq_Some. intros v.
    by rewrite (get_returns hash m key o Hwf Hget v), Htrack.
  - intros b Hc. pose proof (contains_key_returns hash m key b Hwf Hc) as Hb.
    destruct (last_put cs key) as [v|] eqn:Hlast.
    + apply Hb, list_elem_of_fmap. exists (key, v). split; [done|]. by apply Htrack.
    + destruct b; [|done]. pose proof (proj1 Hb eq_refl) as Hkey.
      apply list_elem_of_fmap in Hkey as ([k v] & Hk & Hin).
      simpl in Hk. subst k. by apply Htrack in Hin.
Qed.

Lemma X22_oa_get_is_last_put_witness :
  exists m, for_each (OA.run sample_hash) (OA.__init__ 5)
              [Put "a" 1; Put "b" 2; Remove "a"; Put "b" 3] = Ok m /\
    (forall o, OA.get sample_hash m "a" = Ok o -> o = None) /\
    (forall o, OA.get sample_hash m "b" = Ok o -> o = Some 3).
Proof.
  pose (m := {| OA._buckets := [None; None; Some (OA.mkHashEntry "a" 1 true);
                                Some (OA.mkHashEntry "b" 3 false); None];
                OA._capacity := 5; OA._size := 1 |}).
  assert (for_each (OA.run sample_hash) (OA.__init__ 5)
            [Put "a" 1; Put "b" 2; Remove "a"; Put "b" 3] = Ok m) as Hrun
    by (vm_compute; reflexivity).
  exists m. split; [exact Hrun|]. split.
  - exact (proj1 (X22_oa_get_is_last_put Z sample_hash 5 _ m "a" Hrun)).
  - exact (proj1 (X22_oa_get_is_last_put Z sample_hash 5 _ m "b" Hrun)).
Defined.

(** X23: on a chaining map constructed with a capacity that is not
    negative, every sequence of calls returns, and then [get] returns for
    every key exactly what the calls left for it: the value of the last
    [put] of the key, or [None] if there was none or a [remove] of the key
    or a [clear] came after it; [contains_key] tells whether there is such
    a value. *)
Theorem X23_sc_get_is_last_put (V : Type) (hash : string -> Z) (capacity : Z)
    (cs : list (call V)) :
  0 <= capacity ->
  exists m, for_each (SC.run hash) (SC.__init__ capacity) cs = Ok m /\
    forall key, SC.get hash m key = Ok (last_put cs key) /\
                SC.contains_key hash m key = Ok (bool_decide (is_Some (last_put cs key))).
Proof.
  intros Hcap.
  destruct (sc_calls_total hash cs (SC.__init__ capacity)) as (m & Hrun & _ & Hpos);
    [apply sc_wf_init|by apply _next_prime_positive|].
  exists m. split; [done|]. intros key.
  destruct (sc_track_exact hash key cs (SC.__init__ capacity) m None
              (sc_wf_init hash capacity) Hrun) as [Hwf Htrack].
  { intros v. simpl. rewrite entries_replicate. split; [done|by intros ?%elem_of_nil]. }
  fold (last_put cs key) in Htrack.
  destruct (sc_get_total hash m key Hwf Hpos) as [o Hget].
  assert (o = last_put cs key) as ->.
  { apply option_eq_Some. intros v. by rewrite (sc_get_returns hash m key o Hwf Hget v), Htrack. }
  split; [done|]. by rewrite contains_key_get, Hget.
Qed.

Lemma X23_sc_get_is_last_put_witness :
  exists m, for_each (SC.run sample_hash) (SC.__init__ 5)
              [Put "a" 1; Put "b" 2; Remove "a"; Put "b" 3] = Ok m /\
    SC.get sample_hash m "a" = Ok None /\ SC.get sample_hash m "b" = Ok (Some 3).
Proof.
  destruct (X23_sc_get_is_last_put Z sample_hash 5
              [Put "a" 1; Put "b" 2; Remove "a"; Put "b" 3] ltac:(lia)) as (m & Hrun & Hget).
  exists m. split; [exact Hrun|].
  split; [exact (proj1 (Hget "a"))|exact (proj1 (Hget "b"))].
Defined.
